(** * The gossip envelope codec of [src/network/p2p/protocol.ts]

    A shallow embedding of [encodeMessage] and [decodeMessage] together with
    the platform operations they call ([JSON.stringify], [JSON.parse],
    [TextEncoder.encode], [TextDecoder.decode]) and of the shape guard
    [isGossipMessage] they import from [~/types/typeguards]. *)

From Stdlib Require Import ZArith List String Ascii Bool Lia.
From Stdlib Require Decimal DecimalN DecimalPos.
Import ListNotations.
Open Scope Z_scope.

(** ** Strings and bytes

    A JavaScript string is a sequence of UTF-16 code units, a [Uint8Array]
    a sequence of octets; both are kept as lists of [Z] with their ranges
    stated where a proof needs them. *)

Definition jsstring := list Z.
Definition bytes := list Z.

(** The code units of an ASCII literal of the source. *)
Definition lit (s : string) : jsstring :=
  map (fun a => Z.of_N (N_of_ascii a)) (list_ascii_of_string s).

Definition is_code_unit (u : Z) : bool := (0 <=? u) && (u <? 65536).
Definition is_byte (b : Z) : bool := (0 <=? b) && (b <? 256).

Definition is_high_surrogate (u : Z) : bool := (0xD800 <=? u) && (u <=? 0xDBFF).
Definition is_low_surrogate (u : Z) : bool := (0xDC00 <=? u) && (u <=? 0xDFFF).
Definition is_surrogate (u : Z) : bool := (0xD800 <=? u) && (u <=? 0xDFFF).

(** A Unicode scalar value: a code point that is not a surrogate. *)
Definition is_scalar (c : Z) : bool :=
  (0 <=? c) && (c <=? 0x10FFFF) && negb (is_surrogate c).

Definition REPLACEMENT : Z := 0xFFFD.
Definition BOM : Z := 0xFEFF.

(** *** UTF-16 *)

(** Conversion of a string to scalar values (WebIDL [USVString]): a
    surrogate pair becomes its code point, an unpaired surrogate U+FFFD. *)
Fixpoint to_scalars (s : jsstring) : list Z :=
  match s with
  | [] => []
  | u :: rest =>
      if is_high_surrogate u then
        match rest with
        | l :: rest' =>
            if is_low_surrogate l
            then (0x10000 + (u - 0xD800) * 0x400 + (l - 0xDC00)) :: to_scalars rest'
            else REPLACEMENT :: to_scalars rest
        | [] => [REPLACEMENT]
        end
      else if is_low_surrogate u then REPLACEMENT :: to_scalars rest
      else u :: to_scalars rest
  end.

(** [UTF16EncodeCodePoint] of ECMA-262. *)
Definition utf16_encode_code_point (cp : Z) : jsstring :=
  if cp <? 0x10000 then [cp]
  else [(cp - 0x10000) / 0x400 + 0xD800; (cp - 0x10000) mod 0x400 + 0xDC00].

Definition utf16_encode (cps : list Z) : jsstring :=
  flat_map utf16_encode_code_point cps.

(** *** UTF-8 (WHATWG Encoding Standard) *)

(** The UTF-8 encoder: one to four bytes per scalar value. *)
Definition utf8_encode_code_point (cp : Z) : bytes :=
  if cp <=? 0x7F then [cp]
  else if cp <=? 0x7FF then
    [Z.shiftr cp 6 + 0xC0; Z.lor 0x80 (Z.land cp 0x3F)]
  else if cp <=? 0xFFFF then
    [Z.shiftr cp 12 + 0xE0;
     Z.lor 0x80 (Z.land (Z.shiftr cp 6) 0x3F);
     Z.lor 0x80 (Z.land cp 0x3F)]
  else
    [Z.shiftr cp 18 + 0xF0;
     Z.lor 0x80 (Z.land (Z.shiftr cp 12) 0x3F);
     Z.lor 0x80 (Z.land (Z.shiftr cp 6) 0x3F);
     Z.lor 0x80 (Z.land cp 0x3F)].

Definition utf8_encode (cps : list Z) : bytes :=
  flat_map utf8_encode_code_point cps.

(** The state of the UTF-8 decoder. *)
Record utf8_state := mk_utf8_state {
  code_point : Z;
  bytes_seen : Z;
  bytes_needed : Z;
  lower_boundary : Z;
  upper_boundary : Z
}.

Definition utf8_initial : utf8_state := mk_utf8_state 0 0 0 0x80 0xBF.

Inductive utf8_result :=
| Continue (st : utf8_state)
| Emit (cp : Z)
| DecodeError
| DecodeErrorRestore.

(** The decoder's handler for one byte.  [DecodeErrorRestore] is the error
    that puts the byte back on the input; every result except [Continue]
    leaves the decoder in its initial state. *)
Definition utf8_handler (st : utf8_state) (byte : Z) : utf8_result :=
  if bytes_needed st =? 0 then
    if (0 <=? byte) && (byte <=? 0x7F) then Emit byte
    else if (0xC2 <=? byte) && (byte <=? 0xDF) then
      Continue (mk_utf8_state (Z.land byte 0x1F) 0 1 0x80 0xBF)
    else if (0xE0 <=? byte) && (byte <=? 0xEF) then
      Continue (mk_utf8_state (Z.land byte 0xF) 0 2
                  (if byte =? 0xE0 then 0xA0 else 0x80)
                  (if byte =? 0xED then 0x9F else 0xBF))
    else if (0xF0 <=? byte) && (byte <=? 0xF4) then
      Continue (mk_utf8_state (Z.land byte 0x7) 0 3
                  (if byte =? 0xF0 then 0x90 else 0x80)
                  (if byte =? 0xF4 then 0x8F else 0xBF))
    else DecodeError
  else if (byte <? lower_boundary st) || (upper_boundary st <? byte) then
    DecodeErrorRestore
  else
    let cp := Z.lor (Z.shiftl (code_point st) 6) (Z.land byte 0x3F) in
    if bytes_seen st + 1 =? bytes_needed st then Emit cp
    else Continue (mk_utf8_state cp (bytes_seen st + 1) (bytes_needed st) 0x80 0xBF).

(** Running the decoder in its replacement error mode: every error emits
    U+FFFD, and the input ending inside a sequence is an error too. *)
Fixpoint utf8_decode_from (st : utf8_state) (data : bytes) : list Z :=
  match data with
  | [] => if bytes_needed st =? 0 then [] else [REPLACEMENT]
  | b :: rest =>
      match utf8_handler st b with
      | Continue st' => utf8_decode_from st' rest
      | Emit cp => cp :: utf8_decode_from utf8_initial rest
      | DecodeError => REPLACEMENT :: utf8_decode_from utf8_initial rest
      | DecodeErrorRestore =>
          REPLACEMENT ::
          match utf8_handler utf8_initial b with
          | Continue st' => utf8_decode_from st' rest
          | Emit cp => cp :: utf8_decode_from utf8_initial rest
          | _ => REPLACEMENT :: utf8_decode_from utf8_initial rest
          end
      end
  end.

Definition utf8_decode (data : bytes) : list Z :=
  utf8_decode_from utf8_initial data.

(** A leading byte order mark is dropped ([ignoreBOM] is false by default). *)
Definition strip_bom (cps : list Z) : list Z :=
  match cps with
  | c :: rest => if c =? BOM then rest else cps
  | [] => []
  end.

(** [new TextEncoder().encode(input)]; an [undefined] argument takes the
    parameter's default, the empty string. *)
Definition TextEncoder_encode (input : option jsstring) : bytes :=
  match input with
  | Some s => utf8_encode (to_scalars s)
  | None => []
  end.

(** [new TextDecoder().decode(data)]: UTF-8, not fatal, BOM dropped. *)
Definition TextDecoder_decode (data : bytes) : jsstring :=
  utf16_encode (strip_bom (utf8_decode data)).

(** ** JavaScript values *)

(** A Number.  [Finite neg [d1; ...; dk] n] is the value
    (-1)^neg * 0.d1...dk * 10^n, the digits [s], their count [k] and the
    exponent [n] that Number::toString works with; the digits are canonical
    when they are decimal digits with [d1] and [dk] not zero.  A binary64
    value is named by the digits Number::toString gives it, the fewest that
    round to it; [binary64] below tells these from other decimals. *)
Inductive number :=
| NaN
| Infinity (negative : bool)
| Zero (negative : bool)
| Finite (negative : bool) (digits : list Z) (exponent : Z).

#[local] Unset Elimination Schemes.

(** The values the codec handles: JSON data, [undefined], and Numbers that
    JSON cannot write.  An object keeps its properties in enumeration order
    (the placing of array-index keys first is not modelled). *)
Inductive value :=
| VUndefined
| VNull
| VBoolean (b : bool)
| VNumber (x : number)
| VString (s : jsstring)
| VArray (elements : list value)
| VObject (properties : list (jsstring * value)).

#[local] Set Elimination Schemes.

Fixpoint jsstring_eqb (a b : jsstring) : bool :=
  match a, b with
  | [], [] => true
  | x :: a', y :: b' => (x =? y) && jsstring_eqb a' b'
  | _, _ => false
  end.

(** Own-property lookup; [None] when the key is absent. *)
Fixpoint lookup (k : jsstring) (ps : list (jsstring * value)) : option value :=
  match ps with
  | [] => None
  | (k', v) :: rest => if jsstring_eqb k k' then Some v else lookup k rest
  end.

(** [o[k] = v] on an ordinary object: an existing property keeps its place,
    a new one goes last. *)
Fixpoint obj_set (k : jsstring) (v : value) (ps : list (jsstring * value))
  : list (jsstring * value) :=
  match ps with
  | [] => [(k, v)]
  | (k', v') :: rest =>
      if jsstring_eqb k k' then (k', v) :: rest else (k', v') :: obj_set k v rest
  end.

(** [v.k] as a guard reads it: [undefined] when [v] has no such property. *)
Definition get (v : value) (k : string) : value :=
  match v with
  | VObject ps => match lookup (lit k) ps with Some x => x | None => VUndefined end
  | _ => VUndefined
  end.

(** ToBoolean, the test of [!message]. *)
Definition truthy (v : value) : bool :=
  match v with
  | VUndefined | VNull => false
  | VBoolean b => b
  | VNumber NaN | VNumber (Zero _) => false
  | VNumber _ => true
  | VString [] => false
  | VString _ => true
  | VArray _ | VObject _ => true
  end.

(** ** Characters

    The code units of the characters that JSON's grammar and
    Number::toString name. *)

Abbreviation QUOTATION_MARK := 34 (only parsing).
Abbreviation REVERSE_SOLIDUS := 92 (only parsing).
Abbreviation SOLIDUS := 47 (only parsing).
Abbreviation LEFT_BRACE := 123 (only parsing).
Abbreviation RIGHT_BRACE := 125 (only parsing).
Abbreviation LEFT_BRACKET := 91 (only parsing).
Abbreviation RIGHT_BRACKET := 93 (only parsing).
Abbreviation COLON := 58 (only parsing).
Abbreviation COMMA := 44 (only parsing).
Abbreviation MINUS := 45 (only parsing).
Abbreviation PLUS := 43 (only parsing).
Abbreviation FULL_STOP := 46 (only parsing).
Abbreviation DIGIT_ZERO := 48 (only parsing).
Abbreviation DIGIT_NINE := 57 (only parsing).
Abbreviation CAPITAL_A := 65 (only parsing).
Abbreviation CAPITAL_E := 69 (only parsing).
Abbreviation CAPITAL_F := 70 (only parsing).
Abbreviation SMALL_A := 97 (only parsing).
Abbreviation SMALL_B := 98 (only parsing).
Abbreviation SMALL_E := 101 (only parsing).
Abbreviation SMALL_F := 102 (only parsing).
Abbreviation SMALL_N := 110 (only parsing).
Abbreviation SMALL_R := 114 (only parsing).
Abbreviation SMALL_T := 116 (only parsing).
Abbreviation SMALL_U := 117 (only parsing).
Abbreviation BACKSPACE := 8 (only parsing).
Abbreviation TAB := 9 (only parsing).
Abbreviation LINE_FEED := 10 (only parsing).
Abbreviation FORM_FEED := 12 (only parsing).
Abbreviation CARRIAGE_RETURN := 13 (only parsing).
Abbreviation SPACE := 32 (only parsing).

(** ** Number::toString and the number literals of JSON *)

Definition is_digit (c : Z) : bool := (DIGIT_ZERO <=? c) && (c <=? DIGIT_NINE).
Definition digit_char (d : Z) : Z := DIGIT_ZERO + d.
Definition zeros (n : Z) : jsstring := repeat DIGIT_ZERO (Z.to_nat n).

Fixpoint digits_of_uint (u : Decimal.uint) : list Z :=
  match u with
  | Decimal.Nil => []
  | Decimal.D0 u => 0 :: digits_of_uint u
  | Decimal.D1 u => 1 :: digits_of_uint u
  | Decimal.D2 u => 2 :: digits_of_uint u
  | Decimal.D3 u => 3 :: digits_of_uint u
  | Decimal.D4 u => 4 :: digits_of_uint u
  | Decimal.D5 u => 5 :: digits_of_uint u
  | Decimal.D6 u => 6 :: digits_of_uint u
  | Decimal.D7 u => 7 :: digits_of_uint u
  | Decimal.D8 u => 8 :: digits_of_uint u
  | Decimal.D9 u => 9 :: digits_of_uint u
  end.

Fixpoint uint_of_digits (ds : list Z) : Decimal.uint :=
  match ds with
  | [] => Decimal.Nil
  | d :: r =>
      let u := uint_of_digits r in
      match d with
      | 0 => Decimal.D0 u
      | 1 => Decimal.D1 u
      | 2 => Decimal.D2 u
      | 3 => Decimal.D3 u
      | 4 => Decimal.D4 u
      | 5 => Decimal.D5 u
      | 6 => Decimal.D6 u
      | 7 => Decimal.D7 u
      | 8 => Decimal.D8 u
      | _ => Decimal.D9 u
      end
  end.

(** The decimal digits of a natural number, and their value. *)
Definition decimal_digits (e : Z) : list Z := digits_of_uint (N.to_uint (Z.to_N e)).
Definition decimal_value (ds : list Z) : Z := Z.of_N (N.of_uint (uint_of_digits ds)).

Definition is_finite (x : number) : bool :=
  match x with
  | NaN | Infinity _ => false
  | _ => true
  end.

(** The digits of a finite Number other than zero, as Number::toString
    lays them out: plain, with a decimal point, or in exponent notation
    when [n] is outside -5..21. *)
Definition digits_toString (ds : list Z) (n : Z) : jsstring :=
  let k := Z.of_nat (List.length ds) in
  let s := map digit_char ds in
  if (-5 <=? n) && (n <=? 21) then
    if k <=? n then s ++ zeros (n - k)
    else if 0 <? n then firstn (Z.to_nat n) s ++ lit "." ++ skipn (Z.to_nat n) s
    else lit "0." ++ zeros (- n) ++ s
  else
    let e := n - 1 in
    let exponent := lit "e" ++ (if e <? 0 then lit "-" else lit "+")
                      ++ map digit_char (decimal_digits (Z.abs e)) in
    match s with
    | [] => exponent
    | [d] => d :: exponent
    | d :: more => d :: lit "." ++ more ++ exponent
    end.

(** Number::toString in radix 10. *)
Definition Number_toString (x : number) : jsstring :=
  match x with
  | NaN => lit "NaN"
  | Infinity neg => (if neg then lit "-" else []) ++ lit "Infinity"
  | Zero _ => lit "0"
  | Finite neg ds n => (if neg then lit "-" else []) ++ digits_toString ds n
  end.

(** Results of the parsing functions: the value read and the text left,
    a syntax error, or recursion fuel used up. *)
Inductive parsed (A : Type) :=
| Parsed (a : A) (rest : jsstring)
| SyntaxError
| OutOfFuel.
Arguments Parsed {A} a rest.
Arguments SyntaxError {A}.
Arguments OutOfFuel {A}.

Definition bindP {A B} (p : parsed A) (k : A -> jsstring -> parsed B) : parsed B :=
  match p with
  | Parsed a rest => k a rest
  | SyntaxError => SyntaxError
  | OutOfFuel => OutOfFuel
  end.

Definition mapP {A B} (f : A -> B) (p : parsed A) : parsed B :=
  bindP p (fun a rest => Parsed (f a) rest).

(** The longest prefix of decimal digits, as digit values. *)
Fixpoint span_digits (s : jsstring) : list Z * jsstring :=
  match s with
  | c :: rest =>
      if is_digit c
      then let (ds, r) := span_digits rest in ((c - DIGIT_ZERO) :: ds, r)
      else ([], s)
  | [] => ([], [])
  end.

Fixpoint strip_zeros (ds : list Z) : list Z :=
  match ds with
  | d :: rest => if d =? 0 then strip_zeros rest else ds
  | [] => []
  end.

(** The mathematical value of a literal, from its sign, integer digits,
    fraction digits and exponent: the decimal as it is written. *)
Definition literal_value (neg : bool) (int frac : list Z) (e : Z) : number :=
  let all := int ++ frac in
  let significant := strip_zeros all in
  match significant with
  | [] => Zero neg
  | _ =>
      Finite neg (rev (strip_zeros (rev significant)))
        (Z.of_nat (List.length int)
         - (Z.of_nat (List.length all) - Z.of_nat (List.length significant)) + e)
  end.

Definition is_decimal_digit (d : Z) : bool := (0 <=? d) && (d <=? 9).

(** Canonical digits of a Number: decimal digits, the first and the last
    not zero (so at least one). *)
Definition canonical_digits (ds : list Z) : bool :=
  forallb is_decimal_digit ds && negb (hd 0 ds =? 0) && negb (last ds 0 =? 0).

(** *** binary64

    The Number value for a real is the binary64 value nearest to it, the
    one with an even significand when two are as near; a real too small
    becomes zero and one too large an infinity.  Reals are positive
    fractions [num/den] here. *)

(** Whether [num/den] is at least [base ^ k]. *)
Definition at_least_pow (base num den k : Z) : bool :=
  if 0 <=? k then den * base ^ k <=? num else den <=? num * base ^ (- k).

(** The integer part of the binary logarithm of [num/den]. *)
Definition floor_log2 (num den : Z) : Z :=
  let l := Z.log2 num - Z.log2 den in
  if at_least_pow 2 num den l then l else l - 1.

(** The integer nearest to [num/den], the even one of two. *)
Definition round_half_even (num den : Z) : Z :=
  let q := num / den in
  let r := num mod den in
  if 2 * r <? den then q
  else if den <? 2 * r then q + 1
  else if Z.even q then q else q + 1.

(** A magnitude of binary64: zero, infinity, or [m * 2 ^ e] with a
    significand [m] below 2^53 and an exponent from -1074 to 971. *)
Inductive rounded :=
| RoundedZero
| RoundedInfinity
| Rounded (m e : Z).

(** Rounding of [num/den] to binary64: 53 bits of significand, fewer
    where the exponent would go below -1074. *)
Definition round_binary64 (num den : Z) : rounded :=
  let e := Z.max (floor_log2 num den - 52) (-1074) in
  let m := if 0 <=? e then round_half_even num (den * 2 ^ e)
           else round_half_even (num * 2 ^ (- e)) den in
  let (m, e) := if m =? 2 ^ 53 then (2 ^ 52, e + 1) else (m, e) in
  if m =? 0 then RoundedZero
  else if 971 <? e then RoundedInfinity
  else Rounded m e.

(** Rounding of the decimal 0.d1...dk * 10^n. *)
Definition round_decimal (ds : list Z) (n : Z) : rounded :=
  let a := n - Z.of_nat (List.length ds) in
  let d := decimal_value ds in
  if d =? 0 then RoundedZero
  else if 0 <=? a then round_binary64 (d * 10 ^ a) 1
  else round_binary64 d (10 ^ (- a)).

(** The [n] with 10^(n-1) <= num/den < 10^n. *)
Definition decimal_exponent (num den : Z) : Z :=
  if den <=? num then Z.of_nat (List.length (decimal_digits (num / den)))
  else
    let l := Z.of_nat (List.length (decimal_digits (den / num))) in
    if num * 10 ^ (l - 1) =? den then 2 - l else 1 - l.

(** The digits and exponent of the decimal [s * 10^p]. *)
Definition candidate (s p : Z) : list Z * Z :=
  let ds := decimal_digits s in
  (rev (strip_zeros (rev ds)), p + Z.of_nat (List.length ds)).

(** The decimal is one that rounds to [m * 2 ^ e]. *)
Definition names (c : list Z * Z) (m e : Z) : bool :=
  canonical_digits (fst c)
  && match round_decimal (fst c) (snd c) with
     | Rounded m' e' => (m' =? m) && (e' =? e)
     | _ => false
     end.

(** The digits Number::toString gives [num/den], which is [m * 2 ^ e]:
    with [k] digits, then [k + 1], and so on, the decimals next below and
    next above are tried, and of two that round to the value the nearer
    is taken, the even one when they are as near. *)
Fixpoint shortest_from (fuel : nat) (k : Z) (num den n m e : Z)
  : option (list Z * Z) :=
  match fuel with
  | O => None
  | S fuel' =>
      let p := n - k in
      let num' := if 0 <=? p then num else num * 10 ^ (- p) in
      let den' := if 0 <=? p then den * 10 ^ p else den in
      let q := num' / den' in
      let r := num' mod den' in
      let lo := candidate q p in
      let hi := candidate (q + 1) p in
      match names lo m e, names hi m e with
      | true, true =>
          Some (if (2 * r <? den') || ((2 * r =? den') && Z.even q) then lo else hi)
      | true, false => Some lo
      | false, true => Some hi
      | false, false => shortest_from fuel' (k + 1) num den n m e
      end
  end.

(** The Number value for a decimal (RoundMVResult of ECMA-262, with
    correct rounding): the binary64 value nearest to it, named by its
    shortest digits.  Seventeen digits name every binary64 value. *)
Definition RoundMVResult (x : number) : number :=
  match x with
  | Finite neg ds n =>
      match round_decimal ds n with
      | RoundedZero => Zero neg
      | RoundedInfinity => Infinity neg
      | Rounded m e =>
          let num := if 0 <=? e then m * 2 ^ e else m in
          let den := if 0 <=? e then 1 else 2 ^ (- e) in
          match shortest_from 17 1 num den (decimal_exponent num den) m e with
          | Some (ds', n') => Finite neg ds' n'
          | None => x
          end
      end
  | _ => x
  end.

Definition number_eqb (x y : number) : bool :=
  match x, y with
  | NaN, NaN => true
  | Infinity a, Infinity b => Bool.eqb a b
  | Zero a, Zero b => Bool.eqb a b
  | Finite a ds n, Finite b ds' n' => Bool.eqb a b && jsstring_eqb ds ds' && (n =? n')
  | _, _ => false
  end.

(** A Number of the language: a finite one other than zero has canonical
    digits, and they are the digits of the binary64 value they round to. *)
Definition binary64 (x : number) : bool :=
  match x with
  | Finite _ ds _ => canonical_digits ds && number_eqb (RoundMVResult x) x
  | _ => true
  end.

(** The Number denoted by sign, integer digits, fraction digits and
    exponent of a literal. *)
Definition make_number (neg : bool) (int frac : list Z) (e : Z) : number :=
  RoundMVResult (literal_value neg int frac e).

Definition parse_sign (s : jsstring) : bool * jsstring :=
  match s with
  | c :: r => if c =? MINUS then (true, r) else (false, s)
  | [] => (false, s)
  end.

(** int: a single 0, or a digit 1-9 followed by digits. *)
Definition parse_int (s : jsstring) : parsed (list Z) :=
  match s with
  | c :: r =>
      if c =? DIGIT_ZERO then Parsed [0] r
      else if is_digit c then let (ds, r') := span_digits s in Parsed ds r'
      else SyntaxError
  | [] => SyntaxError
  end.

(** frac: nothing, or a point followed by at least one digit. *)
Definition parse_frac (s : jsstring) : parsed (list Z) :=
  match s with
  | c :: r =>
      if c =? FULL_STOP then
        match span_digits r with
        | ([], _) => SyntaxError
        | (ds, r') => Parsed ds r'
        end
      else Parsed [] s
  | [] => Parsed [] s
  end.

(** exp: nothing, or e or E, an optional sign and at least one digit. *)
Definition parse_exp (s : jsstring) : parsed Z :=
  match s with
  | c :: r =>
      if (c =? SMALL_E) || (c =? CAPITAL_E) then
        let (neg, r1) :=
          match r with
          | c' :: r' => if c' =? MINUS then (true, r')
                        else if c' =? PLUS then (false, r') else (false, r)
          | [] => (false, r)
          end in
        match span_digits r1 with
        | ([], _) => SyntaxError
        | (ds, r2) => Parsed (if neg then - decimal_value ds else decimal_value ds) r2
        end
      else Parsed 0 s
  | [] => Parsed 0 s
  end.

(** A number literal after its sign. *)
Definition parse_unsigned (neg : bool) (s : jsstring) : parsed number :=
  bindP (parse_int s) (fun int s2 =>
  bindP (parse_frac s2) (fun frac s3 =>
  bindP (parse_exp s3) (fun e s4 =>
  Parsed (make_number neg int frac e) s4))).

Definition parse_number (s : jsstring) : parsed number :=
  let (neg, s1) := parse_sign s in parse_unsigned neg s1.

(** ** JSON strings *)

(** The two-character escapes of QuoteJSONString. *)
Definition escape_char (u : Z) : option Z :=
  if u =? BACKSPACE then Some SMALL_B
  else if u =? TAB then Some SMALL_T
  else if u =? LINE_FEED then Some SMALL_N
  else if u =? FORM_FEED then Some SMALL_F
  else if u =? CARRIAGE_RETURN then Some SMALL_R
  else if u =? QUOTATION_MARK then Some QUOTATION_MARK
  else if u =? REVERSE_SOLIDUS then Some REVERSE_SOLIDUS
  else None.

Definition hex_digit (d : Z) : Z :=
  if d <? 10 then DIGIT_ZERO + d else SMALL_A + (d - 10).

(** UnicodeEscape: backslash, u and four lowercase hexadecimal digits. *)
Definition unicode_escape (u : Z) : jsstring :=
  [REVERSE_SOLIDUS; SMALL_U; hex_digit (u / 4096); hex_digit ((u / 256) mod 16);
   hex_digit ((u / 16) mod 16); hex_digit (u mod 16)].

(** The characters QuoteJSONString puts between the quotes: control
    characters and unpaired surrogates escaped, surrogate pairs kept. *)
Fixpoint quote_body (s : jsstring) : jsstring :=
  match s with
  | [] => []
  | u :: rest =>
      match escape_char u with
      | Some e => REVERSE_SOLIDUS :: e :: quote_body rest
      | None =>
          if u <? SPACE then unicode_escape u ++ quote_body rest
          else if is_high_surrogate u then
            match rest with
            | l :: rest' =>
                if is_low_surrogate l then u :: l :: quote_body rest'
                else unicode_escape u ++ quote_body rest
            | [] => unicode_escape u
            end
          else if is_low_surrogate u then unicode_escape u ++ quote_body rest
          else u :: quote_body rest
      end
  end.

Definition QuoteJSONString (s : jsstring) : jsstring :=
  QUOTATION_MARK :: quote_body s ++ [QUOTATION_MARK].

Definition hex_value (c : Z) : option Z :=
  if (DIGIT_ZERO <=? c) && (c <=? DIGIT_NINE) then Some (c - DIGIT_ZERO)
  else if (SMALL_A <=? c) && (c <=? SMALL_F) then Some (c - SMALL_A + 10)
  else if (CAPITAL_A <=? c) && (c <=? CAPITAL_F) then Some (c - CAPITAL_A + 10)
  else None.

Definition hex4 (h1 h2 h3 h4 : Z) : option Z :=
  match hex_value h1, hex_value h2, hex_value h3, hex_value h4 with
  | Some a, Some b, Some c, Some d => Some (((a * 16 + b) * 16 + c) * 16 + d)
  | _, _, _, _ => None
  end.

(** The character after a backslash in a JSON string. *)
Definition unescape (e : Z) : option Z :=
  if e =? QUOTATION_MARK then Some QUOTATION_MARK
  else if e =? REVERSE_SOLIDUS then Some REVERSE_SOLIDUS
  else if e =? SOLIDUS then Some SOLIDUS
  else if e =? SMALL_B then Some BACKSPACE
  else if e =? SMALL_F then Some FORM_FEED
  else if e =? SMALL_N then Some LINE_FEED
  else if e =? SMALL_R then Some CARRIAGE_RETURN
  else if e =? SMALL_T then Some TAB
  else None.

(** The text of a JSON string after its opening quote, up to and including
    the closing one. *)
Fixpoint parse_string_body (s : jsstring) : parsed jsstring :=
  match s with
  | [] => SyntaxError
  | c :: rest =>
      if c =? QUOTATION_MARK then Parsed [] rest
      else if c =? REVERSE_SOLIDUS then
        match rest with
        | [] => SyntaxError
        | e :: rest1 =>
            if e =? SMALL_U then
              match rest1 with
              | h1 :: h2 :: h3 :: h4 :: rest2 =>
                  match hex4 h1 h2 h3 h4 with
                  | Some u => mapP (cons u) (parse_string_body rest2)
                  | None => SyntaxError
                  end
              | _ => SyntaxError
              end
            else
              match unescape e with
              | Some u => mapP (cons u) (parse_string_body rest1)
              | None => SyntaxError
              end
        end
      else if c <? SPACE then SyntaxError
      else mapP (cons c) (parse_string_body rest)
  end.

(** ** Calls of the platform *)

(** What a call of the platform can do: return, or throw. *)
Inductive exn := SyntaxErrorExn | RangeErrorExn.

Inductive outcome (A : Type) :=
| Returned (a : A)
| Thrown (e : exn).
Arguments Returned {A} a.
Arguments Thrown {A} e.

(** What the engine that runs the code can serialise at the moment of a
    call.  ECMA-262 sets no bound on JSON.stringify; an engine has them:
    the serialisation recurses as deep as the value is nested and throws a
    RangeError when the call stack left is used up, or when the text would
    be longer than a string may be.  [completes] says, by the depth of the
    nesting and the text to build, whether the call completes. *)
Record Engine := { completes : nat -> option jsstring -> bool }.

(** The depth to which arrays and objects are nested in a value. *)
Fixpoint nesting (v : value) : nat :=
  match v with
  | VArray elements => S (fold_right Nat.max O (map nesting elements))
  | VObject properties =>
      S (fold_right Nat.max O (map (fun p => nesting (snd p)) properties))
  | _ => O
  end.

(** ** JSON.stringify *)

Fixpoint join (sep : jsstring) (parts : list jsstring) : jsstring :=
  match parts with
  | [] => []
  | [p] => p
  | p :: more => p ++ sep ++ join sep more
  end.

(** SerializeJSONProperty without replacer and indentation.  [None] is
    the [undefined] result: such a property is left out of an object, and
    such an element of an array is written null, as is a Number that is
    not finite. *)
Fixpoint SerializeJSONProperty (v : value) : option jsstring :=
  match v with
  | VUndefined => None
  | VNull => Some (lit "null")
  | VBoolean b => Some (if b then lit "true" else lit "false")
  | VNumber x => Some (if is_finite x then Number_toString x else lit "null")
  | VString s => Some (QuoteJSONString s)
  | VArray elements =>
      Some (lit "[" ++
            join (lit ",")
              (map (fun e => match SerializeJSONProperty e with
                             | Some text => text
                             | None => lit "null"
                             end) elements)
            ++ lit "]")
  | VObject properties =>
      Some (lit "{" ++
            join (lit ",")
              (flat_map (fun p => match SerializeJSONProperty (snd p) with
                                  | Some text => [QuoteJSONString (fst p) ++ lit ":" ++ text]
                                  | None => []
                                  end) properties)
            ++ lit "}")
  end.

(** The engine completes the serialisation of the value. *)
Definition serialises (engine : Engine) (v : value) : bool :=
  completes engine (nesting v) (SerializeJSONProperty v).

(** [JSON.stringify(v)]: the text, or [undefined], when the engine
    completes the serialisation, and a RangeError when it does not. *)
Definition JSON_stringify (engine : Engine) (v : value) : outcome (option jsstring) :=
  if serialises engine v then Returned (SerializeJSONProperty v)
  else Thrown RangeErrorExn.

(** An engine with room for values nested to [stack_depth] and for strings
    of [string_length] code units. *)
Definition bounded_engine (stack_depth : nat) (string_length : Z) : Engine :=
  {| completes depth text :=
       (depth <=? stack_depth)%nat
       && match text with
          | Some text => Z.of_nat (List.length text) <=? string_length
          | None => true
          end |}.

(** ** JSON.parse *)

Definition is_ws (c : Z) : bool :=
  (c =? SPACE) || (c =? TAB) || (c =? LINE_FEED) || (c =? CARRIAGE_RETURN).

Fixpoint skip_ws (s : jsstring) : jsstring :=
  match s with
  | c :: rest => if is_ws c then skip_ws rest else s
  | [] => []
  end.

(** The text must start with the given ASCII word. *)
Fixpoint expect (word : jsstring) (s : jsstring) : option jsstring :=
  match word with
  | [] => Some s
  | w :: word' =>
      match s with
      | c :: rest => if c =? w then expect word' rest else None
      | [] => None
      end
  end.

Definition parse_literal {A} (word : string) (a : A) (s : jsstring) : parsed A :=
  match expect (lit word) s with
  | Some rest => Parsed a rest
  | None => SyntaxError
  end.

(** The object JSON.parse builds from the members in the order read: a
    repeated key takes the later value. *)
Definition obj_of_members (members : list (jsstring * value))
  : list (jsstring * value) :=
  fold_left (fun o m => obj_set (fst m) (snd m) o) members [].

(** Recursive descent over the JSON grammar.  [parse_value] reads leading
    white space and one value; [parse_elements] the elements of an array
    after its bracket, up to the closing one; [parse_members] the members
    of an object likewise.  Every call spends one unit of fuel. *)
Fixpoint parse_value (fuel : nat) (s : jsstring) : parsed value :=
  match fuel with
  | O => OutOfFuel
  | S fuel' =>
      match skip_ws s with
      | [] => SyntaxError
      | c :: rest =>
          if c =? LEFT_BRACE then
            match skip_ws rest with
            | [] => SyntaxError
            | c' :: rest' =>
                if c' =? RIGHT_BRACE then Parsed (VObject []) rest'
                else mapP (fun ms => VObject (obj_of_members ms))
                          (parse_members fuel' (c' :: rest'))
            end
          else if c =? LEFT_BRACKET then
            match skip_ws rest with
            | [] => SyntaxError
            | c' :: rest' =>
                if c' =? RIGHT_BRACKET then Parsed (VArray []) rest'
                else mapP VArray (parse_elements fuel' (c' :: rest'))
            end
          else if c =? QUOTATION_MARK then mapP VString (parse_string_body rest)
          else if c =? SMALL_T then parse_literal "true" (VBoolean true) (c :: rest)
          else if c =? SMALL_F then parse_literal "false" (VBoolean false) (c :: rest)
          else if c =? SMALL_N then parse_literal "null" VNull (c :: rest)
          else mapP VNumber (parse_number (c :: rest))
      end
  end
with parse_elements (fuel : nat) (s : jsstring) : parsed (list value) :=
  match fuel with
  | O => OutOfFuel
  | S fuel' =>
      bindP (parse_value fuel' s) (fun v rest =>
        match skip_ws rest with
        | [] => SyntaxError
        | c :: rest' =>
            if c =? COMMA then mapP (cons v) (parse_elements fuel' rest')
            else if c =? RIGHT_BRACKET then Parsed [v] rest'
            else SyntaxError
        end)
  end
with parse_members (fuel : nat) (s : jsstring) : parsed (list (jsstring * value)) :=
  match fuel with
  | O => OutOfFuel
  | S fuel' =>
      match skip_ws s with
      | [] => SyntaxError
      | q :: rest0 =>
          if q =? QUOTATION_MARK then
            bindP (parse_string_body rest0) (fun k rest1 =>
              match skip_ws rest1 with
              | [] => SyntaxError
              | colon :: rest2 =>
                  if colon =? COLON then
                    bindP (parse_value fuel' rest2) (fun v rest3 =>
                      match skip_ws rest3 with
                      | [] => SyntaxError
                      | c :: rest4 =>
                          if c =? COMMA then mapP (cons (k, v)) (parse_members fuel' rest4)
                          else if c =? RIGHT_BRACE then Parsed [(k, v)] rest4
                          else SyntaxError
                      end)
                  else SyntaxError
              end)
          else SyntaxError
      end
  end.

(** Fuel that always suffices: two units for every code unit of the text. *)
Definition parse_fuel (text : jsstring) : nat := 2 * List.length text + 2.

(** [JSON.parse(text)] without reviver: one value between optional white
    space, a SyntaxError otherwise. *)
Definition JSON_parse (text : jsstring) : outcome value :=
  match parse_value (parse_fuel text) text with
  | Parsed v rest =>
      match skip_ws rest with
      | [] => Returned v
      | _ :: _ => Thrown SyntaxErrorExn
      end
  | _ => Thrown SyntaxErrorExn
  end.

(** ** The shape guards of [~/types/typeguards] *)

Definition isString (v : value) : bool :=
  match v with VString _ => true | _ => false end.

Definition isNumber (v : value) : bool :=
  match v with VNumber _ => true | _ => false end.

Definition isUndefined (v : value) : bool :=
  match v with VUndefined => true | _ => false end.

Section Typeguards.

(** The shape predicates of the two payload types, owned by the message
    and identity-registry subsystems. *)
Variable isMessage : value -> bool.
Variable isIDRegistryEvent : value -> bool.

(** Modelled from the spec: the network-address shape of [rpcAddress],
    missing with [AddressInfo] of the platform's [net] module; address a
    string, port a number, family a string when present. *)
Definition isAddressInfo (v : value) : bool :=
  isString (get v "address") && isNumber (get v "port")
  && (isUndefined (get v "family") || isString (get v "family")).

(** Modelled from the spec: the guard for ContactInfoContent, missing
    with [~/types/typeguards]; peerId a string, rpcAddress absent or of
    the network-address shape. *)
Definition isContactInfo (v : value) : bool :=
  isString (get v "peerId")
  && (isUndefined (get v "rpcAddress") || isAddressInfo (get v "rpcAddress")).

(** Modelled from the spec: the guard for IDRegistryContent, missing with
    [~/types/typeguards]; root a string, count a number, message of the
    registry event's shape. *)
Definition isIDRegistryContent (v : value) : bool :=
  isString (get v "root") && isNumber (get v "count")
  && isIDRegistryEvent (get v "message").

(** Modelled from the spec: the guard for UserContent, missing with
    [~/types/typeguards]; as the previous one with the message's shape. *)
Definition isUserContent (v : value) : bool :=
  isString (get v "root") && isNumber (get v "count")
  && isMessage (get v "message").

(** Modelled from the spec: the content validator, missing with
    [~/types/typeguards]; the three variants tried in order. *)
Definition isValidContent (v : value) : bool :=
  isContactInfo v || isIDRegistryContent v || isUserContent v.

(** A non-empty array of strings. *)
Definition isTopics (v : value) : bool :=
  match v with
  | VArray (t :: ts) => forallb isString (t :: ts)
  | _ => false
  end.

(** Modelled from the spec: [isGossipMessage], missing with
    [~/types/typeguards]; content one of the three variants and topics a
    non-empty sequence of strings. *)
Definition isGossipMessage (v : value) : bool :=
  isValidContent (get v "content") && isTopics (get v "topics").

End Typeguards.

(** ** [src/network/p2p/protocol.ts] *)

Definition NETWORK_TOPIC_PRIMARY : string := "f_network_topic_primary".
Definition NETWORK_TOPIC_CONTACT : string := "f_network_topic_contact".
Definition GOSSIP_CONTACT_INTERVAL : Z := 10000.
Definition GOSSIP_TOPICS : list string := [NETWORK_TOPIC_CONTACT; NETWORK_TOPIC_PRIMARY].

(** *** The types

    TypeScript's types are erased when the code runs: the codec receives
    plain values.  The records below are the declared shapes, and
    [value_of_GossipMessage] the value a typed envelope is. *)

(** [AddressInfo] of the platform's [net] module. *)
Record AddressInfo := {
  address : jsstring;
  family : jsstring;
  port : number
}.

Record ContactInfoContent := {
  peerId : jsstring;
  rpcAddress : option AddressInfo
}.

(** [Message] and [IDRegistryEvent] of [~/types] stay the values they are. *)
Record UserContent := {
  user_message : value;
  user_root : jsstring;
  user_count : number
}.

Record IDRegistryContent := {
  event_message : value;
  event_root : jsstring;
  event_count : number
}.

Inductive Content :=
| IDRegistry (c : IDRegistryContent)
| User (c : UserContent)
| ContactInfo (c : ContactInfoContent).

Record GossipMessage := {
  content : Content;
  topics : list jsstring
}.

Definition value_of_AddressInfo (a : AddressInfo) : value :=
  VObject [(lit "address", VString (address a));
           (lit "family", VString (family a));
           (lit "port", VNumber (port a))].

Definition value_of_Content (c : Content) : value :=
  match c with
  | IDRegistry c =>
      VObject [(lit "message", event_message c);
               (lit "root", VString (event_root c));
               (lit "count", VNumber (event_count c))]
  | User c =>
      VObject [(lit "message", user_message c);
               (lit "root", VString (user_root c));
               (lit "count", VNumber (user_count c))]
  | ContactInfo c =>
      VObject ((lit "peerId", VString (peerId c))
               :: match rpcAddress c with
                  | Some a => [(lit "rpcAddress", value_of_AddressInfo a)]
                  | None => []
                  end)
  end.

Definition value_of_GossipMessage (m : GossipMessage) : value :=
  VObject [(lit "content", value_of_Content (content m));
           (lit "topics", VArray (map VString (topics m)))].

(** *** The codec *)

(** neverthrow's [Result]. *)
Inductive Result (T E : Type) :=
| ok (t : T)
| err (e : E).
Arguments ok {T E} t.
Arguments err {T E} e.

(** [try { body } catch (error) { handler }]. *)
Definition try_catch {A} (body : outcome A) (handler : exn -> outcome A) : outcome A :=
  match body with
  | Returned a => Returned a
  | Thrown e => handler e
  end.

Definition bindO {A B} (o : outcome A) (k : A -> outcome B) : outcome B :=
  match o with
  | Returned a => k a
  | Thrown e => Thrown e
  end.

Section Codec.

(** The engine at the moment of the call, and the guard the codec
    imports. *)
Variable engine : Engine.
Variable isGossipMessage : value -> bool.

(** [JSON.stringify] is called outside any [try]: what it throws leaves
    [encodeMessage]. *)
Definition encodeMessage (message : value) : outcome (Result bytes string) :=
  if negb (isGossipMessage message) then Returned (err "Invalid Message"%string)
  else
    bindO (JSON_stringify engine message) (fun json =>
    Returned (ok (TextEncoder_encode json))).

(** The block under [try] of [decodeMessage]. *)
Definition decodeMessage_body (data : bytes) : outcome (Result value string) :=
  let json := TextDecoder_decode data in
  bindO (JSON_parse json) (fun message =>
    if negb (truthy message) || negb (isGossipMessage message)
    then Returned (err "Failed to decode Gossip message..."%string)
    else Returned (ok message)).

Definition decodeMessage (data : bytes) : outcome (Result value string) :=
  try_catch (decodeMessage_body data)
    (fun error => Returned (err "Failed to decode Gossip message..."%string)).

End Codec.

(** ** Predicates used by the statements *)

(** A string whose surrogates all come in pairs, high then low. *)
Inductive well_formed : jsstring -> Prop :=
| wf_nil : well_formed []
| wf_unit u s :
    is_code_unit u = true -> is_surrogate u = false ->
    well_formed s -> well_formed (u :: s)
| wf_pair h l s :
    is_high_surrogate h = true -> is_low_surrogate l = true ->
    well_formed s -> well_formed (h :: l :: s).

(** The text after a value inside JSON.stringify's output: nothing, a
    comma, or a closing bracket or brace. *)
Definition delimited (rest : jsstring) : Prop :=
  match rest with
  | [] => True
  | c :: _ => c = COMMA \/ c = RIGHT_BRACKET \/ c = RIGHT_BRACE
  end.

(** The Numbers JSON.stringify writes and JSON.parse reads back: zero and
    the finite ones.  NaN and the infinities are written null, and the
    sign of a negative zero is not written. *)
Definition json_number (x : number) : bool :=
  match x with
  | Zero false => true
  | Finite _ _ _ => binary64 x
  | _ => false
  end.

(** The text after a run of digits does not go on with a digit. *)
Definition no_digit_ahead (rest : jsstring) : Prop :=
  match rest with
  | [] => True
  | c :: _ => is_digit c = false
  end.

(** A text of ASCII characters only. *)
Definition ascii_text (s : jsstring) : Prop := Forall (fun u => 0 <= u < 128) s.

Fixpoint distinct_keys (keys : list jsstring) : bool :=
  match keys with
  | [] => true
  | k :: more => negb (existsb (jsstring_eqb k) more) && distinct_keys more
  end.

(** The values JSON.stringify writes without loss: no [undefined], every
    Number one that [json_number] admits; and, as on every value of the
    language, strings of 16-bit code units and objects without repeated
    keys. *)
Fixpoint json_value (v : value) : bool :=
  match v with
  | VUndefined => false
  | VNull => true
  | VBoolean _ => true
  | VNumber x => json_number x
  | VString s => forallb is_code_unit s
  | VArray elements => forallb json_value elements
  | VObject properties =>
      forallb (fun p => forallb is_code_unit (fst p) && json_value (snd p)) properties
      && distinct_keys (map fst properties)
  end.

(** The text of a value inside an array: null for [undefined]. *)
Definition text_of (v : value) : jsstring :=
  match SerializeJSONProperty v with
  | Some text => text
  | None => lit "null"
  end.

(** The text of a property. *)
Definition member_text (p : jsstring * value) : jsstring :=
  QuoteJSONString (fst p) ++ lit ":" ++ text_of (snd p).

(** The characters a JSON value can start with. *)
Definition value_start (c : Z) : bool :=
  (c =? LEFT_BRACE) || (c =? LEFT_BRACKET) || (c =? QUOTATION_MARK)
  || (c =? SMALL_T) || (c =? SMALL_F) || (c =? SMALL_N) || (c =? MINUS)
  || is_digit c.

(** A parsing result that leaves no more text than it was given. *)
Definition shrinks {A} (p : parsed A) (s : jsstring) : Prop :=
  match p with
  | Parsed _ rest => (List.length rest <= List.length s)%nat
  | _ => True
  end.

(** With fuel [f0] or more the parser reads [v] back from its text,
    whatever follows it. *)
Definition reads_back (v : value) (f0 : nat) : Prop :=
  forall fuel rest, (f0 <= fuel)%nat -> delimited rest ->
    parse_value fuel (text_of v ++ rest) = Parsed v rest.

(** The payload a typed content carries is of its declared shape. *)
Definition payload_ok (isMessage isIDRegistryEvent : value -> bool) (c : Content) : bool :=
  match c with
  | IDRegistry c => isIDRegistryEvent (event_message c)
  | User c => isMessage (user_message c)
  | ContactInfo _ => true
  end.

(** A typed envelope that JSON writes without loss: strings of code units,
    Numbers that [json_number] admits, a payload that is a JSON value. *)
Definition json_content (c : Content) : bool :=
  match c with
  | IDRegistry c =>
      json_value (event_message c) && forallb is_code_unit (event_root c)
      && json_number (event_count c)
  | User c =>
      json_value (user_message c) && forallb is_code_unit (user_root c)
      && json_number (user_count c)
  | ContactInfo c =>
      forallb is_code_unit (peerId c)
      && match rpcAddress c with
         | Some a =>
             forallb is_code_unit (address a) && forallb is_code_unit (family a)
             && json_number (port a)
         | None => true
         end
  end.

Definition json_envelope (m : GossipMessage) : bool :=
  json_content (content m) && forallb (forallb is_code_unit) (topics m).

(** A byte sequence the UTF-8 decoder reads without an error, so that the
    decoder in its fatal mode would accept it. *)
Fixpoint utf8_valid_from (st : utf8_state) (data : bytes) : bool :=
  match data with
  | [] => bytes_needed st =? 0
  | b :: rest =>
      match utf8_handler st b with
      | Continue st' => utf8_valid_from st' rest
      | Emit _ => utf8_valid_from utf8_initial rest
      | DecodeError | DecodeErrorRestore => false
      end
  end.

Definition is_valid_utf8 (data : bytes) : bool :=
  utf8_valid_from utf8_initial data.

(** *** What the decoder is to make of any bytes

    The rule of the Unicode Standard (3.9, U+FFFD substitution of maximal
    subparts) that the Encoding Standard follows, in terms of the encoder
    alone. *)

(** A well-formed sequence: the bytes of one scalar value. *)
Definition well_formed_sequence (s : bytes) : Prop :=
  exists c, is_scalar c = true /\ s = utf8_encode_code_point c.

(** The start of a sequence: bytes that a well-formed sequence begins with
    and goes on after. *)
Definition sequence_start (p : bytes) : Prop :=
  p <> [] /\ exists t, t <> [] /\ well_formed_sequence (p ++ t).

(** The part replaced at the head of [bad ++ rest], bytes that no
    well-formed sequence begins: the longest start of a sequence they
    begin with, or their first byte when there is none. *)
Definition replaced_part (bad rest : bytes) : Prop :=
  (forall s t, well_formed_sequence s -> bad ++ rest <> s ++ t)
  /\ (sequence_start bad \/ exists b, bad = [b] /\ ~ sequence_start [b])
  /\ (forall b rest', rest = b :: rest' -> ~ sequence_start (bad ++ [b])).

(** The code points bytes are read as: each well-formed sequence as its
    scalar value, each replaced part as U+FFFD. *)
Inductive reads : bytes -> list Z -> Prop :=
| reads_nil : reads [] []
| reads_scalar c rest cps :
    is_scalar c = true -> reads rest cps ->
    reads (utf8_encode_code_point c ++ rest) (c :: cps)
| reads_replaced bad rest cps :
    replaced_part bad rest -> reads rest cps ->
    reads (bad ++ rest) (REPLACEMENT :: cps).

(** ** Envelopes and byte sequences of the scenarios *)

(** ASCII text written with an apostrophe for each quotation mark; for
    ASCII the UTF-8 bytes are the code units. *)
Definition ascii_json (s : string) : jsstring :=
  map (fun c => if c =? 39 then QUOTATION_MARK else c) (lit s).

(** [{ content, topics }]. *)
Definition envelope (content : value) (topics : list value) : value :=
  VObject [(lit "content", content); (lit "topics", VArray topics)].

Definition topic (name : string) : value := VString (lit name).

(** [{ peerId }]. *)
Definition contact (peerId : string) : value :=
  VObject [(lit "peerId", VString (lit peerId))].

(** The envelopes of scenarios 1 and 2. *)
Definition contact_envelope : value :=
  envelope (contact "peer-42") [topic NETWORK_TOPIC_CONTACT].

Definition empty_content_envelope : value :=
  envelope (VObject []) [topic NETWORK_TOPIC_PRIMARY].

Definition contact_envelope_text : jsstring :=
  ascii_json "{'content':{'peerId':'peer-42'},'topics':['f_network_topic_contact']}".

(** An envelope without topics. *)
Definition no_topics_envelope : value := envelope (contact "p1") [].

(** The byte sequences of scenarios 3 and 4, and an object without content. *)
Definition not_json_bytes : bytes := ascii_json "not json".
Definition truncated_bytes : bytes := ascii_json "{'content':{'peerId':'p1'},'top".
Definition empty_topics_bytes : bytes :=
  ascii_json "{'content':{'peerId':'p1'},'topics':[]}".
Definition no_content_bytes : bytes := ascii_json "{'topics':['t']}".

(** A typed contact envelope whose port is NaN, and its value. *)
Definition nan_port_message (topic_name : string) : GossipMessage :=
  {| content :=
       ContactInfo
         {| peerId := lit "peer-42";
            rpcAddress :=
              Some {| address := lit "127.0.0.1"; family := lit "IPv4"; port := NaN |} |};
     topics := [lit topic_name] |}.

Definition nan_port_envelope : value :=
  value_of_GossipMessage (nan_port_message NETWORK_TOPIC_CONTACT).

(** The envelope the bytes of the former describe: the port is null. *)
Definition null_port (topic_name : string) : value :=
  envelope
    (VObject [(lit "peerId", VString (lit "peer-42"));
              (lit "rpcAddress",
               VObject [(lit "address", VString (lit "127.0.0.1"));
                        (lit "family", VString (lit "IPv4"));
                        (lit "port", VNull)])])
    [topic topic_name].

Definition null_port_envelope : value := null_port NETWORK_TOPIC_CONTACT.

Definition nan_port_bytes : bytes :=
  ascii_json
    "{'content':{'peerId':'peer-42','rpcAddress':{'address':'127.0.0.1','family':'IPv4','port':null}},'topics':['f_network_topic_contact']}".

(** The same on a topic that is not in the registry. *)
Definition unregistered_topic : string := "f_network_topic_custom".

Definition custom_topic_envelope : value :=
  envelope (contact "peer-42") [topic unregistered_topic].

Definition custom_topic_nan_envelope : value :=
  value_of_GossipMessage (nan_port_message unregistered_topic).

Definition custom_topic_null_envelope : value := null_port unregistered_topic.

(** On the same topic, a user envelope whose count is a negative zero,
    and a contact envelope whose rpcAddress is [undefined]. *)
Definition custom_topic_zero_envelope : value :=
  envelope
    (VObject [(lit "message", VObject [(lit "hash", VString (lit "0x1f"))]);
              (lit "root", VString (lit "0xabc"));
              (lit "count", VNumber (Zero true))])
    [topic unregistered_topic].

Definition custom_topic_undefined_envelope : value :=
  envelope
    (VObject [(lit "peerId", VString (lit "peer-42"));
              (lit "rpcAddress", VUndefined)])
    [topic unregistered_topic].

Definition custom_topic_nan_bytes : bytes :=
  ascii_json
    "{'content':{'peerId':'peer-42','rpcAddress':{'address':'127.0.0.1','family':'IPv4','port':null}},'topics':['f_network_topic_custom']}".

(** A contact envelope with the byte FF, which no UTF-8 sequence holds,
    inside the peerId; and the envelope with U+FFFD in its place. *)
Definition invalid_utf8_bytes : bytes :=
  ascii_json "{'content':{'peerId':'p" ++ [0xFF] ++ ascii_json "'},'topics':['t']}".

(** The same text with the three bytes of U+FFFD where FF stood: valid
    UTF-8. *)
Definition replaced_utf8_bytes : bytes :=
  ascii_json "{'content':{'peerId':'p" ++ [0xEF; 0xBF; 0xBD]
  ++ ascii_json "'},'topics':['t']}".

Definition replaced_envelope : value :=
  envelope (VObject [(lit "peerId", VString (lit "p" ++ [REPLACEMENT]))]) [topic "t"].

(** Payload guards for the examples: one that knows no payload, and one
    that takes any object with a string [hash]. *)
Definition no_payload (v : value) : bool := false.
Definition hashed_payload (v : value) : bool := isString (get v "hash").

(** A typed user envelope for [hashed_payload]: a message, root and
    count 3; and its value. *)
Definition user_message_example : GossipMessage :=
  {| content :=
       User {| user_message := VObject [(lit "hash", VString (lit "0x1f"))];
               user_root := lit "0xabc";
               user_count := Finite false [3] 1 |};
     topics := [lit NETWORK_TOPIC_PRIMARY] |}.

Definition user_envelope : value := value_of_GossipMessage user_message_example.

(** A guard that takes every value. *)
Definition any_value (v : value) : bool := true.

(** Texts that parse to falsy values: null, false, zero, a number too
    small for binary64, and the empty string. *)
Definition null_bytes : bytes := ascii_json "null".
Definition false_bytes : bytes := ascii_json "false".
Definition zero_bytes : bytes := ascii_json "0".
Definition tiny_bytes : bytes := ascii_json "1e-400".
Definition empty_string_bytes : bytes := ascii_json "''".

(** An engine with room for a thousand levels of nesting and for strings
    of 2^29 - 24 code units; and one with little of its stack left, room
    for two levels. *)
Definition roomy_engine : Engine := bounded_engine 1000 (2 ^ 29 - 24).
Definition cramped_engine : Engine := bounded_engine 2 (2 ^ 29 - 24).

(** ** Predicates of the codec's further properties *)

(** A Number of the language, NaN, the infinities and both zeros among
    them. *)
Definition proper_number (x : number) : bool := binary64 x.

(** A value of the language, [undefined], NaN, the infinities and negative
    zero among them: strings of 16-bit code units, Numbers that are proper,
    objects without repeated keys. *)
Fixpoint proper_value (v : value) : bool :=
  match v with
  | VNumber x => proper_number x
  | VString s => forallb is_code_unit s
  | VArray elements => forallb proper_value elements
  | VObject properties =>
      forallb (fun p => forallb is_code_unit (fst p) && proper_value (snd p)) properties
      && distinct_keys (map fst properties)
  | _ => true
  end.

(** What JSON.stringify keeps of a Number: NaN and the infinities are
    written null, and a negative zero loses its sign. *)
Definition written_number (x : number) : value :=
  match x with
  | NaN | Infinity _ => VNull
  | Zero _ => VNumber (Zero false)
  | Finite _ _ _ => VNumber x
  end.

(** What JSON.stringify keeps of a value inside an array or an object:
    [undefined] is written null in an array and left out of an object. *)
Fixpoint written (v : value) : value :=
  match v with
  | VUndefined => VNull
  | VNumber x => written_number x
  | VArray elements => VArray (map written elements)
  | VObject properties =>
      VObject (flat_map (fun p => match snd p with
                                  | VUndefined => []
                                  | _ => [(fst p, written (snd p))]
                                  end) properties)
  | _ => v
  end.

(** The three bytes of the UTF-8 byte order mark at the start. *)
Definition starts_with_bom (data : bytes) : bool :=
  match data with
  | b1 :: b2 :: b3 :: _ => (b1 =? 0xEF) && (b2 =? 0xBB) && (b3 =? 0xBF)
  | _ => false
  end.

(** The text after a number literal does not go on with it: no digit,
    point or exponent mark comes next. *)
Definition number_end (rest : jsstring) : Prop :=
  match rest with
  | [] => True
  | c :: _ =>
      is_digit c = false /\ c <> FULL_STOP /\ c <> SMALL_E /\ c <> CAPITAL_E
  end.

(** A parsing result with [more] put after the text it left. *)
Definition followed_by {A} (more : jsstring) (p : parsed A) : parsed A :=
  match p with
  | Parsed a rest => Parsed a (rest ++ more)
  | SyntaxError => SyntaxError
  | OutOfFuel => OutOfFuel
  end.

(** A byte a UTF-8 encoded JSON text holds outside its escapes: no
    control character, and none of the values UTF-8 never uses. *)
Definition is_text_byte (b : Z) : bool := (0x20 <=? b) && (b <=? 0xF4).

(** The text after the fraction of a number literal: no digit or point
    comes next. *)
Definition fraction_end (rest : jsstring) : Prop :=
  match rest with
  | [] => True
  | c :: _ => is_digit c = false /\ c <> FULL_STOP
  end.

(** A text without control characters. *)
Definition printable_text (s : jsstring) : Prop := Forall (fun u => 0x20 <= u) s.

(** ** Envelopes and byte sequences of the further properties *)

(** A typed user envelope whose count is negative zero, its value, the
    value with the sign dropped, and the bytes of both. *)
Definition zero_count_message (negative : bool) : GossipMessage :=
  {| content :=
       User {| user_message := VObject [(lit "hash", VString (lit "0x1f"))];
               user_root := lit "0xabc";
               user_count := Zero negative |};
     topics := [lit NETWORK_TOPIC_PRIMARY] |}.

Definition negative_zero_envelope : value :=
  value_of_GossipMessage (zero_count_message true).

Definition positive_zero_envelope : value :=
  value_of_GossipMessage (zero_count_message false).

Definition zero_count_bytes : bytes :=
  ascii_json
    "{'content':{'message':{'hash':'0x1f'},'root':'0xabc','count':0},'topics':['f_network_topic_primary']}".

(** The properties of the contact envelope of scenario 1. *)
Definition contact_envelope_properties : list (jsstring * value) :=
  [(lit "content", contact "peer-42");
   (lit "topics", VArray [topic NETWORK_TOPIC_CONTACT])].

(** The bytes of the contact envelope cut in two inside its topics. *)
Definition contact_envelope_head : bytes := firstn 40 contact_envelope_text.
Definition contact_envelope_tail : bytes := skipn 40 contact_envelope_text.

(** Line feeds and spaces; the byte order mark. *)
Definition blank_bytes : bytes := [LINE_FEED; SPACE; SPACE].
Definition bom_bytes : bytes := [0xEF; 0xBB; 0xBF].

(** The bytes of the user envelope with count 3. *)
Definition user_envelope_bytes : bytes :=
  ascii_json
    "{'content':{'message':{'hash':'0x1f'},'root':'0xabc','count':3},'topics':['f_network_topic_primary']}".

(** An ASCII character, as a byte or as a code unit. *)
Definition is_ascii (c : Z) : bool := (0 <=? c) && (c <? 128).

(** A Number JSON.parse can return: any but NaN. *)
Definition from_json_number (x : number) : bool :=
  match x with
  | NaN => false
  | _ => proper_number x
  end.

(** A value JSON.parse can return: no [undefined] and no NaN in it; and,
    as on every value of the language, strings of 16-bit code units,
    proper Numbers and objects without repeated keys. *)
Fixpoint from_json (v : value) : bool :=
  match v with
  | VUndefined => false
  | VNull => true
  | VBoolean _ => true
  | VNumber x => from_json_number x
  | VString s => forallb is_code_unit s
  | VArray elements => forallb from_json elements
  | VObject properties =>
      forallb (fun p => forallb is_code_unit (fst p) && from_json (snd p)) properties
      && distinct_keys (map fst properties)
  end.

(** The text of an object with the given members as they come: a key may
    be there more than once. *)
Definition object_text (members : list (jsstring * value)) : jsstring :=
  lit "{" ++ join (lit ",") (map member_text members) ++ lit "}".

(** Members with the key topics twice, and the object read from them. *)
Definition repeated_topics_members : list (jsstring * value) :=
  [(lit "topics", VArray [topic "first"]);
   (lit "content", contact "peer-42");
   (lit "topics", VArray [topic "second"])].

Definition repeated_topics_bytes : bytes :=
  ascii_json
    "{'topics':['first'],'content':{'peerId':'peer-42'},'topics':['second']}".

Definition repeated_topics_object : value :=
  VObject [(lit "topics", VArray [topic "second"]);
           (lit "content", contact "peer-42")].

(** The four shapes of a well-formed sequence (table 3-7 of the Unicode
    Standard). *)
Definition shape1 (s : bytes) : Prop := exists c, s = [c] /\ 0 <= c <= 0x7F.
Definition shape2 (s : bytes) : Prop :=
  exists a x, s = [a + 192; 128 + x] /\ 2 <= a < 32 /\ 0 <= x < 64.
Definition shape3 (s : bytes) : Prop :=
  exists a x y,
    s = [a + 224; 128 + x; 128 + y]
    /\ 0 <= a < 16 /\ 0 <= x < 64 /\ 0 <= y < 64
    /\ (a = 0 -> 32 <= x) /\ (a = 13 -> x < 32).
Definition shape4 (s : bytes) : Prop :=
  exists a x y z,
    s = [a + 240; 128 + x; 128 + y; 128 + z]
    /\ 0 <= a <= 4 /\ 0 <= x < 64 /\ 0 <= y < 64 /\ 0 <= z < 64
    /\ (a = 0 -> 16 <= x) /\ (a = 4 -> x < 16).

(** ** Tactics *)

Ltac bool_to_prop :=
  repeat match goal with
  | H : _ && _ = true |- _ => apply andb_true_iff in H; destruct H
  | H : _ || _ = false |- _ => apply orb_false_iff in H; destruct H
  | H : negb _ = true |- _ => apply negb_true_iff in H
  | H : negb _ = false |- _ => apply negb_false_iff in H
  | H : (_ <=? _) = true |- _ => apply Z.leb_le in H
  | H : (_ <=? _) = false |- _ => apply Z.leb_gt in H
  | H : (_ <? _) = true |- _ => apply Z.ltb_lt in H
  | H : (_ <? _) = false |- _ => apply Z.ltb_ge in H
  | H : (_ =? _) = true |- _ => apply Z.eqb_eq in H
  | H : (_ =? _) = false |- _ => apply Z.eqb_neq in H
  end.

(** Decide the comparisons of the goal from the linear facts at hand. *)
Ltac decide_tests :=
  repeat match goal with
  | |- context [?a <=? ?b] =>
      first [ replace (a <=? b) with true by (symmetry; apply Z.leb_le; lia)
            | replace (a <=? b) with false by (symmetry; apply Z.leb_gt; lia) ]
  | |- context [?a <? ?b] =>
      first [ replace (a <? b) with true by (symmetry; apply Z.ltb_lt; lia)
            | replace (a <? b) with false by (symmetry; apply Z.ltb_ge; lia) ]
  | |- context [?a =? ?b] =>
      first [ replace (a =? b) with true by (symmetry; apply Z.eqb_eq; lia)
            | replace (a =? b) with false by (symmetry; apply Z.eqb_neq; lia) ]
  end.

Ltac split_base64 x q r E B :=
  pose proof (Z.div_mod x 64 ltac:(lia)) as E;
  pose proof (Z.mod_pos_bound x 64 ltac:(lia)) as B;
  set (q := x / 64) in *; set (r := x mod 64) in *; clearbody q r.

Ltac handler_cases :=
  unfold utf8_handler, utf8_initial;
  cbn [bytes_needed bytes_seen code_point lower_boundary upper_boundary];
  once decide_tests; cbn [andb orb negb].

(** Replace the literals of the goal by their code units. *)
Ltac norm_lit :=
  repeat match goal with
  | |- context [lit ?s] =>
      let v := eval vm_compute in (lit s) in change (lit s) with v
  end.

Ltac replaced_then restore skipped rest' :=
  exists REPLACEMENT, skipped, rest';
  split; [reflexivity |];
  split; [first [reflexivity | now rewrite restore] |];
  right; split; [lia |]; split; [unfold REPLACEMENT; lia |];
  split; [repeat constructor; lia |];
  unfold REPLACEMENT, BOM; intros; lia.

Ltac flatten_app :=
  repeat first [rewrite <- app_assoc | progress cbn [app]].

Ltac scalar_by_range :=
  unfold is_scalar, is_surrogate;
  apply andb_true_iff; split;
  [apply andb_true_iff; split; apply Z.leb_le; lia
  | apply negb_true_iff, andb_false_iff;
    match goal with
    | |- (?lo <=? ?c) = false \/ _ =>
        destruct (Z_lt_dec c lo); [left | right]; apply Z.leb_gt; lia
    end].

(** The equations between the members of two equal lists. *)
Ltac list_eq E :=
  repeat match type of E with
         | ?a :: ?l = ?b :: ?m =>
             let H := fresh "Hhead" in
             let E' := fresh "Htail" in
             assert (H : a = b) by exact (f_equal (hd a) E);
             assert (E' : l = m) by exact (f_equal (@tl _) E);
             clear E; rename E' into E
         | [] = _ :: _ => discriminate E
         | _ :: _ = [] => discriminate E
         end.

Ltac by_shape shapes H :=
  apply shapes in H;
  destruct H as [(? & H & ?) | [(? & ? & H & ?)
               | [(? & ? & ? & H & ?) | (? & ? & ? & ? & H & ?)]]].

Ltac replaced_step taken rest' :=
  exists REPLACEMENT, taken, rest';
  split; [reflexivity |]; split; [discriminate |];
  split; [| right; split; [reflexivity |]].

Ltac scalar_step c taken rest' :=
  exists c, taken, rest';
  split; [reflexivity |]; split; [discriminate |];
  split; [| left].

(** * Text encoding: UTF-16 and UTF-8 *)

Lemma land_shifted_low a b n :
  0 <= n -> 0 <= b < 2 ^ n -> Z.land (a * 2 ^ n) b = 0.
Proof.
  intros Hn Hb. apply Z.bits_inj'. intros i Hi.
  rewrite Z.land_spec, Z.bits_0.
  destruct (Z.lt_ge_cases i n) as [Hlt | Hge].
  - rewrite Z.mul_pow2_bits_low by lia. reflexivity.
  - destruct (Z.eq_dec b 0) as [-> | Hb0].
    + rewrite Z.bits_0. apply andb_false_r.
    + rewrite (Z.bits_above_log2 b i); [apply andb_false_r | lia |].
      apply Z.log2_lt_pow2; [lia |].
      apply Z.lt_le_trans with (2 ^ n); [lia |].
      apply Z.pow_le_mono_r; lia.
Qed.

Lemma lor_shifted a b n :
  0 <= n -> 0 <= b < 2 ^ n -> Z.lor (a * 2 ^ n) b = a * 2 ^ n + b.
Proof.
  intros Hn Hb.
  rewrite <- (Z.add_lor_land (a * 2 ^ n) b), land_shifted_low by assumption.
  lia.
Qed.

Lemma lor_0x80 b : 0 <= b < 64 -> Z.lor 0x80 b = 128 + b.
Proof. intros Hb. apply (lor_shifted 2 b 6); lia. Qed.

Lemma lor_shiftl_6 a b :
  0 <= b < 64 -> Z.lor (Z.shiftl a 6) b = a * 64 + b.
Proof.
  intros Hb. rewrite Z.shiftl_mul_pow2 by lia. apply (lor_shifted a b 6); lia.
Qed.

Lemma land_0x3F x : Z.land x 0x3F = x mod 64.
Proof. change 0x3F with (Z.ones 6). rewrite Z.land_ones by lia. reflexivity. Qed.

Lemma land_0x1F x : Z.land x 0x1F = x mod 32.
Proof. change 0x1F with (Z.ones 5). rewrite Z.land_ones by lia. reflexivity. Qed.

Lemma land_0xF x : Z.land x 0xF = x mod 16.
Proof. change 0xF with (Z.ones 4). rewrite Z.land_ones by lia. reflexivity. Qed.

Lemma land_0x7 x : Z.land x 0x7 = x mod 8.
Proof. change 0x7 with (Z.ones 3). rewrite Z.land_ones by lia. reflexivity. Qed.

Lemma shiftr_6 x : Z.shiftr x 6 = x / 64.
Proof. rewrite Z.shiftr_div_pow2 by lia. reflexivity. Qed.

Lemma shiftr_12 x : Z.shiftr x 12 = x / 4096.
Proof. rewrite Z.shiftr_div_pow2 by lia. reflexivity. Qed.

Lemma shiftr_18 x : Z.shiftr x 18 = x / 262144.
Proof. rewrite Z.shiftr_div_pow2 by lia. reflexivity. Qed.

Lemma mod_add_multiple a k m : 0 <= a < m -> (a + k * m) mod m = a.
Proof. intros Ha. symmetry. apply (Z.mod_unique _ _ k); lia. Qed.

Lemma shiftr_12_nested x : Z.shiftr x 12 = x / 64 / 64.
Proof. rewrite shiftr_12, Z.div_div by lia. reflexivity. Qed.

Lemma shiftr_18_nested x : Z.shiftr x 18 = x / 64 / 64 / 64.
Proof. rewrite shiftr_18, !Z.div_div by lia. reflexivity. Qed.

(** The handler on the bytes the encoder writes. *)
Lemma utf8_handler_ascii b :
  0 <= b <= 0x7F -> utf8_handler utf8_initial b = Emit b.
Proof. intros Hb. handler_cases. reflexivity. Qed.

Lemma utf8_handler_lead2 a :
  2 <= a < 32 ->
  utf8_handler utf8_initial (a + 192) = Continue (mk_utf8_state a 0 1 0x80 0xBF).
Proof.
  intros Ha. handler_cases. rewrite land_0x1F.
  now rewrite (mod_add_multiple a 6 32 ltac:(lia) : (a + 192) mod 32 = a).
Qed.

Lemma utf8_handler_lead3 a :
  0 <= a < 16 ->
  utf8_handler utf8_initial (a + 224)
  = Continue (mk_utf8_state a 0 2 (if a =? 0 then 0xA0 else 0x80)
                (if a =? 13 then 0x9F else 0xBF)).
Proof.
  intros Ha. unfold utf8_handler, utf8_initial.
  cbn [bytes_needed bytes_seen code_point lower_boundary upper_boundary].
  replace (a + 224 =? 224) with (a =? 0)
    by (destruct (Z.eqb_spec a 0); symmetry; [apply Z.eqb_eq | apply Z.eqb_neq]; lia).
  replace (a + 224 =? 237) with (a =? 13)
    by (destruct (Z.eqb_spec a 13); symmetry; [apply Z.eqb_eq | apply Z.eqb_neq]; lia).
  replace (0 =? 0) with true by reflexivity.
  replace (0 <=? a + 224) with true by (symmetry; apply Z.leb_le; lia).
  replace (a + 224 <=? 127) with false by (symmetry; apply Z.leb_gt; lia).
  replace (194 <=? a + 224) with true by (symmetry; apply Z.leb_le; lia).
  replace (a + 224 <=? 223) with false by (symmetry; apply Z.leb_gt; lia).
  replace (224 <=? a + 224) with true by (symmetry; apply Z.leb_le; lia).
  replace (a + 224 <=? 239) with true by (symmetry; apply Z.leb_le; lia).
  cbn [andb]. rewrite land_0xF.
  now rewrite (mod_add_multiple a 14 16 ltac:(lia) : (a + 224) mod 16 = a).
Qed.

Lemma utf8_handler_lead4 a :
  0 <= a <= 4 ->
  utf8_handler utf8_initial (a + 240)
  = Continue (mk_utf8_state a 0 3 (if a =? 0 then 0x90 else 0x80)
                (if a =? 4 then 0x8F else 0xBF)).
Proof.
  intros Ha. unfold utf8_handler, utf8_initial.
  cbn [bytes_needed bytes_seen code_point lower_boundary upper_boundary].
  replace (a + 240 =? 240) with (a =? 0)
    by (destruct (Z.eqb_spec a 0); symmetry; [apply Z.eqb_eq | apply Z.eqb_neq]; lia).
  replace (a + 240 =? 244) with (a =? 4)
    by (destruct (Z.eqb_spec a 4); symmetry; [apply Z.eqb_eq | apply Z.eqb_neq]; lia).
  replace (0 =? 0) with true by reflexivity.
  replace (0 <=? a + 240) with true by (symmetry; apply Z.leb_le; lia).
  replace (a + 240 <=? 127) with false by (symmetry; apply Z.leb_gt; lia).
  replace (194 <=? a + 240) with true by (symmetry; apply Z.leb_le; lia).
  replace (a + 240 <=? 223) with false by (symmetry; apply Z.leb_gt; lia).
  replace (224 <=? a + 240) with true by (symmetry; apply Z.leb_le; lia).
  replace (a + 240 <=? 239) with false by (symmetry; apply Z.leb_gt; lia).
  replace (240 <=? a + 240) with true by (symmetry; apply Z.leb_le; lia).
  replace (a + 240 <=? 244) with true by (symmetry; apply Z.leb_le; lia).
  cbn [andb]. rewrite land_0x7.
  now rewrite (mod_add_multiple a 30 8 ltac:(lia) : (a + 240) mod 8 = a).
Qed.

Lemma utf8_handler_continuation cp seen needed lo hi b :
  needed <> 0 -> 0 <= b < 64 -> lo <= 128 + b <= hi ->
  utf8_handler (mk_utf8_state cp seen needed lo hi) (128 + b)
  = if seen + 1 =? needed then Emit (cp * 64 + b)
    else Continue (mk_utf8_state (cp * 64 + b) (seen + 1) needed 0x80 0xBF).
Proof.
  intros Hn Hb Hr. unfold utf8_handler.
  cbn [bytes_needed bytes_seen code_point lower_boundary upper_boundary].
  replace (needed =? 0) with false by (symmetry; apply Z.eqb_neq; lia).
  replace (128 + b <? lo) with false by (symmetry; apply Z.ltb_ge; lia).
  replace (hi <? 128 + b) with false by (symmetry; apply Z.ltb_ge; lia).
  cbn [orb]. rewrite land_0x3F.
  replace ((128 + b) mod 64) with b
    by (rewrite Z.add_comm; symmetry; apply (mod_add_multiple b 2 64); lia).
  rewrite lor_shiftl_6 by lia. reflexivity.
Qed.

Lemma utf8_decode_from_cons st b rest :
  utf8_decode_from st (b :: rest)
  = match utf8_handler st b with
    | Continue st' => utf8_decode_from st' rest
    | Emit cp => cp :: utf8_decode_from utf8_initial rest
    | DecodeError => REPLACEMENT :: utf8_decode_from utf8_initial rest
    | DecodeErrorRestore =>
        REPLACEMENT ::
        match utf8_handler utf8_initial b with
        | Continue st' => utf8_decode_from st' rest
        | Emit cp => cp :: utf8_decode_from utf8_initial rest
        | _ => REPLACEMENT :: utf8_decode_from utf8_initial rest
        end
    end.
Proof. reflexivity. Qed.

(** The decoder on the sequences of two, three and four bytes, written
    with the six-bit groups of the code point. *)
Lemma utf8_decode_two a b rest :
  2 <= a < 32 -> 0 <= b < 64 ->
  utf8_decode_from utf8_initial ((a + 192) :: (128 + b) :: rest)
  = (a * 64 + b) :: utf8_decode_from utf8_initial rest.
Proof.
  intros Ha Hb.
  rewrite utf8_decode_from_cons, utf8_handler_lead2 by lia.
  rewrite utf8_decode_from_cons, utf8_handler_continuation by lia.
  reflexivity.
Qed.

Lemma utf8_decode_three a b c rest :
  0 <= a < 16 -> 0 <= b < 64 -> 0 <= c < 64 ->
  (a = 0 -> 32 <= b) -> (a = 13 -> b < 32) ->
  utf8_decode_from utf8_initial ((a + 224) :: (128 + b) :: (128 + c) :: rest)
  = ((a * 64 + b) * 64 + c) :: utf8_decode_from utf8_initial rest.
Proof.
  intros Ha Hb Hc Hlow Hhigh.
  rewrite utf8_decode_from_cons, utf8_handler_lead3 by lia.
  rewrite utf8_decode_from_cons, utf8_handler_continuation;
    [| lia | lia
     | destruct (Z.eqb_spec a 0); destruct (Z.eqb_spec a 13); lia ].
  change (0 + 1 =? 2) with false; change (0 + 1 =? 3) with false;
  change (0 + 1 + 1 =? 3) with false; cbv iota.
  rewrite utf8_decode_from_cons, utf8_handler_continuation by lia.
  reflexivity.
Qed.

Lemma utf8_decode_four a b c d rest :
  0 <= a <= 4 -> 0 <= b < 64 -> 0 <= c < 64 -> 0 <= d < 64 ->
  (a = 0 -> 16 <= b) -> (a = 4 -> b < 16) ->
  utf8_decode_from utf8_initial
    ((a + 240) :: (128 + b) :: (128 + c) :: (128 + d) :: rest)
  = (((a * 64 + b) * 64 + c) * 64 + d) :: utf8_decode_from utf8_initial rest.
Proof.
  intros Ha Hb Hc Hd Hlow Hhigh.
  rewrite utf8_decode_from_cons, utf8_handler_lead4 by lia.
  rewrite utf8_decode_from_cons, utf8_handler_continuation;
    [| lia | lia
     | destruct (Z.eqb_spec a 0); destruct (Z.eqb_spec a 4); lia ].
  change (0 + 1 =? 2) with false; change (0 + 1 =? 3) with false;
  change (0 + 1 + 1 =? 3) with false; cbv iota.
  rewrite utf8_decode_from_cons, utf8_handler_continuation by lia.
  change (0 + 1 =? 2) with false; change (0 + 1 =? 3) with false;
  change (0 + 1 + 1 =? 3) with false; cbv iota.
  rewrite utf8_decode_from_cons, utf8_handler_continuation by lia.
  reflexivity.
Qed.

(** The decoder reads back what the encoder wrote for one scalar value. *)
Lemma utf8_decode_encode_code_point cp rest :
  is_scalar cp = true ->
  utf8_decode_from utf8_initial (utf8_encode_code_point cp ++ rest)
  = cp :: utf8_decode_from utf8_initial rest.
Proof.
  unfold is_scalar, is_surrogate. intros H.
  apply andb_true_iff in H. destruct H as [H Hs].
  apply negb_true_iff in Hs.
  assert (Hsur : cp < 0xD800 \/ 0xDFFF < cp)
    by (apply andb_false_iff in Hs; destruct Hs; bool_to_prop; lia).
  clear Hs. bool_to_prop.
  unfold utf8_encode_code_point.
  destruct (Z.leb_spec cp 0x7F) as [H1 | H1].
  { cbn [app]. rewrite utf8_decode_from_cons, utf8_handler_ascii by lia. reflexivity. }
  destruct (Z.leb_spec cp 0x7FF) as [H2 | H2].
  { rewrite shiftr_6, land_0x3F.
    split_base64 cp a b E B.
    rewrite lor_0x80 by lia. cbn [app].
    rewrite utf8_decode_two by lia. f_equal; lia. }
  destruct (Z.leb_spec cp 0xFFFF) as [H3 | H3].
  { rewrite shiftr_12_nested, shiftr_6, !land_0x3F.
    split_base64 cp q c E B.
    split_base64 q a b E' B'.
    rewrite !lor_0x80 by lia. cbn [app].
    rewrite utf8_decode_three by lia. f_equal; lia. }
  { rewrite shiftr_18_nested, shiftr_12_nested, shiftr_6, !land_0x3F.
    split_base64 cp q d E B.
    split_base64 q r c E' B'.
    split_base64 r a b E'' B''.
    rewrite !lor_0x80 by lia. cbn [app].
    rewrite utf8_decode_four by lia. f_equal; lia. }
Qed.

Lemma utf8_decode_encode cps :
  Forall (fun c => is_scalar c = true) cps ->
  utf8_decode (utf8_encode cps) = cps.
Proof.
  unfold utf8_decode, utf8_encode.
  induction 1 as [| cp cps Hcp _ IH]; [reflexivity |].
  cbn [flat_map]. rewrite utf8_decode_encode_code_point by assumption.
  now rewrite IH.
Qed.

(** *** UTF-16 *)

Lemma surrogate_split u :
  is_surrogate u = is_high_surrogate u || is_low_surrogate u.
Proof.
  unfold is_surrogate, is_high_surrogate, is_low_surrogate.
  destruct (Z.leb_spec 0xD800 u), (Z.leb_spec u 0xDFFF), (Z.leb_spec u 0xDBFF),
    (Z.leb_spec 0xDC00 u); cbn; try reflexivity; lia.
Qed.

Lemma to_scalars_unit u s :
  is_surrogate u = false -> to_scalars (u :: s) = u :: to_scalars s.
Proof.
  rewrite surrogate_split. intros H. apply orb_false_iff in H as [Hh Hl].
  cbn [to_scalars]. now rewrite Hh, Hl.
Qed.

Lemma to_scalars_pair h l s :
  is_high_surrogate h = true -> is_low_surrogate l = true ->
  to_scalars (h :: l :: s)
  = (0x10000 + (h - 0xD800) * 0x400 + (l - 0xDC00)) :: to_scalars s.
Proof. intros Hh Hl. cbn [to_scalars]. now rewrite Hh, Hl. Qed.

Lemma utf16_encode_pair h l :
  is_high_surrogate h = true -> is_low_surrogate l = true ->
  utf16_encode_code_point (0x10000 + (h - 0xD800) * 0x400 + (l - 0xDC00)) = [h; l].
Proof.
  unfold is_high_surrogate, is_low_surrogate, utf16_encode_code_point.
  intros Hh Hl. bool_to_prop.
  replace (_ <? 0x10000) with false by (symmetry; apply Z.ltb_ge; lia).
  replace (0x10000 + (h - 0xD800) * 0x400 + (l - 0xDC00) - 0x10000)
    with ((l - 0xDC00) + (h - 0xD800) * 0x400) by lia.
  rewrite Z.div_add, Z.mod_add by lia.
  rewrite Z.div_small, Z.mod_small by lia.
  f_equal; [lia | f_equal; lia].
Qed.

Lemma pair_is_scalar h l :
  is_high_surrogate h = true -> is_low_surrogate l = true ->
  is_scalar (0x10000 + (h - 0xD800) * 0x400 + (l - 0xDC00)) = true.
Proof.
  unfold is_high_surrogate, is_low_surrogate, is_scalar, is_surrogate.
  intros Hh Hl. bool_to_prop.
  apply andb_true_iff; split; [apply andb_true_iff; split |].
  - apply Z.leb_le; lia.
  - apply Z.leb_le; lia.
  - apply negb_true_iff, andb_false_iff. right. apply Z.leb_gt; lia.
Qed.

Lemma unit_is_scalar u :
  is_code_unit u = true -> is_surrogate u = false -> is_scalar u = true.
Proof.
  unfold is_code_unit, is_scalar. intros Hu Hs. rewrite Hs. bool_to_prop.
  apply andb_true_iff; split; [apply andb_true_iff; split |]; try reflexivity;
    apply Z.leb_le; lia.
Qed.

Lemma to_scalars_well_formed s :
  well_formed s -> Forall (fun c => is_scalar c = true) (to_scalars s).
Proof.
  induction 1 as [| u s Hu Hs _ IH | h l s Hh Hl _ IH].
  - constructor.
  - rewrite to_scalars_unit by assumption. constructor; auto using unit_is_scalar.
  - rewrite to_scalars_pair by assumption. constructor; auto using pair_is_scalar.
Qed.

Lemma utf16_encode_to_scalars s :
  well_formed s -> utf16_encode (to_scalars s) = s.
Proof.
  unfold utf16_encode.
  induction 1 as [| u s Hu Hs _ IH | h l s Hh Hl _ IH].
  - reflexivity.
  - rewrite to_scalars_unit by assumption. cbn [flat_map]. rewrite IH.
    unfold utf16_encode_code_point, is_code_unit in *. bool_to_prop.
    replace (u <? 0x10000) with true by (symmetry; apply Z.ltb_lt; lia).
    reflexivity.
  - rewrite to_scalars_pair by assumption. cbn [flat_map].
    rewrite IH, utf16_encode_pair by assumption. reflexivity.
Qed.

Lemma well_formed_app a b :
  well_formed a -> well_formed b -> well_formed (a ++ b).
Proof.
  induction 1; intros Hb; cbn [app]; auto using well_formed.
Qed.

(** No byte order mark is dropped from a text that does not start with one. *)
Lemma strip_bom_to_scalars s :
  hd 0 s <> BOM -> strip_bom (to_scalars s) = to_scalars s.
Proof.
  destruct s as [| u rest]; [reflexivity |]. cbn [hd]. intros Hu.
  cbn [to_scalars]. unfold strip_bom, BOM, REPLACEMENT in *.
  destruct (is_high_surrogate u) eqn:Hh.
  - unfold is_high_surrogate in Hh. bool_to_prop.
    destruct rest as [| l rest']; [reflexivity |].
    destruct (is_low_surrogate l) eqn:Hl; [| reflexivity].
    unfold is_low_surrogate in Hl. bool_to_prop.
    replace (_ =? 0xFEFF) with false by (symmetry; apply Z.eqb_neq; lia).
    reflexivity.
  - destruct (is_low_surrogate u); [reflexivity |].
    replace (u =? 0xFEFF) with false by (symmetry; apply Z.eqb_neq; lia).
    reflexivity.
Qed.

(** Decoding the bytes of an encoded text gives the text back, when its
    surrogates are paired and it does not start with a byte order mark. *)
Lemma TextDecoder_TextEncoder s :
  well_formed s -> hd 0 s <> BOM ->
  TextDecoder_decode (TextEncoder_encode (Some s)) = s.
Proof.
  intros Hwf Hbom. unfold TextDecoder_decode, TextEncoder_encode.
  rewrite utf8_decode_encode by now apply to_scalars_well_formed.
  rewrite strip_bom_to_scalars by assumption.
  now apply utf16_encode_to_scalars.
Qed.

(** *** The encoder writes octets *)

Lemma utf8_encode_code_point_bytes cp :
  is_scalar cp = true -> forallb is_byte (utf8_encode_code_point cp) = true.
Proof.
  unfold is_scalar. intros H. apply andb_true_iff in H as [H _]. bool_to_prop.
  assert (Hbyte : forall b, 0 <= b < 256 -> is_byte b = true).
  { intros b Hb. unfold is_byte. apply andb_true_iff.
    split; [apply Z.leb_le | apply Z.ltb_lt]; lia. }
  unfold utf8_encode_code_point.
  destruct (Z.leb_spec cp 0x7F) as [H1 | H1].
  { cbn [forallb]. rewrite Hbyte by lia. reflexivity. }
  destruct (Z.leb_spec cp 0x7FF) as [H2 | H2].
  { rewrite shiftr_6, land_0x3F.
    split_base64 cp a b E B.
    rewrite lor_0x80 by lia. cbn [forallb].
    rewrite !Hbyte by lia. reflexivity. }
  destruct (Z.leb_spec cp 0xFFFF) as [H3 | H3].
  { rewrite shiftr_12_nested, shiftr_6, !land_0x3F.
    split_base64 cp q c E B.
    split_base64 q a b E' B'.
    rewrite !lor_0x80 by lia. cbn [forallb].
    rewrite !Hbyte by lia. reflexivity. }
  { rewrite shiftr_18_nested, shiftr_12_nested, shiftr_6, !land_0x3F.
    split_base64 cp q d E B.
    split_base64 q r c E' B'.
    split_base64 r a b E'' B''.
    rewrite !lor_0x80 by lia. cbn [forallb].
    rewrite !Hbyte by lia. reflexivity. }
Qed.

Lemma utf8_encode_bytes cps :
  Forall (fun c => is_scalar c = true) cps ->
  forallb is_byte (utf8_encode cps) = true.
Proof.
  unfold utf8_encode. induction 1 as [| cp cps Hcp _ IH]; [reflexivity |].
  cbn [flat_map]. rewrite forallb_app, IH, utf8_encode_code_point_bytes by assumption.
  reflexivity.
Qed.

(** The bytes of a well-formed text are octets. *)
Lemma TextEncoder_encode_bytes s :
  well_formed s -> forallb is_byte (TextEncoder_encode (Some s)) = true.
Proof.
  intros Hs. unfold TextEncoder_encode.
  now apply utf8_encode_bytes, to_scalars_well_formed.
Qed.

(** *** What the encoder writes is valid UTF-8 *)

Lemma utf8_valid_from_cons st b rest :
  utf8_valid_from st (b :: rest)
  = match utf8_handler st b with
    | Continue st' => utf8_valid_from st' rest
    | Emit _ => utf8_valid_from utf8_initial rest
    | DecodeError | DecodeErrorRestore => false
    end.
Proof. reflexivity. Qed.

Lemma utf8_valid_encode_code_point cp rest :
  is_scalar cp = true ->
  utf8_valid_from utf8_initial (utf8_encode_code_point cp ++ rest)
  = utf8_valid_from utf8_initial rest.
Proof.
  unfold is_scalar, is_surrogate. intros H.
  apply andb_true_iff in H. destruct H as [H Hs].
  apply negb_true_iff in Hs.
  assert (Hsur : cp < 0xD800 \/ 0xDFFF < cp)
    by (apply andb_false_iff in Hs; destruct Hs; bool_to_prop; lia).
  clear Hs. bool_to_prop.
  unfold utf8_encode_code_point.
  destruct (Z.leb_spec cp 0x7F) as [H1 | H1].
  { cbn [app]. rewrite utf8_valid_from_cons, utf8_handler_ascii by lia. reflexivity. }
  destruct (Z.leb_spec cp 0x7FF) as [H2 | H2].
  { rewrite shiftr_6, land_0x3F.
    split_base64 cp a b E B.
    rewrite lor_0x80 by lia. cbn [app].
    rewrite utf8_valid_from_cons, utf8_handler_lead2 by lia.
    rewrite utf8_valid_from_cons, utf8_handler_continuation by lia.
    reflexivity. }
  destruct (Z.leb_spec cp 0xFFFF) as [H3 | H3].
  { rewrite shiftr_12_nested, shiftr_6, !land_0x3F.
    split_base64 cp q c E B.
    split_base64 q a b E' B'.
    rewrite !lor_0x80 by lia. cbn [app].
    rewrite utf8_valid_from_cons, utf8_handler_lead3 by lia.
    rewrite utf8_valid_from_cons, utf8_handler_continuation;
      [| lia | lia
       | destruct (Z.eqb_spec a 0); destruct (Z.eqb_spec a 13); lia ].
    change (0 + 1 =? 2) with false; cbv iota.
    rewrite utf8_valid_from_cons, utf8_handler_continuation by lia.
    reflexivity. }
  { rewrite shiftr_18_nested, shiftr_12_nested, shiftr_6, !land_0x3F.
    split_base64 cp q d E B.
    split_base64 q r c E' B'.
    split_base64 r a b E'' B''.
    rewrite !lor_0x80 by lia. cbn [app].
    rewrite utf8_valid_from_cons, utf8_handler_lead4 by lia.
    rewrite utf8_valid_from_cons, utf8_handler_continuation;
      [| lia | lia
       | destruct (Z.eqb_spec a 0); destruct (Z.eqb_spec a 4); lia ].
    change (0 + 1 =? 3) with false; cbv iota.
    rewrite utf8_valid_from_cons, utf8_handler_continuation by lia.
    change (0 + 1 + 1 =? 3) with false; cbv iota.
    rewrite utf8_valid_from_cons, utf8_handler_continuation by lia.
    reflexivity. }
Qed.

Lemma utf8_encode_valid cps :
  Forall (fun c => is_scalar c = true) cps ->
  is_valid_utf8 (utf8_encode cps) = true.
Proof.
  unfold is_valid_utf8, utf8_encode.
  induction 1 as [| cp cps Hcp _ IH]; [reflexivity |].
  cbn [flat_map]. now rewrite utf8_valid_encode_code_point.
Qed.

(** The bytes [TextEncoder] writes for a well-formed text are valid UTF-8. *)
Lemma TextEncoder_encode_valid s :
  well_formed s -> is_valid_utf8 (TextEncoder_encode (Some s)) = true.
Proof.
  intros Hs. unfold TextEncoder_encode.
  now apply utf8_encode_valid, to_scalars_well_formed.
Qed.

(** * JSON strings *)

Lemma hex_value_digit d : 0 <= d < 16 -> hex_value (hex_digit d) = Some d.
Proof.
  intros Hd. unfold hex_digit, hex_value.
  destruct (Z.ltb_spec d 10);
    repeat match goal with
    | |- context [?a <=? ?b] => destruct (Z.leb_spec a b); try lia
    end; cbn [andb]; f_equal; lia.
Qed.

Lemma hex4_unicode_escape u :
  is_code_unit u = true ->
  hex4 (hex_digit (u / 4096)) (hex_digit ((u / 256) mod 16))
       (hex_digit ((u / 16) mod 16)) (hex_digit (u mod 16)) = Some u.
Proof.
  unfold is_code_unit. intros Hu. bool_to_prop.
  replace (u / 4096) with (u / 16 / 16 / 16) by (rewrite !Z.div_div by lia; reflexivity).
  replace (u / 256) with (u / 16 / 16) by (rewrite !Z.div_div by lia; reflexivity).
  pose proof (Z.div_mod u 16 ltac:(lia)) as E1.
  pose proof (Z.mod_pos_bound u 16 ltac:(lia)) as B1.
  set (q1 := u / 16) in *. set (d := u mod 16) in *. clearbody q1 d.
  pose proof (Z.div_mod q1 16 ltac:(lia)) as E2.
  pose proof (Z.mod_pos_bound q1 16 ltac:(lia)) as B2.
  set (q2 := q1 / 16) in *. set (c := q1 mod 16) in *. clearbody q2 c.
  pose proof (Z.div_mod q2 16 ltac:(lia)) as E3.
  pose proof (Z.mod_pos_bound q2 16 ltac:(lia)) as B3.
  set (a := q2 / 16) in *. set (b := q2 mod 16) in *. clearbody a b.
  unfold hex4. rewrite !hex_value_digit by lia. f_equal. lia.
Qed.

Lemma escape_char_unescape u e :
  escape_char u = Some e -> (e =? 117) = false /\ unescape e = Some u.
Proof.
  unfold escape_char.
  repeat match goal with
  | |- context [u =? ?k] => destruct (Z.eqb_spec u k) as [-> | ?]
  end; intros E; inversion E; subst; split; reflexivity.
Qed.

Lemma escape_char_none u :
  escape_char u = None -> u <> 34 /\ u <> 92.
Proof.
  unfold escape_char.
  repeat match goal with
  | |- context [u =? ?k] => destruct (Z.eqb_spec u k) as [-> | ?]
  end; intros E; try discriminate E; split; assumption.
Qed.

Lemma parse_string_body_escape u s :
  is_code_unit u = true ->
  parse_string_body (unicode_escape u ++ s)
  = mapP (cons u) (parse_string_body s).
Proof.
  intros Hu. unfold unicode_escape. cbn [app parse_string_body].
  replace (92 =? 34) with false by reflexivity.
  replace (92 =? 92) with true by reflexivity.
  replace (117 =? 117) with true by reflexivity.
  now rewrite hex4_unicode_escape.
Qed.

Lemma parse_string_body_plain u s :
  0x20 <= u -> u <> 34 -> u <> 92 ->
  parse_string_body (u :: s) = mapP (cons u) (parse_string_body s).
Proof.
  intros H1 H2 H3. cbn [parse_string_body].
  replace (u =? 34) with false by (symmetry; apply Z.eqb_neq; lia).
  replace (u =? 92) with false by (symmetry; apply Z.eqb_neq; lia).
  replace (u <? 0x20) with false by (symmetry; apply Z.ltb_ge; lia).
  reflexivity.
Qed.

(** Induction on a string two code units at a time. *)
Lemma jsstring_pair_ind (P : list Z -> Prop) :
  P [] -> (forall u, P [u]) ->
  (forall u l s, P s -> P (l :: s) -> P (u :: l :: s)) ->
  forall s : list Z, P s.
Proof.
  intros H0 H1 H2 s.
  assert (H : P s /\ forall u, P (u :: s)).
  { induction s as [| l s [IH1 IH2]]; split; auto. }
  apply H.
Qed.

(** Reading back a quoted string. *)
Lemma parse_string_body_quote s rest :
  Forall (fun u => is_code_unit u = true) s ->
  parse_string_body (quote_body s ++ 34 :: rest) = Parsed s rest.
Proof.
  assert (Hcons : forall u t,
    is_code_unit u = true ->
    parse_string_body (quote_body t ++ 34 :: rest) = Parsed t rest ->
    (is_high_surrogate u = true ->
     match t with l :: _ => is_low_surrogate l = false | [] => True end) ->
    parse_string_body (quote_body (u :: t) ++ 34 :: rest) = Parsed (u :: t) rest).
  { intros u t Hu IH Hlone. cbn [quote_body].
    destruct (escape_char u) as [e |] eqn:He.
    - apply escape_char_unescape in He as [He1 He2].
      cbn [app parse_string_body].
      replace (92 =? 34) with false by reflexivity.
      replace (92 =? 92) with true by reflexivity.
      rewrite He1, He2, IH. reflexivity.
    - apply escape_char_none in He as [Hq Hb].
      destruct (Z.ltb_spec u 0x20) as [Hc | Hc].
      { rewrite <- app_assoc, parse_string_body_escape, IH by assumption. reflexivity. }
      destruct (is_high_surrogate u) eqn:Hh.
      { specialize (Hlone eq_refl). destruct t as [| l t'].
        - rewrite parse_string_body_escape by assumption.
          cbn [quote_body app] in IH. rewrite IH. reflexivity.
        - rewrite Hlone.
          rewrite <- app_assoc, parse_string_body_escape, IH by assumption. reflexivity. }
      destruct (is_low_surrogate u) eqn:Hl.
      { rewrite <- app_assoc, parse_string_body_escape, IH by assumption. reflexivity. }
      cbn [app]. rewrite parse_string_body_plain, IH by assumption. reflexivity. }
  induction s as [| u | u l s IHs IHls] using jsstring_pair_ind; intros Hs.
  - cbn. reflexivity.
  - inversion Hs; subst. apply Hcons; auto.
  - inversion Hs as [| ? ? Hu Hs']; subst. inversion Hs' as [| ? ? Hl Hs'']; subst.
    destruct (is_high_surrogate u && is_low_surrogate l) eqn:Hpair.
    + apply andb_true_iff in Hpair as [Hh Hlo].
      assert (Hun : escape_char u = None /\ (u <? 0x20) = false).
      { unfold is_high_surrogate in Hh. bool_to_prop. unfold escape_char.
        repeat match goal with
        | |- context [u =? ?k] => destruct (Z.eqb_spec u k) as [? | ?]; [lia |]
        end. split; [reflexivity | apply Z.ltb_ge; lia]. }
      destruct Hun as [Hue Huc].
      cbn [quote_body]. rewrite Hue, Huc, Hh, Hlo. cbn [app].
      unfold is_high_surrogate, is_low_surrogate in Hh, Hlo. bool_to_prop.
      rewrite !parse_string_body_plain by lia.
      rewrite IHs by assumption. reflexivity.
    + apply Hcons; auto.
      intros Hh. rewrite Hh in Hpair. exact Hpair.
Qed.

Lemma hex_digit_range d : 0 <= d < 16 -> 48 <= hex_digit d <= 102.
Proof. intros Hd. unfold hex_digit. destruct (Z.ltb_spec d 10); lia. Qed.

(** A text of code units below the surrogates is well formed. *)
Lemma well_formed_low s :
  Forall (fun u => 0 <= u < 0xD800) s -> well_formed s.
Proof.
  induction 1 as [| u s Hu _ IH]; constructor; auto.
  - unfold is_code_unit. apply andb_true_iff; split; [apply Z.leb_le | apply Z.ltb_lt]; lia.
  - unfold is_surrogate. apply andb_false_iff. left. apply Z.leb_gt. lia.
Qed.

Lemma well_formed_unicode_escape u :
  is_code_unit u = true -> well_formed (unicode_escape u).
Proof.
  unfold is_code_unit. intros Hu. bool_to_prop.
  apply well_formed_low. unfold unicode_escape.
  assert (0 <= u / 4096 < 16)
    by (split; [apply Z.div_pos | apply Z.div_lt_upper_bound]; lia).
  pose proof (hex_digit_range (u / 4096) ltac:(lia)).
  pose proof (hex_digit_range ((u / 256) mod 16) ltac:(apply Z.mod_pos_bound; lia)).
  pose proof (hex_digit_range ((u / 16) mod 16) ltac:(apply Z.mod_pos_bound; lia)).
  pose proof (hex_digit_range (u mod 16) ltac:(apply Z.mod_pos_bound; lia)).
  repeat constructor; lia.
Qed.

Lemma quote_body_cons u rest :
  quote_body (u :: rest)
  = match escape_char u with
    | Some e => 92 :: e :: quote_body rest
    | None =>
        if u <? 0x20 then unicode_escape u ++ quote_body rest
        else if is_high_surrogate u then
          match rest with
          | l :: rest' =>
              if is_low_surrogate l then u :: l :: quote_body rest'
              else unicode_escape u ++ quote_body rest
          | [] => unicode_escape u
          end
        else if is_low_surrogate u then unicode_escape u ++ quote_body rest
        else u :: quote_body rest
    end.
Proof. destruct rest; reflexivity. Qed.

Lemma well_formed_quote_body s :
  Forall (fun u => is_code_unit u = true) s -> well_formed (quote_body s).
Proof.
  assert (Hcons : forall u t,
    is_code_unit u = true -> well_formed (quote_body t) ->
    (is_high_surrogate u = true ->
     match t with l :: _ => is_low_surrogate l = false | [] => True end) ->
    well_formed (quote_body (u :: t))).
  { intros u t Hu IH Hlone. rewrite quote_body_cons.
    destruct (escape_char u) as [e |] eqn:He.
    { change (92 :: e :: quote_body t) with ([92; e] ++ quote_body t).
      apply well_formed_app; [| assumption].
      apply well_formed_low. unfold escape_char in He.
      repeat match type of He with
      | context [u =? ?k] => destruct (Z.eqb_spec u k) as [? | ?]
      end; inversion He; subst; repeat constructor; lia. }
    destruct (u <? 0x20);
      [apply well_formed_app; [now apply well_formed_unicode_escape | assumption] |].
    destruct (is_high_surrogate u) eqn:Hh.
    { specialize (Hlone eq_refl). destruct t as [| l t'].
      - now apply well_formed_unicode_escape.
      - rewrite Hlone.
        apply well_formed_app; [now apply well_formed_unicode_escape | assumption]. }
    destruct (is_low_surrogate u) eqn:Hl;
      [apply well_formed_app; [now apply well_formed_unicode_escape | assumption] |].
    constructor; [assumption | | assumption].
    rewrite surrogate_split, Hh, Hl. reflexivity. }
  induction s as [| u | u l s IHs IHls] using jsstring_pair_ind; intros Hs.
  - constructor.
  - inversion Hs; subst. apply Hcons; auto. constructor.
  - inversion Hs as [| ? ? Hu Hs']; subst. inversion Hs' as [| ? ? Hl Hs'']; subst.
    destruct (is_high_surrogate u && is_low_surrogate l) eqn:Hpair.
    + apply andb_true_iff in Hpair as [Hh Hlo].
      assert (Hun : escape_char u = None /\ (u <? 0x20) = false).
      { unfold is_high_surrogate in Hh. bool_to_prop. unfold escape_char.
        repeat match goal with
        | |- context [u =? ?k] => destruct (Z.eqb_spec u k) as [? | ?]; [lia |]
        end. split; [reflexivity | apply Z.ltb_ge; lia]. }
      destruct Hun as [Hue Huc].
      rewrite quote_body_cons, Hue, Huc, Hh, Hlo.
      apply wf_pair; auto.
    + apply Hcons; auto.
      intros Hh. rewrite Hh in Hpair. exact Hpair.
Qed.

Lemma well_formed_QuoteJSONString s :
  Forall (fun u => is_code_unit u = true) s -> well_formed (QuoteJSONString s).
Proof.
  intros Hs. unfold QuoteJSONString.
  change (34 :: quote_body s ++ [34]) with ([34] ++ quote_body s ++ [34]).
  repeat apply well_formed_app; try now apply well_formed_quote_body.
  all: apply well_formed_low; repeat constructor; lia.
Qed.

(** * Numbers *)

Lemma is_digit_digit_char d :
  is_decimal_digit d = true -> is_digit (digit_char d) = true.
Proof.
  unfold is_decimal_digit, is_digit, digit_char. intros H. bool_to_prop.
  apply andb_true_iff; split; apply Z.leb_le; lia.
Qed.

Lemma span_digits_chars ds rest :
  forallb is_decimal_digit ds = true -> no_digit_ahead rest ->
  span_digits (map digit_char ds ++ rest) = (ds, rest).
Proof.
  intros Hds Hrest. induction ds as [| d ds IH].
  - destruct rest as [| c rest]; [reflexivity |].
    cbn in *. now rewrite Hrest.
  - cbn [forallb] in Hds. apply andb_true_iff in Hds as [Hd Hds].
    cbn [map app span_digits]. rewrite is_digit_digit_char, IH by assumption.
    unfold digit_char. f_equal. f_equal. lia.
Qed.

Lemma digits_of_uint_decimal u :
  forallb is_decimal_digit (digits_of_uint u) = true.
Proof. induction u; cbn; auto. Qed.

Lemma uint_of_digits_of_uint u : uint_of_digits (digits_of_uint u) = u.
Proof. induction u; cbn; congruence. Qed.

Lemma decimal_value_digits e : 0 <= e -> decimal_value (decimal_digits e) = e.
Proof.
  intros He. unfold decimal_value, decimal_digits.
  rewrite uint_of_digits_of_uint, DecimalN.Unsigned.of_to. lia.
Qed.

Lemma decimal_digits_nonempty e : decimal_digits e <> [].
Proof.
  unfold decimal_digits. destruct (Z.to_N e) as [| p]; [discriminate |].
  cbn [N.to_uint]. pose proof (DecimalPos.Unsigned.to_uint_nonnil p) as Hp.
  destruct (Pos.to_uint p); [congruence | discriminate ..].
Qed.

(** *** Leading and trailing zeros *)

Lemma strip_zeros_repeat n ds : strip_zeros (repeat 0 n ++ ds) = strip_zeros ds.
Proof. induction n; cbn; auto. Qed.

Lemma strip_zeros_head ds : (hd 0 ds =? 0) = false -> strip_zeros ds = ds.
Proof. destruct ds as [| d r]; cbn; [reflexivity |]. now intros ->. Qed.

Lemma hd_rev_last (ds : list Z) : ds <> [] -> hd 0 (rev ds) = last ds 0.
Proof.
  intros Hne. rewrite (app_removelast_last 0 Hne) at 1.
  rewrite rev_app_distr. reflexivity.
Qed.

Lemma strip_trailing_zeros ds t :
  (last ds 0 =? 0) = false ->
  rev (strip_zeros (rev (ds ++ repeat 0 t))) = ds.
Proof.
  intros Hlast.
  assert (Hne : ds <> []) by (intros ->; discriminate Hlast).
  rewrite rev_app_distr, rev_repeat, strip_zeros_repeat.
  rewrite strip_zeros_head by now rewrite hd_rev_last.
  apply rev_involutive.
Qed.

Lemma canonical_digits_inv ds :
  canonical_digits ds = true ->
  forallb is_decimal_digit ds = true /\ (hd 0 ds =? 0) = false
  /\ (last ds 0 =? 0) = false /\ ds <> [].
Proof.
  unfold canonical_digits. intros H.
  apply andb_true_iff in H as [H Hlast]. apply andb_true_iff in H as [Hds Hhd].
  apply negb_true_iff in Hhd, Hlast.
  split; [assumption | split; [assumption | split; [assumption |]]].
  intros ->. discriminate.
Qed.

(** The Number a literal denotes when its digits are the canonical [ds]
    between [z] leading and [t] trailing zeros. *)
Lemma literal_value_canonical neg int frac e ds z t :
  canonical_digits ds = true ->
  int ++ frac = repeat 0 z ++ ds ++ repeat 0 t ->
  literal_value neg int frac e
  = Finite neg ds (Z.of_nat (List.length int) - Z.of_nat z + e).
Proof.
  intros Hds Hall. apply canonical_digits_inv in Hds as (_ & Hhd & Hlast & Hne).
  unfold literal_value. rewrite Hall, strip_zeros_repeat.
  assert (Hsig : strip_zeros (ds ++ repeat 0 t) = ds ++ repeat 0 t).
  { apply strip_zeros_head. destruct ds; [congruence | exact Hhd]. }
  rewrite Hsig, strip_trailing_zeros by assumption.
  destruct (ds ++ repeat 0 t) eqn:E.
  { destruct ds; [congruence | discriminate E]. }
  rewrite <- E. f_equal.
  rewrite (length_app (repeat 0 z)), repeat_length.
  rewrite Nat2Z.inj_add. lia.
Qed.

Lemma make_number_canonical neg int frac e ds z t n :
  canonical_digits ds = true ->
  int ++ frac = repeat 0 z ++ ds ++ repeat 0 t ->
  n = Z.of_nat (List.length int) - Z.of_nat z + e ->
  make_number neg int frac e = RoundMVResult (Finite neg ds n).
Proof.
  intros Hds Hall ->. unfold make_number.
  now rewrite (literal_value_canonical neg int frac e ds z t).
Qed.

Lemma jsstring_eqb_true a b : jsstring_eqb a b = true -> a = b.
Proof.
  revert b. induction a as [| x a IH]; intros [| y b]; cbn; try discriminate; auto.
  intros H. apply andb_true_iff in H as [Hx H]. apply Z.eqb_eq in Hx.
  now rewrite Hx, (IH b H).
Qed.

Lemma number_eqb_true x y : number_eqb x y = true -> x = y.
Proof.
  destruct x as [| a | a | a ds n], y as [| b | b | b ds' n']; cbn;
    try discriminate; auto.
  - intros H. now apply Bool.eqb_prop in H as ->.
  - intros H. now apply Bool.eqb_prop in H as ->.
  - intros H. apply andb_true_iff in H as [H Hn]. apply andb_true_iff in H as [Ha Hds].
    apply Bool.eqb_prop in Ha as ->. apply jsstring_eqb_true in Hds as ->.
    apply Z.eqb_eq in Hn as ->. reflexivity.
Qed.

(** A finite Number of the language: its digits are canonical, and
    rounding leaves it as it is. *)
Lemma binary64_inv neg ds n :
  binary64 (Finite neg ds n) = true ->
  canonical_digits ds = true /\ RoundMVResult (Finite neg ds n) = Finite neg ds n.
Proof.
  cbn [binary64]. intros H. apply andb_true_iff in H as [Hcan H].
  split; [exact Hcan | now apply number_eqb_true].
Qed.

(** *** The parts of a number literal *)

Lemma delimited_no_digit rest : delimited rest -> no_digit_ahead rest.
Proof.
  destruct rest as [| c rest]; cbn; [auto |].
  intros [-> | [-> | ->]]; reflexivity.
Qed.

Lemma parse_int_digits ds rest :
  forallb is_decimal_digit ds = true -> (hd 0 ds =? 0) = false -> ds <> [] ->
  no_digit_ahead rest ->
  parse_int (map digit_char ds ++ rest) = Parsed ds rest.
Proof.
  intros Hds Hhd Hne Hrest.
  pose proof (span_digits_chars ds rest Hds Hrest) as Hspan.
  destruct ds as [| d r]; [congruence |].
  cbn [hd] in Hhd. cbn [forallb] in Hds. apply andb_true_iff in Hds as [Hd _].
  cbn [map app] in *. unfold parse_int.
  rewrite is_digit_digit_char by assumption.
  replace (digit_char d =? 48) with false
    by (symmetry; apply Z.eqb_neq; apply Z.eqb_neq in Hhd; unfold digit_char; lia).
  now rewrite Hspan.
Qed.

Lemma parse_frac_none rest : delimited rest -> parse_frac rest = Parsed [] rest.
Proof.
  destruct rest as [| c rest]; cbn; [auto |].
  intros [-> | [-> | ->]]; reflexivity.
Qed.

Lemma parse_frac_digits ds rest :
  forallb is_decimal_digit ds = true -> ds <> [] -> no_digit_ahead rest ->
  parse_frac (46 :: map digit_char ds ++ rest) = Parsed ds rest.
Proof.
  intros Hds Hne Hrest. unfold parse_frac.
  replace (46 =? 46) with true by reflexivity.
  rewrite span_digits_chars by assumption.
  destruct ds; [congruence | reflexivity].
Qed.

Lemma parse_exp_none rest : delimited rest -> parse_exp rest = Parsed 0 rest.
Proof.
  destruct rest as [| c rest]; cbn; [auto |].
  intros [-> | [-> | ->]]; reflexivity.
Qed.

Lemma parse_exp_digits e rest :
  no_digit_ahead rest ->
  parse_exp (101 :: (if e <? 0 then 45 else 43)
               :: map digit_char (decimal_digits (Z.abs e)) ++ rest)
  = Parsed e rest.
Proof.
  intros Hrest. unfold parse_exp.
  replace ((101 =? 101) || (101 =? 69)) with true by reflexivity.
  pose proof (decimal_digits_nonempty (Z.abs e)) as Hne.
  pose proof (span_digits_chars (decimal_digits (Z.abs e)) rest
                (digits_of_uint_decimal _) Hrest) as Hspan.
  pose proof (decimal_value_digits (Z.abs e) (Z.abs_nonneg e)) as Hval.
  destruct (Z.ltb_spec e 0) as [He | He].
  - replace (45 =? 45) with true by reflexivity.
    rewrite Hspan. destruct (decimal_digits (Z.abs e)); [congruence |].
    rewrite Hval. f_equal. lia.
  - replace (43 =? 45) with false by reflexivity.
    replace (43 =? 43) with true by reflexivity.
    rewrite Hspan. destruct (decimal_digits (Z.abs e)); [congruence |].
    rewrite Hval. f_equal. lia.
Qed.

Lemma zeros_digits n : zeros n = map digit_char (repeat 0 (Z.to_nat n)).
Proof. unfold zeros. now rewrite map_repeat. Qed.

Lemma forallb_repeat_zero n : forallb is_decimal_digit (repeat 0 n) = true.
Proof. induction n; cbn; auto. Qed.

Lemma forallb_firstn {A} (f : A -> bool) n l :
  forallb f l = true -> forallb f (firstn n l) = true.
Proof.
  revert l. induction n; intros [| a l]; cbn; auto.
  intros H. apply andb_true_iff in H as [-> H]. cbn. auto.
Qed.

Lemma forallb_skipn {A} (f : A -> bool) n l :
  forallb f l = true -> forallb f (skipn n l) = true.
Proof.
  revert l. induction n; intros [| a l]; cbn; auto.
  intros H. apply andb_true_iff in H as [_ H]. auto.
Qed.

(** Reading back the digits Number::toString wrote. *)
Lemma parse_unsigned_digits neg ds n rest :
  canonical_digits ds = true -> delimited rest ->
  parse_unsigned neg (digits_toString ds n ++ rest)
  = Parsed (RoundMVResult (Finite neg ds n)) rest.
Proof.
  intros Hcan Hrest.
  pose proof (canonical_digits_inv ds Hcan) as (Hds & Hhd & Hlast & Hne).
  pose proof (delimited_no_digit rest Hrest) as Hnd.
  unfold digits_toString, parse_unsigned. norm_lit.
  set (k := Z.of_nat (List.length ds)).
  assert (Hk : 0 < k) by (destruct ds; [congruence | cbn in k; lia]).
  destruct ((-5 <=? n) && (n <=? 21)) eqn:Hrange.
  - destruct (Z.leb_spec k n) as [Hkn | Hkn]; [| destruct (Z.ltb_spec 0 n) as [Hn | Hn]].
    + (* digits followed by zeros *)
      rewrite zeros_digits, <- map_app.
      rewrite parse_int_digits; auto.
      2: now rewrite forallb_app, Hds, forallb_repeat_zero.
      2: destruct ds; [congruence | exact Hhd].
      2: destruct ds; [congruence | discriminate].
      cbn [bindP]. rewrite parse_frac_none by assumption.
      cbn [bindP]. rewrite parse_exp_none by assumption.
      cbn [bindP].
      rewrite (make_number_canonical neg _ [] 0 ds 0 (Z.to_nat (n - k)) n);
        [reflexivity | assumption | now rewrite app_nil_r |].
      rewrite length_app, repeat_length, Nat2Z.inj_add.
      fold k. lia.
    + (* a decimal point among the digits *)
      rewrite firstn_map, skipn_map, <- !app_assoc. cbn [app].
      assert (Hlen : (Z.to_nat n < List.length ds)%nat) by lia.
      rewrite parse_int_digits.
      2: now apply forallb_firstn.
      2: destruct ds; [congruence |]; destruct (Z.to_nat n) eqn:E; [lia | exact Hhd].
      2: destruct ds; [congruence |]; destruct (Z.to_nat n) eqn:E; [lia | discriminate].
      2: reflexivity.
      cbn [bindP]. rewrite parse_frac_digits.
      2: now apply forallb_skipn.
      2: { intros E. apply (f_equal (@List.length Z)) in E.
           rewrite length_skipn in E. cbn in E. lia. }
      2: assumption.
      cbn [bindP]. rewrite parse_exp_none by assumption.
      cbn [bindP].
      rewrite (make_number_canonical neg _ _ 0 ds 0 0 n);
        [reflexivity | assumption | rewrite firstn_skipn, app_nil_r; reflexivity |].
      rewrite length_firstn. lia.
    + (* zero point zeros digits *)
      cbn [app]. unfold parse_int. replace (48 =? 48) with true by reflexivity.
      cbn [bindP]. rewrite zeros_digits, <- map_app.
      rewrite parse_frac_digits.
      2: now rewrite forallb_app, forallb_repeat_zero, Hds.
      2: destruct (repeat 0 (Z.to_nat (- n))); destruct ds; [congruence | discriminate ..].
      2: assumption.
      cbn [bindP]. rewrite parse_exp_none by assumption.
      cbn [bindP].
      rewrite (make_number_canonical neg _ _ 0 ds (S (Z.to_nat (- n))) 0 n);
        [reflexivity | assumption | cbn [repeat app]; now rewrite app_nil_r |].
      apply andb_true_iff in Hrange as [H1 H2]. bool_to_prop.
      cbn [List.length]. lia.
  - (* exponent notation *)
    destruct ds as [| d more]; [congruence |].
    cbn [hd] in Hhd. cbn [forallb] in Hds. apply andb_true_iff in Hds as [Hd Hmore].
    cbn [map].
    assert (Hint : forall t, no_digit_ahead t ->
              parse_int (digit_char d :: t) = Parsed [d] t).
    { intros t Ht. apply (parse_int_digits [d] t); cbn; auto; try discriminate.
      now rewrite Hd. }
    destruct more as [| d2 more'].
    + cbn [map app]. rewrite Hint by reflexivity.
      cbn [bindP]. unfold parse_frac. replace (101 =? 46) with false by reflexivity.
      cbn [bindP].
      replace (if n - 1 <? 0 then [45] else [43])
        with [if n - 1 <? 0 then 45 else 43] by (destruct (n - 1 <? 0); reflexivity).
      cbn [app].
      rewrite parse_exp_digits by assumption.
      cbn [bindP].
      rewrite (make_number_canonical neg _ _ _ [d] 0 0 n);
        [reflexivity | assumption | reflexivity |].
      cbn [List.length]. lia.
    + cbn [map app]. rewrite Hint by reflexivity.
      cbn [bindP]. rewrite <- app_assoc, app_comm_cons.
      change (digit_char d2 :: map digit_char more')
        with (map digit_char (d2 :: more')).
      rewrite parse_frac_digits; [| assumption | discriminate | reflexivity].
      cbn [bindP].
      replace (if n - 1 <? 0 then [45] else [43])
        with [if n - 1 <? 0 then 45 else 43] by (destruct (n - 1 <? 0); reflexivity).
      cbn [app].
      rewrite parse_exp_digits by assumption.
      cbn [bindP].
      rewrite (make_number_canonical neg _ _ _ (d :: d2 :: more') 0 0 n);
        [reflexivity | assumption | cbn [repeat app]; now rewrite app_nil_r |].
      cbn [List.length]. lia.
Qed.

Lemma digits_toString_head ds n :
  canonical_digits ds = true ->
  exists c t, digits_toString ds n = c :: t /\ is_digit c = true.
Proof.
  intros Hcan.
  pose proof (canonical_digits_inv ds Hcan) as (Hds & Hhd & Hlast & Hne).
  destruct ds as [| d more]; [congruence |].
  cbn [forallb] in Hds. apply andb_true_iff in Hds as [Hd _].
  pose proof (is_digit_digit_char d Hd) as Hc.
  unfold digits_toString. norm_lit. cbn [map].
  destruct ((-5 <=? n) && (n <=? 21)).
  - destruct (Z.leb_spec (Z.of_nat (List.length (d :: more))) n);
      [| destruct (Z.ltb_spec 0 n)].
    + cbn [app]. eauto.
    + destruct (Z.to_nat n) eqn:E; [lia |]. cbn [firstn app]. eauto.
    + cbn [app]. eexists _, _. split; reflexivity.
  - destruct (map digit_char more); eauto.
Qed.

(** Reading back what Number::toString wrote for a Number JSON can write. *)
Lemma parse_number_toString x rest :
  json_number x = true -> delimited rest ->
  parse_number (Number_toString x ++ rest) = Parsed x rest.
Proof.
  intros Hx Hrest. destruct x as [| neg | neg | neg ds n]; try discriminate Hx.
  - destruct neg; [discriminate Hx |].
    cbn [Number_toString]. norm_lit. cbn [app].
    unfold parse_number, parse_sign, parse_unsigned, parse_int.
    replace (48 =? 45) with false by reflexivity.
    replace (48 =? 48) with true by reflexivity.
    cbn [bindP]. rewrite parse_frac_none by assumption.
    cbn [bindP]. rewrite parse_exp_none by assumption.
    reflexivity.
  - cbn [json_number] in Hx. apply binary64_inv in Hx as [Hx Hfix].
    cbn [Number_toString]. norm_lit.
    unfold parse_number. destruct neg.
    + cbn [app parse_sign]. replace (45 =? 45) with true by reflexivity.
      rewrite parse_unsigned_digits by assumption. now rewrite Hfix.
    + cbn [app].
      destruct (digits_toString_head ds n Hx) as (c & t & Htext & Hc).
      assert (Hsign : parse_sign (digits_toString ds n ++ rest)
                      = (false, digits_toString ds n ++ rest)).
      { rewrite Htext. cbn [app parse_sign].
        unfold is_digit in Hc. bool_to_prop.
        replace (c =? 45) with false by (symmetry; apply Z.eqb_neq; lia).
        reflexivity. }
      rewrite Hsign, parse_unsigned_digits by assumption. now rewrite Hfix.
Qed.

Lemma Number_toString_head x :
  json_number x = true ->
  exists c t, Number_toString x = c :: t /\ (c = 45 \/ is_digit c = true).
Proof.
  intros Hx. destruct x as [| neg | neg | neg ds n]; try discriminate Hx.
  - eexists _, _. split; [reflexivity | right; reflexivity].
  - cbn [json_number] in Hx. apply binary64_inv in Hx as [Hx _].
    cbn [Number_toString]. destruct neg.
    + eexists _, _. split; [reflexivity | left; reflexivity].
    + destruct (digits_toString_head ds n Hx) as (c & t & Htext & Hc).
      exists c, t. cbn [app]. auto.
Qed.

(** *** Number::toString writes ASCII *)

Lemma ascii_text_app a b : ascii_text a -> ascii_text b -> ascii_text (a ++ b).
Proof. unfold ascii_text. intros. apply Forall_app. auto. Qed.

Lemma ascii_text_digits ds :
  forallb is_decimal_digit ds = true -> ascii_text (map digit_char ds).
Proof.
  unfold ascii_text. intros Hds. apply Forall_map, Forall_forall.
  intros d Hd. rewrite forallb_forall in Hds. specialize (Hds d Hd).
  unfold is_decimal_digit, digit_char in *. bool_to_prop. lia.
Qed.

Lemma ascii_text_lit_char (c : Z) : 0 <= c < 128 -> ascii_text [c].
Proof. intros Hc. repeat constructor; lia. Qed.

Lemma ascii_text_digits_toString ds n :
  forallb is_decimal_digit ds = true -> ascii_text (digits_toString ds n).
Proof.
  intros Hds. unfold digits_toString. norm_lit.
  assert (Hz : forall m, ascii_text (zeros m)).
  { intros m. rewrite zeros_digits. apply ascii_text_digits, forallb_repeat_zero. }
  assert (He : ascii_text
            ([101] ++ (if n - 1 <? 0 then [45] else [43])
             ++ map digit_char (decimal_digits (Z.abs (n - 1))))).
  { repeat apply ascii_text_app.
    - apply ascii_text_lit_char; lia.
    - destruct (n - 1 <? 0); apply ascii_text_lit_char; lia.
    - apply ascii_text_digits, digits_of_uint_decimal. }
  destruct ((-5 <=? n) && (n <=? 21)).
  - destruct (_ <=? n); [| destruct (0 <? n)].
    + apply ascii_text_app; auto using ascii_text_digits.
    + rewrite firstn_map, skipn_map.
      repeat apply ascii_text_app;
        auto using ascii_text_digits, forallb_firstn, forallb_skipn.
      apply ascii_text_lit_char; lia.
    + repeat apply ascii_text_app; auto using ascii_text_digits.
      repeat constructor; lia.
  - pose proof (ascii_text_digits ds Hds) as Hs.
    destruct (map digit_char ds) as [| c [| c2 more]]; [exact He | |].
    + inversion Hs; subst. constructor; assumption.
    + inversion Hs as [| ? ? Hc Hs']; subst. constructor; [assumption |].
      apply ascii_text_app; [apply ascii_text_lit_char; lia |].
      apply ascii_text_app; [exact Hs' | exact He].
Qed.

Lemma ascii_text_Number_toString x :
  json_number x = true -> ascii_text (Number_toString x).
Proof.
  intros Hx. destruct x as [| neg | neg | neg ds n]; try discriminate Hx.
  - repeat constructor; cbn; lia.
  - cbn [json_number] in Hx. apply binary64_inv in Hx as [Hx _].
    apply canonical_digits_inv in Hx as (Hds & _).
    cbn [Number_toString]. apply ascii_text_app.
    + destruct neg; repeat constructor; cbn; lia.
    + now apply ascii_text_digits_toString.
Qed.

Lemma ascii_text_well_formed s : ascii_text s -> well_formed s.
Proof.
  intros Hs. apply well_formed_low. eapply Forall_impl; [| exact Hs].
  cbn. intros. lia.
Qed.

(** * The parser *)

(** Induction on values, with the hypothesis for every element of an array
    and every property value of an object. *)
Lemma value_ind (P : value -> Prop) :
  P VUndefined -> P VNull -> (forall b, P (VBoolean b)) ->
  (forall x, P (VNumber x)) -> (forall s, P (VString s)) ->
  (forall l, Forall P l -> P (VArray l)) ->
  (forall ps, Forall (fun p => P (snd p)) ps -> P (VObject ps)) ->
  forall v, P v.
Proof.
  intros Hu Hn Hb Hx Hs Ha Ho.
  fix IH 1. intros v. destruct v as [| | b | x | s | l | ps].
  - exact Hu.
  - exact Hn.
  - apply Hb.
  - apply Hx.
  - apply Hs.
  - apply Ha. induction l as [| v l IHl]; constructor; [apply IH | exact IHl].
  - apply Ho.
    induction ps as [| [k v] ps IHps]; constructor; [apply IH | exact IHps].
Qed.

Lemma parse_value_S fuel s :
  parse_value (S fuel) s
  = match skip_ws s with
    | [] => SyntaxError
    | c :: rest =>
        if c =? 123 then
          match skip_ws rest with
          | [] => SyntaxError
          | c' :: rest' =>
              if c' =? 125 then Parsed (VObject []) rest'
              else mapP (fun ms => VObject (obj_of_members ms))
                        (parse_members fuel (c' :: rest'))
          end
        else if c =? 91 then
          match skip_ws rest with
          | [] => SyntaxError
          | c' :: rest' =>
              if c' =? 93 then Parsed (VArray []) rest'
              else mapP VArray (parse_elements fuel (c' :: rest'))
          end
        else if c =? 34 then mapP VString (parse_string_body rest)
        else if c =? 116 then parse_literal "true" (VBoolean true) (c :: rest)
        else if c =? 102 then parse_literal "false" (VBoolean false) (c :: rest)
        else if c =? 110 then parse_literal "null" VNull (c :: rest)
        else mapP VNumber (parse_number (c :: rest))
    end.
Proof. reflexivity. Qed.

Lemma parse_elements_S fuel s :
  parse_elements (S fuel) s
  = bindP (parse_value fuel s) (fun v rest =>
      match skip_ws rest with
      | [] => SyntaxError
      | c :: rest' =>
          if c =? 44 then mapP (cons v) (parse_elements fuel rest')
          else if c =? 93 then Parsed [v] rest'
          else SyntaxError
      end).
Proof. reflexivity. Qed.

Lemma parse_members_S fuel s :
  parse_members (S fuel) s
  = match skip_ws s with
    | [] => SyntaxError
    | q :: rest0 =>
        if q =? 34 then
          bindP (parse_string_body rest0) (fun k rest1 =>
            match skip_ws rest1 with
            | [] => SyntaxError
            | colon :: rest2 =>
                if colon =? 58 then
                  bindP (parse_value fuel rest2) (fun v rest3 =>
                    match skip_ws rest3 with
                    | [] => SyntaxError
                    | c :: rest4 =>
                        if c =? 44 then mapP (cons (k, v)) (parse_members fuel rest4)
                        else if c =? 125 then Parsed [(k, v)] rest4
                        else SyntaxError
                    end)
                else SyntaxError
            end)
        else SyntaxError
    end.
Proof. reflexivity. Qed.

(** ** No parsing function gives back more text than it took *)

Lemma shrinks_mapP {A B} (f : A -> B) p s : shrinks p s -> shrinks (mapP f p) s.
Proof. destruct p; cbn; auto. Qed.

Lemma shrinks_bindP {A B} (p : parsed A) (k : A -> jsstring -> parsed B) s :
  shrinks p s ->
  (forall a r, (List.length r <= List.length s)%nat -> shrinks (k a r) s) ->
  shrinks (bindP p k) s.
Proof. destruct p; cbn; auto. Qed.

Lemma shrinks_weaken {A} (p : parsed A) s s' :
  (List.length s <= List.length s')%nat -> shrinks p s -> shrinks p s'.
Proof. destruct p; cbn; auto. lia. Qed.

Lemma skip_ws_length s : (List.length (skip_ws s) <= List.length s)%nat.
Proof.
  induction s as [| c s IH]; cbn; [lia |]. destruct (is_ws c); cbn; lia.
Qed.

Lemma span_digits_length s :
  (List.length (snd (span_digits s)) <= List.length s)%nat.
Proof.
  induction s as [| c s IH]; cbn; [lia |].
  destruct (is_digit c); cbn; [| lia].
  destruct (span_digits s); cbn in *. lia.
Qed.

Lemma expect_length w s r :
  expect w s = Some r -> (List.length r <= List.length s)%nat.
Proof.
  revert s. induction w as [| c w IH]; intros s; cbn.
  - intros E. inversion E. lia.
  - destruct s as [| c' s]; [discriminate |].
    destruct (c' =? c); [| discriminate]. intros E. apply IH in E. cbn. lia.
Qed.

Lemma shrinks_parse_literal {A} w (a : A) s : shrinks (parse_literal w a s) s.
Proof.
  unfold parse_literal. destruct (expect (lit w) s) eqn:E; cbn; auto.
  now apply expect_length in E.
Qed.

Lemma shrinks_parse_string_body s : shrinks (parse_string_body s) s.
Proof.
  assert (H : forall n s, (List.length s <= n)%nat -> shrinks (parse_string_body s) s).
  { clear s. induction n as [| n IH]; intros s Hn.
    - destruct s; [exact I | cbn in Hn; lia].
    - destruct s as [| c rest]; [exact I |]. cbn [parse_string_body].
      cbn [List.length] in Hn.
      destruct (c =? 34); [cbn; lia |].
      destruct (c =? 92).
      + destruct rest as [| e rest1]; [exact I |]. cbn [List.length] in Hn.
        destruct (e =? 117).
        * destruct rest1 as [| h1 [| h2 [| h3 [| h4 rest2]]]]; try exact I.
          destruct (hex4 h1 h2 h3 h4); [| exact I].
          apply shrinks_mapP. eapply shrinks_weaken; [| apply IH]; cbn in *; lia.
        * destruct (unescape e); [| exact I].
          apply shrinks_mapP. eapply shrinks_weaken; [| apply IH]; cbn in *; lia.
      + destruct (c <? 32); [exact I |].
        apply shrinks_mapP. eapply shrinks_weaken; [| apply IH]; cbn in *; lia. }
  now apply (H (List.length s)).
Qed.

Lemma shrinks_parse_number s : shrinks (parse_number s) s.
Proof.
  unfold parse_number.
  assert (Hsign : (List.length (snd (parse_sign s)) <= List.length s)%nat).
  { destruct s as [| c r]; cbn; [lia |]. destruct (c =? 45); cbn; lia. }
  destruct (parse_sign s) as [neg s1]. cbn [snd] in Hsign.
  eapply shrinks_weaken; [exact Hsign |].
  unfold parse_unsigned. apply shrinks_bindP.
  { unfold parse_int. destruct s1 as [| c r]; [exact I |].
    destruct (c =? 48); [cbn; lia |]. destruct (is_digit c); [| exact I].
    pose proof (span_digits_length (c :: r)).
    destruct (span_digits (c :: r)). assumption. }
  intros int s2 H2. apply shrinks_bindP.
  { eapply shrinks_weaken; [exact H2 |].
    unfold parse_frac. destruct s2 as [| c r]; [cbn; lia |].
    destruct (c =? 46); [| cbn; lia].
    pose proof (span_digits_length r).
    destruct (span_digits r) as [[| d ds] r']; [exact I |]. cbn in *. lia. }
  intros frac s3 H3. apply shrinks_bindP.
  { eapply shrinks_weaken; [exact H3 |].
    unfold parse_exp. destruct s3 as [| c r]; [cbn; lia |].
    destruct ((c =? 101) || (c =? 69)); [| cbn; lia].
    assert (Hs : forall r1, (List.length r1 <= List.length r)%nat ->
              shrinks (match span_digits r1 with
                       | ([], _) => SyntaxError
                       | (d :: ds, r2) => Parsed 0 r2
                       end) (c :: r)).
    { intros r1 Hr1. pose proof (span_digits_length r1).
      destruct (span_digits r1) as [[| d ds] r2]; [exact I |]. cbn in *. lia. }
    destruct r as [| c' r'].
    - cbn. exact I.
    - destruct (c' =? 45); [| destruct (c' =? 43)].
      + specialize (Hs r' ltac:(cbn; lia)).
        destruct (span_digits r') as [[| d ds] r2]; [exact I | exact Hs].
      + specialize (Hs r' ltac:(cbn; lia)).
        destruct (span_digits r') as [[| d ds] r2]; [exact I | exact Hs].
      + specialize (Hs (c' :: r') ltac:(cbn; lia)).
        destruct (span_digits (c' :: r')) as [[| d ds] r2]; [exact I | exact Hs]. }
  intros e s4 H4. cbn. exact H4.
Qed.

Lemma shrinks_parse :
  forall fuel,
    (forall s, shrinks (parse_value fuel s) s)
    /\ (forall s, shrinks (parse_elements fuel s) s)
    /\ (forall s, shrinks (parse_members fuel s) s).
Proof.
  induction fuel as [| fuel (IHv & IHe & IHm)];
    [repeat split; intros; exact I |].
  repeat split; intros s.
  - rewrite parse_value_S. pose proof (skip_ws_length s) as Hs.
    destruct (skip_ws s) as [| c rest]; [exact I |].
    eapply shrinks_weaken; [exact Hs |]. clear Hs.
    destruct (c =? 123); [| destruct (c =? 91); [| destruct (c =? 34)]].
    + pose proof (skip_ws_length rest) as Hr.
      destruct (skip_ws rest) as [| c' rest']; [exact I |].
      destruct (c' =? 125); [cbn in *; lia |].
      apply shrinks_mapP. eapply shrinks_weaken; [| apply IHm]. cbn in *; lia.
    + pose proof (skip_ws_length rest) as Hr.
      destruct (skip_ws rest) as [| c' rest']; [exact I |].
      destruct (c' =? 93); [cbn in *; lia |].
      apply shrinks_mapP. eapply shrinks_weaken; [| apply IHe]. cbn in *; lia.
    + apply shrinks_mapP. eapply shrinks_weaken; [| apply shrinks_parse_string_body].
      cbn; lia.
    + destruct (c =? 116); [apply shrinks_parse_literal |].
      destruct (c =? 102); [apply shrinks_parse_literal |].
      destruct (c =? 110); [apply shrinks_parse_literal |].
      apply shrinks_mapP, shrinks_parse_number.
  - rewrite parse_elements_S. apply shrinks_bindP; [apply IHv |].
    intros v rest Hrest. pose proof (skip_ws_length rest) as Hr.
    destruct (skip_ws rest) as [| c rest']; [exact I |].
    destruct (c =? 44); [| destruct (c =? 93); [cbn in *; lia | exact I]].
    apply shrinks_mapP. eapply shrinks_weaken; [| apply IHe]. cbn in *; lia.
  - rewrite parse_members_S. pose proof (skip_ws_length s) as Hs.
    destruct (skip_ws s) as [| q rest0]; [exact I |].
    destruct (q =? 34); [| exact I].
    apply shrinks_bindP.
    { eapply shrinks_weaken; [| apply shrinks_parse_string_body]. cbn in *; lia. }
    intros k rest1 H1. pose proof (skip_ws_length rest1) as Hr1.
    destruct (skip_ws rest1) as [| colon rest2]; [exact I |].
    destruct (colon =? 58); [| exact I].
    apply shrinks_bindP.
    { eapply shrinks_weaken; [| apply IHv]. cbn in *; lia. }
    intros v rest3 H3. pose proof (skip_ws_length rest3) as Hr3.
    destruct (skip_ws rest3) as [| c rest4]; [exact I |].
    destruct (c =? 44); [| destruct (c =? 125); [cbn in *; lia | exact I]].
    apply shrinks_mapP. eapply shrinks_weaken; [| apply IHm]. cbn in *; lia.
Qed.

(** ** Fuel *)

Lemma mapP_fueled {A B} (f : A -> B) p : mapP f p <> OutOfFuel <-> p <> OutOfFuel.
Proof. destruct p; cbn; split; congruence. Qed.

Lemma bindP_fueled {A B} (p : parsed A) (k : A -> jsstring -> parsed B) :
  p <> OutOfFuel ->
  (forall a r, p = Parsed a r -> k a r <> OutOfFuel) ->
  bindP p k <> OutOfFuel.
Proof. destruct p; cbn; intros Hp Hk; [now apply Hk | discriminate | congruence]. Qed.

Lemma bindP_fueled_inv {A B} (p : parsed A) (k : A -> jsstring -> parsed B) :
  bindP p k <> OutOfFuel -> p <> OutOfFuel.
Proof. destruct p; cbn; congruence. Qed.

Lemma parse_literal_fueled {A} w (a : A) s : parse_literal w a s <> OutOfFuel.
Proof. unfold parse_literal. destruct (expect (lit w) s); discriminate. Qed.

Lemma parse_string_body_fueled s : parse_string_body s <> OutOfFuel.
Proof.
  assert (H : forall n s, (List.length s <= n)%nat -> parse_string_body s <> OutOfFuel).
  { clear s. induction n as [| n IH]; intros s Hn.
    - destruct s; [discriminate | cbn in Hn; lia].
    - destruct s as [| c rest]; [discriminate |]. cbn [parse_string_body].
      cbn [List.length] in Hn.
      destruct (c =? 34); [discriminate |].
      destruct (c =? 92).
      + destruct rest as [| e rest1]; [discriminate |]. cbn [List.length] in Hn.
        destruct (e =? 117).
        * destruct rest1 as [| h1 [| h2 [| h3 [| h4 rest2]]]]; try discriminate.
          destruct (hex4 h1 h2 h3 h4); [| discriminate].
          apply mapP_fueled, IH. cbn in *; lia.
        * destruct (unescape e); [| discriminate].
          apply mapP_fueled, IH. cbn in *; lia.
      + destruct (c <? 32); [discriminate |].
        apply mapP_fueled, IH. cbn in *; lia. }
  now apply (H (List.length s)).
Qed.

Lemma parse_number_fueled s : parse_number s <> OutOfFuel.
Proof.
  unfold parse_number. destruct (parse_sign s) as [neg s1].
  unfold parse_unsigned. apply bindP_fueled.
  { unfold parse_int. destruct s1 as [| c r]; [discriminate |].
    destruct (c =? 48); [discriminate |]. destruct (is_digit c); [| discriminate].
    destruct (span_digits (c :: r)). discriminate. }
  intros int s2 _. apply bindP_fueled.
  { unfold parse_frac. destruct s2 as [| c r]; [discriminate |].
    destruct (c =? 46); [| discriminate].
    destruct (span_digits r) as [[| d ds] r']; discriminate. }
  intros frac s3 _. apply bindP_fueled.
  { unfold parse_exp. destruct s3 as [| c r]; [discriminate |].
    destruct ((c =? 101) || (c =? 69)); [| discriminate].
    destruct r as [| c' r'].
    - cbn. discriminate.
    - destruct (c' =? 45); [| destruct (c' =? 43)].
      + destruct (span_digits r') as [[| d ds] r2]; discriminate.
      + destruct (span_digits r') as [[| d ds] r2]; discriminate.
      + destruct (span_digits (c' :: r')) as [[| d ds] r2]; discriminate. }
  intros e s4 _. discriminate.
Qed.

(** Two units of fuel for every code unit are enough: no call runs out. *)
Lemma parse_fuel_enough :
  forall fuel,
    (forall s, (2 * List.length s + 1 <= fuel)%nat ->
               parse_value fuel s <> OutOfFuel)
    /\ (forall s, (2 * List.length s + 2 <= fuel)%nat ->
                  parse_elements fuel s <> OutOfFuel)
    /\ (forall s, (2 * List.length s + 2 <= fuel)%nat ->
                  parse_members fuel s <> OutOfFuel).
Proof.
  induction fuel as [| fuel (IHv & IHe & IHm)];
    [repeat split; intros; lia |].
  repeat split; intros s Hfuel.
  - rewrite parse_value_S. pose proof (skip_ws_length s) as Hs.
    destruct (skip_ws s) as [| c rest]; [discriminate |].
    destruct (c =? 123); [| destruct (c =? 91); [| destruct (c =? 34)]].
    + pose proof (skip_ws_length rest) as Hr.
      destruct (skip_ws rest) as [| c' rest']; [discriminate |].
      destruct (c' =? 125); [discriminate |].
      apply mapP_fueled, IHm. cbn [List.length] in *. lia.
    + pose proof (skip_ws_length rest) as Hr.
      destruct (skip_ws rest) as [| c' rest']; [discriminate |].
      destruct (c' =? 93); [discriminate |].
      apply mapP_fueled, IHe. cbn [List.length] in *. lia.
    + apply mapP_fueled, parse_string_body_fueled.
    + destruct (c =? 116); [apply parse_literal_fueled |].
      destruct (c =? 102); [apply parse_literal_fueled |].
      destruct (c =? 110); [apply parse_literal_fueled |].
      apply mapP_fueled, parse_number_fueled.
  - rewrite parse_elements_S. apply bindP_fueled; [apply IHv; lia |].
    intros v rest Hv.
    pose proof (proj1 (shrinks_parse fuel) s) as Hsh. rewrite Hv in Hsh. cbn in Hsh.
    pose proof (skip_ws_length rest) as Hr.
    destruct (skip_ws rest) as [| c rest']; [discriminate |].
    destruct (c =? 44); [| destruct (c =? 93); discriminate].
    apply mapP_fueled, IHe. cbn [List.length] in *. lia.
  - rewrite parse_members_S. pose proof (skip_ws_length s) as Hs.
    destruct (skip_ws s) as [| q rest0]; [discriminate |].
    destruct (q =? 34); [| discriminate].
    apply bindP_fueled; [apply parse_string_body_fueled |].
    intros k rest1 Hk.
    pose proof (shrinks_parse_string_body rest0) as H0. rewrite Hk in H0. cbn in H0.
    pose proof (skip_ws_length rest1) as Hr1.
    destruct (skip_ws rest1) as [| colon rest2]; [discriminate |].
    destruct (colon =? 58); [| discriminate].
    apply bindP_fueled; [apply IHv; cbn [List.length] in *; lia |].
    intros v rest3 Hv.
    pose proof (proj1 (shrinks_parse fuel) rest2) as Hsh. rewrite Hv in Hsh. cbn in Hsh.
    pose proof (skip_ws_length rest3) as Hr3.
    destruct (skip_ws rest3) as [| c rest4]; [discriminate |].
    destruct (c =? 44); [| destruct (c =? 125); discriminate].
    apply mapP_fueled, IHm. cbn [List.length] in *. lia.
Qed.

(** More fuel does not change a result reached without running out. *)
Lemma parse_fuel_step :
  forall fuel,
    (forall s, parse_value fuel s <> OutOfFuel ->
               parse_value (S fuel) s = parse_value fuel s)
    /\ (forall s, parse_elements fuel s <> OutOfFuel ->
                  parse_elements (S fuel) s = parse_elements fuel s)
    /\ (forall s, parse_members fuel s <> OutOfFuel ->
                  parse_members (S fuel) s = parse_members fuel s).
Proof.
  induction fuel as [| fuel (IHv & IHe & IHm)];
    [repeat split; intros s H; cbn in H; congruence |].
  repeat split; intros s.
  - rewrite (parse_value_S (S fuel)), (parse_value_S fuel).
    destruct (skip_ws s) as [| c rest]; [reflexivity |].
    destruct (c =? 123); [| destruct (c =? 91); [| reflexivity]].
    + destruct (skip_ws rest) as [| c' rest']; [reflexivity |].
      destruct (c' =? 125); [reflexivity |].
      intros H. apply mapP_fueled in H. now rewrite IHm.
    + destruct (skip_ws rest) as [| c' rest']; [reflexivity |].
      destruct (c' =? 93); [reflexivity |].
      intros H. apply mapP_fueled in H. now rewrite IHe.
  - rewrite (parse_elements_S (S fuel)), (parse_elements_S fuel).
    intros H. pose proof (bindP_fueled_inv _ _ H) as Hv.
    rewrite IHv by assumption.
    destruct (parse_value fuel s) as [v rest | |]; [| reflexivity | reflexivity].
    cbn [bindP] in *.
    destruct (skip_ws rest) as [| c rest']; [reflexivity |].
    destruct (c =? 44); [| reflexivity].
    apply mapP_fueled in H. now rewrite IHe.
  - rewrite (parse_members_S (S fuel)), (parse_members_S fuel).
    destruct (skip_ws s) as [| q rest0]; [reflexivity |].
    destruct (q =? 34); [| reflexivity].
    destruct (parse_string_body rest0) as [k rest1 | |]; [| reflexivity | reflexivity].
    cbn [bindP].
    destruct (skip_ws rest1) as [| colon rest2]; [reflexivity |].
    destruct (colon =? 58); [| reflexivity].
    intros H. pose proof (bindP_fueled_inv _ _ H) as Hv.
    rewrite IHv by assumption.
    destruct (parse_value fuel rest2) as [v rest3 | |]; [| reflexivity | reflexivity].
    cbn [bindP] in *.
    destruct (skip_ws rest3) as [| c rest4]; [reflexivity |].
    destruct (c =? 44); [| reflexivity].
    apply mapP_fueled in H. now rewrite IHm.
Qed.

Lemma parse_value_more_fuel fuel fuel' s :
  (fuel <= fuel')%nat -> parse_value fuel s <> OutOfFuel ->
  parse_value fuel' s = parse_value fuel s.
Proof.
  intros Hle Hf. induction Hle as [| fuel' _ IH]; [reflexivity |].
  rewrite <- IH. apply parse_fuel_step. now rewrite IH.
Qed.

(** The fuel [JSON_parse] starts with is enough for its text. *)
Lemma JSON_parse_fuel text : parse_value (parse_fuel text) text <> OutOfFuel.
Proof. apply parse_fuel_enough. unfold parse_fuel. lia. Qed.

(** * JSON.parse reads back what JSON.stringify wrote *)

Lemma jsstring_eqb_eq a b : jsstring_eqb a b = true <-> a = b.
Proof.
  revert b. induction a as [| x a IH]; intros [| y b]; cbn; split;
    try congruence; try discriminate; auto.
  - intros H. apply andb_true_iff in H as [Hx Hab].
    apply Z.eqb_eq in Hx. apply IH in Hab. congruence.
  - intros E. inversion E; subst. apply andb_true_iff. split.
    + apply Z.eqb_refl.
    + now apply IH.
Qed.

Lemma existsb_jsstring_eqb k keys :
  existsb (jsstring_eqb k) keys = true <-> In k keys.
Proof.
  rewrite existsb_exists. split.
  - intros (x & Hx & E). apply jsstring_eqb_eq in E. now subst.
  - intros H. exists k. split; [assumption | now apply jsstring_eqb_eq].
Qed.

Lemma distinct_keys_NoDup keys : distinct_keys keys = true <-> NoDup keys.
Proof.
  induction keys as [| k keys IH]; cbn.
  - split; [constructor | reflexivity].
  - rewrite andb_true_iff, negb_true_iff, IH. split.
    + intros [Hk Hnd]. constructor; [| assumption].
      intros Hin. apply existsb_jsstring_eqb in Hin. congruence.
    + intros H. inversion H as [| ? ? Hk Hnd]; subst. split; [| assumption].
      destruct (existsb (jsstring_eqb k) keys) eqn:E; [| reflexivity].
      apply existsb_jsstring_eqb in E. contradiction.
Qed.

Lemma obj_set_fresh k v ps :
  ~ In k (map fst ps) -> obj_set k v ps = ps ++ [(k, v)].
Proof.
  induction ps as [| [k' v'] ps IH]; cbn; [reflexivity |].
  intros Hk. destruct (jsstring_eqb k k') eqn:E.
  - apply jsstring_eqb_eq in E. subst. tauto.
  - rewrite IH by tauto. reflexivity.
Qed.

Lemma fold_obj_set ms acc :
  NoDup (map fst (acc ++ ms)) ->
  fold_left (fun o m => obj_set (fst m) (snd m) o) ms acc = acc ++ ms.
Proof.
  revert acc. induction ms as [| [k v] ms IH]; intros acc Hnd; cbn [fold_left].
  - now rewrite app_nil_r.
  - cbn [fst snd]. rewrite obj_set_fresh.
    + rewrite IH; rewrite <- app_assoc; [reflexivity | exact Hnd].
    + rewrite map_app in Hnd. cbn [map fst] in Hnd.
      apply NoDup_remove_2 in Hnd. intros Hin. apply Hnd.
      apply in_or_app. now left.
Qed.

(** Members with distinct keys make the object that lists them in order. *)
Lemma obj_of_members_distinct ps :
  distinct_keys (map fst ps) = true -> obj_of_members ps = ps.
Proof.
  intros H. apply distinct_keys_NoDup in H.
  unfold obj_of_members. now rewrite fold_obj_set.
Qed.

(** ** The shape of the text *)

Lemma text_of_json v :
  json_value v = true -> SerializeJSONProperty v = Some (text_of v).
Proof.
  intros Hv. unfold text_of.
  destruct (SerializeJSONProperty v) eqn:E; [reflexivity |].
  destruct v; discriminate.
Qed.

Lemma text_of_array l :
  text_of (VArray l) = 91 :: join [44] (map text_of l) ++ [93].
Proof. reflexivity. Qed.

Lemma text_of_object ps :
  forallb (fun p => json_value (snd p)) ps = true ->
  text_of (VObject ps) = 123 :: join [44] (map member_text ps) ++ [125].
Proof.
  intros Hps. unfold text_of. cbn [SerializeJSONProperty]. norm_lit. cbn [app].
  do 3 f_equal.
  induction ps as [| [k v] ps IH]; [reflexivity |].
  cbn [forallb snd] in Hps. apply andb_true_iff in Hps as [Hv Hps].
  cbn [flat_map map fst snd]. rewrite IH by assumption.
  unfold member_text at 1. cbn [fst snd]. rewrite (text_of_json v Hv).
  reflexivity.
Qed.

Lemma value_start_not_ws c : value_start c = true -> is_ws c = false.
Proof.
  unfold value_start, is_ws, is_digit. intros H.
  repeat (apply orb_true_iff in H; destruct H as [H | H]);
    bool_to_prop; subst; try reflexivity.
  repeat (apply orb_false_iff; split); apply Z.eqb_neq; lia.
Qed.

Lemma value_start_not_closing c :
  value_start c = true -> (c =? 93) = false /\ (c =? 125) = false.
Proof.
  unfold value_start, is_digit. intros H.
  repeat (apply orb_true_iff in H; destruct H as [H | H]);
    bool_to_prop; subst; try (split; reflexivity).
  split; apply Z.eqb_neq; lia.
Qed.

Lemma text_of_head v :
  json_value v = true ->
  exists c t, text_of v = c :: t /\ value_start c = true.
Proof.
  intros Hv. destruct v as [| | b | x | s | l | ps]; try discriminate Hv.
  - eexists _, _. split; reflexivity.
  - destruct b; eexists _, _; split; reflexivity.
  - cbn [json_value] in Hv. unfold text_of. cbn [SerializeJSONProperty].
    assert (Hfin : is_finite x = true) by (destruct x; try discriminate; reflexivity).
    rewrite Hfin.
    destruct (Number_toString_head x Hv) as (c & t & E & Hc).
    exists c, t. split; [assumption |]. unfold value_start.
    destruct Hc as [-> | Hc]; [reflexivity |].
    rewrite Hc. now rewrite !orb_true_r.
  - eexists _, _. split; reflexivity.
  - rewrite text_of_array. eexists _, _. split; reflexivity.
  - cbn [json_value] in Hv. apply andb_true_iff in Hv as [Hv _].
    rewrite text_of_object.
    + eexists _, _. split; reflexivity.
    + rewrite forallb_forall in *. intros p Hp. specialize (Hv p Hp).
      now apply andb_true_iff in Hv as [_ Hv].
Qed.

Lemma skip_ws_cons c s : is_ws c = false -> skip_ws (c :: s) = c :: s.
Proof. intros H. cbn [skip_ws]. now rewrite H. Qed.

Lemma skip_ws_text_of v rest :
  json_value v = true -> skip_ws (text_of v ++ rest) = text_of v ++ rest.
Proof.
  intros Hv. destruct (text_of_head v Hv) as (c & t & -> & Hc).
  cbn [app]. now apply skip_ws_cons, value_start_not_ws.
Qed.

(** ** Reading back *)

Lemma parse_elements_texts l :
  l <> [] ->
  Forall (fun v => json_value v = true /\ exists f0, reads_back v f0) l ->
  exists f0, forall fuel rest, (f0 <= fuel)%nat ->
    parse_elements fuel (join [44] (map text_of l) ++ 93 :: rest) = Parsed l rest.
Proof.
  intros Hne Hl. induction Hl as [| v l (Hv & f0v & Hread) Hl IH]; [congruence |].
  destruct l as [| v2 l'].
  - exists (S f0v). intros fuel rest Hfuel.
    destruct fuel as [| fuel]; [lia |].
    rewrite parse_elements_S. cbn [map join].
    rewrite Hread by (cbn; auto; lia). cbn [bindP].
    rewrite skip_ws_cons by reflexivity. reflexivity.
  - destruct (IH ltac:(discriminate)) as (f0l & Hrest).
    exists (S (Nat.max f0v f0l)). intros fuel rest Hfuel.
    destruct fuel as [| fuel]; [lia |].
    rewrite parse_elements_S.
    change (join [44] (map text_of (v :: v2 :: l')))
      with (text_of v ++ [44] ++ join [44] (map text_of (v2 :: l'))).
    rewrite <- !app_assoc. cbn [app].
    rewrite Hread by (cbn; auto; lia). cbn [bindP].
    rewrite skip_ws_cons by reflexivity.
    replace (44 =? 44) with true by reflexivity.
    rewrite Hrest by lia. reflexivity.
Qed.

Lemma member_text_app p rest :
  member_text p ++ rest
  = 34 :: quote_body (fst p) ++ 34 :: 58 :: text_of (snd p) ++ rest.
Proof.
  unfold member_text, QuoteJSONString. norm_lit.
  cbn [app]. rewrite <- !app_assoc. reflexivity.
Qed.

Lemma parse_members_texts ps :
  ps <> [] ->
  Forall (fun p => forallb is_code_unit (fst p) = true
                   /\ json_value (snd p) = true
                   /\ exists f0, reads_back (snd p) f0) ps ->
  exists f0, forall fuel rest, (f0 <= fuel)%nat ->
    parse_members fuel (join [44] (map member_text ps) ++ 125 :: rest)
    = Parsed ps rest.
Proof.
  intros Hne Hps.
  induction Hps as [| [k v] ps (Hk & Hv & f0v & Hread) Hps IH]; [congruence |].
  cbn [fst snd] in *.
  assert (Hkey : forall rest,
            parse_string_body (quote_body k ++ 34 :: rest) = Parsed k rest).
  { intros rest. apply parse_string_body_quote.
    apply Forall_forall. now apply forallb_forall. }
  destruct ps as [| p2 ps'].
  - exists (S f0v). intros fuel rest Hfuel.
    destruct fuel as [| fuel]; [lia |].
    rewrite parse_members_S. cbn [map join].
    rewrite member_text_app. cbn [fst snd].
    rewrite skip_ws_cons by reflexivity.
    replace (34 =? 34) with true by reflexivity.
    rewrite Hkey. cbn [bindP].
    rewrite skip_ws_cons by reflexivity.
    replace (58 =? 58) with true by reflexivity.
    rewrite Hread by (cbn; auto; lia). cbn [bindP].
    rewrite skip_ws_cons by reflexivity. reflexivity.
  - destruct (IH ltac:(discriminate)) as (f0l & Hrest).
    exists (S (Nat.max f0v f0l)). intros fuel rest Hfuel.
    destruct fuel as [| fuel]; [lia |].
    rewrite parse_members_S.
    change (join [44] (map member_text ((k, v) :: p2 :: ps')))
      with (member_text (k, v) ++ [44] ++ join [44] (map member_text (p2 :: ps'))).
    rewrite <- !app_assoc. rewrite member_text_app. cbn [fst snd app].
    rewrite skip_ws_cons by reflexivity.
    replace (34 =? 34) with true by reflexivity.
    rewrite Hkey. cbn [bindP].
    rewrite skip_ws_cons by reflexivity.
    replace (58 =? 58) with true by reflexivity.
    rewrite Hread by (cbn; auto; lia). cbn [bindP].
    rewrite skip_ws_cons by reflexivity.
    replace (44 =? 44) with true by reflexivity.
    rewrite Hrest by lia. reflexivity.
Qed.

(** Every JSON value is read back from its text, given enough fuel. *)
Lemma parse_text_of v : json_value v = true -> exists f0, reads_back v f0.
Proof.
  induction v as [| | b | x | s | l IH | ps IH] using value_ind; intros Hv;
    try discriminate Hv.
  - exists 1%nat. intros fuel rest Hfuel _.
    destruct fuel as [| fuel]; [lia |]. reflexivity.
  - exists 1%nat. intros fuel rest Hfuel _.
    destruct fuel as [| fuel]; [lia |]. destruct b; reflexivity.
  - exists 1%nat. intros fuel rest Hfuel Hrest.
    destruct fuel as [| fuel]; [lia |].
    cbn [json_value] in Hv.
    assert (Htext : text_of (VNumber x) = Number_toString x).
    { unfold text_of. cbn [SerializeJSONProperty].
      destruct x; try discriminate Hv; reflexivity. }
    rewrite Htext.
    destruct (Number_toString_head x Hv) as (c & t & E & Hc).
    pose proof (parse_number_toString x rest Hv Hrest) as Hnum.
    rewrite E in *. cbn [app] in *.
    rewrite parse_value_S.
    assert (Hcases : c = 45 \/ 48 <= c <= 57).
    { destruct Hc as [-> | Hc]; [auto |]. unfold is_digit in Hc. bool_to_prop. auto. }
    rewrite skip_ws_cons
      by (unfold is_ws; repeat (apply orb_false_iff; split); apply Z.eqb_neq; lia).
    replace (c =? 123) with false by (symmetry; apply Z.eqb_neq; lia).
    replace (c =? 91) with false by (symmetry; apply Z.eqb_neq; lia).
    replace (c =? 34) with false by (symmetry; apply Z.eqb_neq; lia).
    replace (c =? 116) with false by (symmetry; apply Z.eqb_neq; lia).
    replace (c =? 102) with false by (symmetry; apply Z.eqb_neq; lia).
    replace (c =? 110) with false by (symmetry; apply Z.eqb_neq; lia).
    rewrite Hnum. reflexivity.
  - exists 1%nat. intros fuel rest Hfuel _.
    destruct fuel as [| fuel]; [lia |].
    cbn [json_value] in Hv.
    change (text_of (VString s)) with (34 :: quote_body s ++ [34]).
    cbn [app]. rewrite <- app_assoc. cbn [app].
    rewrite parse_value_S, skip_ws_cons by reflexivity.
    replace (34 =? 123) with false by reflexivity.
    replace (34 =? 91) with false by reflexivity.
    replace (34 =? 34) with true by reflexivity.
    rewrite parse_string_body_quote
      by (apply Forall_forall; now apply forallb_forall).
    reflexivity.
  - cbn [json_value] in Hv. unfold reads_back. rewrite text_of_array.
    destruct l as [| v l'].
    { exists 1%nat. intros fuel rest Hfuel _.
      destruct fuel as [| fuel]; [lia |]. reflexivity. }
    assert (Hall : Forall (fun v => json_value v = true
                                    /\ exists f0, reads_back v f0) (v :: l')).
    { rewrite forallb_forall in Hv. rewrite Forall_forall in *.
      intros e He. split; [now apply Hv | apply IH; auto]. }
    destruct (parse_elements_texts (v :: l') ltac:(discriminate) Hall) as (f0 & Hread).
    exists (S f0). intros fuel rest Hfuel _.
    destruct fuel as [| fuel]; [lia |].
    cbn [app]. rewrite <- app_assoc. cbn [app].
    rewrite parse_value_S, skip_ws_cons by reflexivity.
    replace (91 =? 123) with false by reflexivity.
    replace (91 =? 91) with true by reflexivity.
    inversion Hall as [| ? ? [Hjv _] _]; subst.
    destruct (text_of_head v Hjv) as (c & t & E & Hc).
    pose proof (Hread fuel rest ltac:(lia)) as Hparse.
    assert (Hjoin : exists t', join [44] (map text_of (v :: l')) = c :: t').
    { cbn [map]. destruct (map text_of l'); cbn [join]; rewrite E; cbn [app]; eauto. }
    destruct Hjoin as (t' & Hjoin). rewrite Hjoin in *. cbn [app] in *.
    rewrite skip_ws_cons by now apply value_start_not_ws.
    destruct (value_start_not_closing c Hc) as [-> _].
    rewrite Hparse. reflexivity.
  - cbn [json_value] in Hv. apply andb_true_iff in Hv as [Hprops Hkeys].
    unfold reads_back. rewrite text_of_object.
    2:{ rewrite forallb_forall in *. intros p Hp. specialize (Hprops p Hp).
        now apply andb_true_iff in Hprops as [_ Hprops]. }
    destruct ps as [| p ps'].
    { exists 1%nat. intros fuel rest Hfuel _.
      destruct fuel as [| fuel]; [lia |]. reflexivity. }
    assert (Hall : Forall (fun p => forallb is_code_unit (fst p) = true
                                    /\ json_value (snd p) = true
                                    /\ exists f0, reads_back (snd p) f0) (p :: ps')).
    { rewrite forallb_forall in Hprops. rewrite Forall_forall in *.
      intros e He. specialize (Hprops e He).
      apply andb_true_iff in Hprops as [Hk Hjv]. auto. }
    destruct (parse_members_texts (p :: ps') ltac:(discriminate) Hall) as (f0 & Hread).
    exists (S f0). intros fuel rest Hfuel _.
    destruct fuel as [| fuel]; [lia |].
    cbn [app]. rewrite <- app_assoc. cbn [app].
    rewrite parse_value_S, skip_ws_cons by reflexivity.
    replace (123 =? 123) with true by reflexivity.
    pose proof (Hread fuel rest ltac:(lia)) as Hparse.
    assert (Hjoin : exists t', join [44] (map member_text (p :: ps')) = 34 :: t').
    { cbn [map]. destruct (map member_text ps'); cbn [join];
        unfold member_text, QuoteJSONString; cbn [app]; eauto. }
    destruct Hjoin as (t' & Hjoin). rewrite Hjoin in *. cbn [app] in *.
    rewrite skip_ws_cons by reflexivity.
    replace (34 =? 125) with false by reflexivity.
    rewrite Hparse. cbn [mapP bindP].
    now rewrite obj_of_members_distinct.
Qed.

(** [JSON.parse(JSON.stringify(v))] is [v] for every JSON value. *)
Lemma JSON_parse_stringify v :
  json_value v = true ->
  SerializeJSONProperty v = Some (text_of v) /\ JSON_parse (text_of v) = Returned v.
Proof.
  intros Hv. split; [now apply text_of_json |].
  destruct (parse_text_of v Hv) as (f0 & Hread).
  unfold reads_back in Hread. remember (text_of v) as text eqn:Etext in *. clear Etext.
  pose proof (JSON_parse_fuel text) as Hfuel.
  pose proof (Hread (Nat.max (parse_fuel text) f0) [] ltac:(lia) I) as Hmax.
  rewrite app_nil_r in Hmax.
  rewrite (parse_value_more_fuel (parse_fuel text) _ text (Nat.le_max_l _ _) Hfuel)
    in Hmax.
  unfold JSON_parse. rewrite Hmax. reflexivity.
Qed.

(** ** The text of a JSON value is well-formed UTF-16 *)

Lemma well_formed_join sep parts :
  well_formed sep -> Forall well_formed parts -> well_formed (join sep parts).
Proof.
  intros Hsep Hparts. induction Hparts as [| p parts Hp Hparts IH]; [constructor |].
  destruct parts as [| p2 parts']; [exact Hp |].
  change (join sep (p :: p2 :: parts')) with (p ++ sep ++ join sep (p2 :: parts')).
  auto using well_formed_app.
Qed.

Lemma well_formed_char c : 0 <= c < 128 -> well_formed [c].
Proof. intros Hc. apply ascii_text_well_formed, ascii_text_lit_char, Hc. Qed.

Lemma well_formed_text_of v : json_value v = true -> well_formed (text_of v).
Proof.
  induction v as [| | b | x | s | l IH | ps IH] using value_ind; intros Hv;
    try discriminate Hv.
  - apply ascii_text_well_formed. repeat constructor; cbn; lia.
  - apply ascii_text_well_formed. destruct b; repeat constructor; cbn; lia.
  - cbn [json_value] in Hv. unfold text_of. cbn [SerializeJSONProperty].
    replace (is_finite x) with true by (destruct x; try discriminate Hv; reflexivity).
    now apply ascii_text_well_formed, ascii_text_Number_toString.
  - cbn [json_value] in Hv. apply well_formed_QuoteJSONString.
    apply Forall_forall. now apply forallb_forall.
  - cbn [json_value] in Hv. rewrite text_of_array.
    change (91 :: join [44] (map text_of l) ++ [93])
      with ([91] ++ join [44] (map text_of l) ++ [93]).
    repeat apply well_formed_app; try (apply well_formed_char; lia).
    apply well_formed_join; [apply well_formed_char; lia |].
    apply Forall_map. rewrite forallb_forall in Hv. rewrite Forall_forall in *.
    auto.
  - cbn [json_value] in Hv. apply andb_true_iff in Hv as [Hprops _].
    rewrite forallb_forall in Hprops.
    rewrite text_of_object.
    2:{ apply forallb_forall. intros p Hp. specialize (Hprops p Hp).
        now apply andb_true_iff in Hprops as [_ Hprops]. }
    change (123 :: join [44] (map member_text ps) ++ [125])
      with ([123] ++ join [44] (map member_text ps) ++ [125]).
    repeat apply well_formed_app; try (apply well_formed_char; lia).
    apply well_formed_join; [apply well_formed_char; lia |].
    apply Forall_map. rewrite Forall_forall in *.
    intros p Hp. specialize (Hprops p Hp).
    apply andb_true_iff in Hprops as [Hk Hjv].
    unfold member_text. norm_lit.
    repeat apply well_formed_app; auto.
    + apply well_formed_QuoteJSONString, Forall_forall. now apply forallb_forall.
    + apply well_formed_char; lia.
Qed.

Lemma text_of_no_bom v : json_value v = true -> hd 0 (text_of v) <> BOM.
Proof.
  intros Hv. destruct (text_of_head v Hv) as (c & t & -> & Hc). cbn [hd].
  unfold value_start, is_digit, BOM in *.
  repeat (apply orb_true_iff in Hc; destruct Hc as [Hc | Hc]); bool_to_prop; lia.
Qed.

(** The bytes of a JSON value's text decode and parse back to the value. *)
Lemma JSON_parse_decode_encode v :
  json_value v = true ->
  JSON_parse (TextDecoder_decode (TextEncoder_encode (SerializeJSONProperty v)))
  = Returned v.
Proof.
  intros Hv. destruct (JSON_parse_stringify v Hv) as [-> Hparse].
  rewrite TextDecoder_TextEncoder;
    auto using well_formed_text_of, text_of_no_bom.
Qed.

(** * The codec *)

Section CodecProperties.

Variable guard : value -> bool.

(** What [decodeMessage] returns, by the outcome of [JSON.parse]. *)
Lemma decodeMessage_cases data :
  decodeMessage guard data
  = match JSON_parse (TextDecoder_decode data) with
    | Returned message =>
        if truthy message && guard message
        then Returned (ok message)
        else Returned (err "Failed to decode Gossip message..."%string)
    | Thrown _ => Returned (err "Failed to decode Gossip message..."%string)
    end.
Proof.
  unfold decodeMessage, decodeMessage_body.
  destruct (JSON_parse (TextDecoder_decode data)) as [m | e]; cbn; [| reflexivity].
  destruct (truthy m), (guard m); reflexivity.
Qed.

(** What [encodeMessage] does, by the guard's verdict and by whether the
    engine completes the serialisation. *)
Lemma encodeMessage_cases engine message :
  encodeMessage engine guard message
  = if guard message
    then if serialises engine message
         then Returned (ok (TextEncoder_encode (SerializeJSONProperty message)))
         else Thrown RangeErrorExn
    else Returned (err "Invalid Message"%string).
Proof.
  unfold encodeMessage, JSON_stringify.
  destruct (guard message), (serialises engine message); reflexivity.
Qed.

(** What is known of a call that returned bytes. *)
Lemma encodeMessage_ok engine message data :
  encodeMessage engine guard message = Returned (ok data) ->
  guard message = true /\ serialises engine message = true
  /\ data = TextEncoder_encode (SerializeJSONProperty message).
Proof.
  rewrite encodeMessage_cases.
  destruct (guard message), (serialises engine message); intros H;
    try discriminate H.
  injection H as <-. auto.
Qed.

(** Whatever the guard, an accepted truthy JSON value comes back from
    its own bytes. *)
Lemma decode_encode_any_guard e :
  json_value e = true -> truthy e = true -> guard e = true ->
  decodeMessage guard (TextEncoder_encode (SerializeJSONProperty e)) = Returned (ok e).
Proof.
  intros Hjson Htruthy Hvalid.
  rewrite decodeMessage_cases, JSON_parse_decode_encode by assumption.
  now rewrite Htruthy, Hvalid.
Qed.

(** A successful decode returns the very value the text parses to. *)
Lemma decodeMessage_ok_parsed data m :
  decodeMessage guard data = Returned (ok m) ->
  JSON_parse (TextDecoder_decode data) = Returned m.
Proof.
  rewrite decodeMessage_cases.
  destruct (JSON_parse (TextDecoder_decode data)) as [v | x]; [| discriminate].
  destruct (truthy v && guard v); congruence.
Qed.

End CodecProperties.

Lemma valid_envelope_truthy isMessage isIDRegistryEvent e :
  isGossipMessage isMessage isIDRegistryEvent e = true -> truthy e = true.
Proof.
  unfold isGossipMessage. intros H. apply andb_true_iff in H as [_ H].
  destruct e; try discriminate H. reflexivity.
Qed.

(** An invalid byte sequence leaves U+FFFD in the decoded text. *)
Lemma utf8_invalid_replaced st data :
  utf8_valid_from st data = false -> In REPLACEMENT (utf8_decode_from st data).
Proof.
  revert st. induction data as [| b rest IH]; intros st; cbn [utf8_valid_from].
  - intros H. cbn [utf8_decode_from]. rewrite H. now left.
  - rewrite utf8_decode_from_cons.
    destruct (utf8_handler st b); intros H.
    + now apply IH.
    + right. now apply IH.
    + now left.
    + now left.
Qed.

Lemma utf16_encode_replacement cps :
  In REPLACEMENT cps -> In REPLACEMENT (utf16_encode cps).
Proof.
  intros H. unfold utf16_encode. apply in_flat_map.
  exists REPLACEMENT. split; [assumption | now left].
Qed.

Lemma strip_bom_replacement cps :
  In REPLACEMENT cps -> In REPLACEMENT (strip_bom cps).
Proof.
  destruct cps as [| c rest]; [auto |]. cbn [strip_bom].
  destruct (Z.eqb_spec c BOM) as [-> | _]; [| auto].
  intros [H | H]; [discriminate H | exact H].
Qed.

Lemma TextDecoder_replaces data :
  is_valid_utf8 data = false -> In REPLACEMENT (TextDecoder_decode data).
Proof.
  intros H. unfold TextDecoder_decode, utf8_decode.
  now apply utf16_encode_replacement, strip_bom_replacement, utf8_invalid_replaced.
Qed.

(** ** Typed envelopes *)

Lemma forallb_isString_map ts : forallb isString (map VString ts) = true.
Proof. induction ts; cbn; auto. Qed.

(** A typed envelope with at least one topic and a payload of its shape
    passes the guard. *)
Lemma typed_envelope_valid isMessage isIDRegistryEvent (m : GossipMessage) :
  topics m <> [] ->
  payload_ok isMessage isIDRegistryEvent (content m) = true ->
  isGossipMessage isMessage isIDRegistryEvent (value_of_GossipMessage m) = true.
Proof.
  intros Htopics Hpayload. unfold isGossipMessage. apply andb_true_iff. split.
  - change (get (value_of_GossipMessage m) "content") with (value_of_Content (content m)).
    unfold isValidContent.
    destruct (content m) as [c | c | c]; cbn [payload_ok] in Hpayload.
    + replace (isIDRegistryContent isIDRegistryEvent (value_of_Content (IDRegistry c)))
        with true by (symmetry; exact Hpayload).
      apply orb_true_iff. left. apply orb_true_r.
    + replace (isUserContent isMessage (value_of_Content (User c)))
        with true by (symmetry; exact Hpayload).
      apply orb_true_r.
    + replace (isContactInfo (value_of_Content (ContactInfo c))) with true;
        [reflexivity |].
      cbn [value_of_Content]. destruct (rpcAddress c); reflexivity.
  - change (get (value_of_GossipMessage m) "topics")
      with (VArray (map VString (topics m))).
    destruct (topics m) as [| t ts]; [congruence |].
    apply (forallb_isString_map (t :: ts)).
Qed.

Lemma json_value_topics ts :
  forallb (forallb is_code_unit) ts = true ->
  forallb json_value (map VString ts) = true.
Proof.
  induction ts as [| t ts IH]; cbn; [reflexivity |].
  intros H. apply andb_true_iff in H as [-> H]. now rewrite IH.
Qed.

(** The value of a typed envelope that JSON writes without loss is a
    JSON value. *)
Lemma typed_envelope_json (m : GossipMessage) :
  json_envelope m = true -> json_value (value_of_GossipMessage m) = true.
Proof.
  unfold json_envelope. intros H. apply andb_true_iff in H as [Hcontent Htopics].
  assert (Hc : json_value (value_of_Content (content m)) = true).
  { destruct (content m) as [c | c | c]; cbn [json_content] in Hcontent.
    - apply andb_true_iff in Hcontent as [Hcontent Hcount].
      apply andb_true_iff in Hcontent as [Hmessage Hroot].
      cbn. now rewrite Hmessage, Hroot, Hcount.
    - apply andb_true_iff in Hcontent as [Hcontent Hcount].
      apply andb_true_iff in Hcontent as [Hmessage Hroot].
      cbn. now rewrite Hmessage, Hroot, Hcount.
    - apply andb_true_iff in Hcontent as [Hpeer Haddress].
      cbn [value_of_Content]. destruct (rpcAddress c) as [a |].
      + apply andb_true_iff in Haddress as [Haddress Hport].
        apply andb_true_iff in Haddress as [Haddress Hfamily].
        cbn. now rewrite Hpeer, Haddress, Hfamily, Hport.
      + cbn. now rewrite Hpeer. }
  cbn. rewrite Hc, (json_value_topics _ Htopics). reflexivity.
Qed.

(** A typed envelope that the engine serialises comes back from its
    bytes. *)
Lemma typed_envelope_round_trip engine isMessage isIDRegistryEvent
  (m : GossipMessage) :
  topics m <> [] ->
  payload_ok isMessage isIDRegistryEvent (content m) = true ->
  json_envelope m = true ->
  serialises engine (value_of_GossipMessage m) = true ->
  exists data,
    encodeMessage engine (isGossipMessage isMessage isIDRegistryEvent)
      (value_of_GossipMessage m) = Returned (ok data)
    /\ decodeMessage (isGossipMessage isMessage isIDRegistryEvent) data
       = Returned (ok (value_of_GossipMessage m)).
Proof.
  intros Htopics Hpayload Hjson Hroom.
  pose proof (typed_envelope_valid _ _ m Htopics Hpayload) as Hvalid.
  exists (TextEncoder_encode (SerializeJSONProperty (value_of_GossipMessage m))).
  split.
  - now rewrite encodeMessage_cases, Hvalid, Hroom.
  - apply decode_encode_any_guard;
      [now apply typed_envelope_json | reflexivity | exact Hvalid].
Qed.

(** ** The scenarios of the specification *)

(** Variant disambiguation: peerId alone is contact information; message,
    root and count are user content when the message has its shape. *)
Example contact_is_ContactInfo :
  isContactInfo (contact "abc") = true
  /\ isUserContent hashed_payload (contact "abc") = false.
Proof. split; reflexivity. Qed.

Example user_content_is_UserContent :
  isUserContent hashed_payload (get user_envelope "content") = true
  /\ isContactInfo (get user_envelope "content") = false
  /\ isIDRegistryContent no_payload (get user_envelope "content") = false.
Proof. repeat split. Qed.

(** Scenario 1: the contact envelope is encoded to its JSON text, and the
    bytes decode to the same envelope. *)
Example scenario_contact_envelope :
  encodeMessage roomy_engine (isGossipMessage hashed_payload no_payload)
    contact_envelope
  = Returned (ok contact_envelope_text)
  /\ decodeMessage (isGossipMessage hashed_payload no_payload) contact_envelope_text
     = Returned (ok contact_envelope).
Proof. split; vm_compute; reflexivity. Qed.

(** Scenario 2: content that is none of the variants is not encoded. *)
Example scenario_empty_content :
  encodeMessage roomy_engine (isGossipMessage hashed_payload no_payload)
    empty_content_envelope
  = Returned (err "Invalid Message"%string).
Proof. reflexivity. Qed.

(** * The decoder on arbitrary bytes *)

(** Only the count of bytes needed tells a state between sequences from
    the initial one. *)
Lemma utf8_handler_needed_zero st b :
  bytes_needed st = 0 -> utf8_handler st b = utf8_handler utf8_initial b.
Proof.
  intros H. unfold utf8_handler, utf8_initial. cbn [bytes_needed]. now rewrite H.
Qed.

Lemma utf8_decode_from_needed_zero st data :
  bytes_needed st = 0 -> utf8_decode_from st data = utf8_decode_from utf8_initial data.
Proof.
  intros H. destruct data as [| b rest].
  - cbn. now rewrite H.
  - rewrite !utf8_decode_from_cons, (utf8_handler_needed_zero st b H). reflexivity.
Qed.

(** A state inside a sequence needs bytes, and its bounds are those of
    continuation bytes. *)
Lemma utf8_handler_continue st b st' :
  utf8_handler st b = Continue st' ->
  bytes_needed st' <> 0 /\ 0x80 <= lower_boundary st' /\ upper_boundary st' <= 0xBF.
Proof.
  unfold utf8_handler. destruct (bytes_needed st =? 0) eqn:Hn.
  - destruct ((0 <=? b) && (b <=? 0x7F)); [discriminate |].
    destruct ((0xC2 <=? b) && (b <=? 0xDF)).
    { intros H. inversion H. cbn. lia. }
    destruct ((0xE0 <=? b) && (b <=? 0xEF)).
    { intros H. inversion H. cbn. destruct (b =? 0xE0), (b =? 0xED); lia. }
    destruct ((0xF0 <=? b) && (b <=? 0xF4)); [| discriminate].
    intros H. inversion H. cbn. destruct (b =? 0xF0), (b =? 0xF4); lia.
  - destruct ((b <? lower_boundary st) || (upper_boundary st <? b)); [discriminate |].
    destruct (bytes_seen st + 1 =? bytes_needed st); [discriminate |].
    intros H. inversion H. cbn. apply Z.eqb_neq in Hn. lia.
Qed.

(** The first byte of a sequence: ASCII, the lead of two, three or four
    bytes, or an error. *)
Lemma utf8_handler_initial_cases b :
  (0 <= b <= 0x7F)
  \/ (exists a, b = a + 192 /\ 2 <= a < 32)
  \/ (exists a, b = a + 224 /\ 0 <= a < 16)
  \/ (exists a, b = a + 240 /\ 0 <= a <= 4)
  \/ ((b < 0 \/ 0x7F < b) /\ utf8_handler utf8_initial b = DecodeError).
Proof.
  assert (H : b < 0 \/ 0 <= b <= 0x7F \/ 0x80 <= b < 0xC2 \/ 0xC2 <= b <= 0xDF
              \/ 0xE0 <= b <= 0xEF \/ 0xF0 <= b <= 0xF4 \/ 0xF4 < b) by lia.
  destruct H as [H | [H | [H | [H | [H | [H | H]]]]]].
  - right; right; right; right. split; [lia |]. handler_cases. reflexivity.
  - now left.
  - right; right; right; right. split; [lia |]. handler_cases. reflexivity.
  - right; left. exists (b - 192). lia.
  - right; right; left. exists (b - 224). lia.
  - right; right; right; left. exists (b - 240). lia.
  - right; right; right; right. split; [lia |]. handler_cases. reflexivity.
Qed.

(** A byte inside a sequence: a continuation byte within the bounds, or
    the error that puts it back. *)
Lemma utf8_handler_continuation_cases cp seen needed lo hi b :
  needed <> 0 -> 0x80 <= lo -> hi <= 0xBF ->
  utf8_handler (mk_utf8_state cp seen needed lo hi) b = DecodeErrorRestore
  \/ exists x, b = 128 + x /\ 0 <= x < 64 /\ lo <= b <= hi.
Proof.
  intros Hn Hlo Hhi.
  destruct (Z_lt_dec b lo) as [H1 | H1]; [left |].
  { unfold utf8_handler.
    cbn [bytes_needed bytes_seen code_point lower_boundary upper_boundary].
    replace (needed =? 0) with false by (symmetry; apply Z.eqb_neq; lia).
    replace (b <? lo) with true by (symmetry; apply Z.ltb_lt; lia).
    reflexivity. }
  destruct (Z_lt_dec hi b) as [H2 | H2]; [left |].
  { unfold utf8_handler.
    cbn [bytes_needed bytes_seen code_point lower_boundary upper_boundary].
    replace (needed =? 0) with false by (symmetry; apply Z.eqb_neq; lia).
    replace (hi <? b) with true by (symmetry; apply Z.ltb_lt; lia).
    now rewrite orb_true_r. }
  right. exists (b - 128). lia.
Qed.

(** The initial state has no byte to put back. *)
Lemma utf8_handler_initial_no_restore b :
  utf8_handler utf8_initial b <> DecodeErrorRestore.
Proof.
  unfold utf8_handler, utf8_initial. cbn [bytes_needed].
  change (0 =? 0) with true. cbv iota.
  repeat match goal with
         | |- context [if ?c then _ else _] => destruct c
         end; discriminate.
Qed.

(** The byte an error puts back is read as the first of a sequence. *)
Lemma utf8_decode_restore b rest :
  match utf8_handler utf8_initial b with
  | Continue st' => utf8_decode_from st' rest
  | Emit cp => cp :: utf8_decode_from utf8_initial rest
  | _ => REPLACEMENT :: utf8_decode_from utf8_initial rest
  end = utf8_decode_from utf8_initial (b :: rest).
Proof.
  rewrite utf8_decode_from_cons. pose proof (utf8_handler_initial_no_restore b).
  destruct (utf8_handler utf8_initial b); congruence.
Qed.

(** One step of the decoder from between two sequences, on a text that
    starts with the byte [b]: it writes one code point and goes on after
    the continuation bytes it has taken.  The code point is [b] itself
    when [b] is ASCII; otherwise it is a code point from 0x80 on, and the
    byte order mark only for the bytes EF BB BF. *)
Lemma utf8_decode_step b rest :
  exists c skipped rest',
    rest = skipped ++ rest'
    /\ utf8_decode_from utf8_initial (b :: rest)
       = c :: utf8_decode_from utf8_initial rest'
    /\ ((0 <= b <= 0x7F /\ c = b /\ skipped = [])
        \/ ((b < 0 \/ 0x7F < b) /\ 0x80 <= c <= 0x10FFFF
            /\ Forall (fun x => 0x80 <= x <= 0xBF) skipped
            /\ (c = BOM -> b = 0xEF /\ skipped = [0xBB; 0xBF]))).
Proof.
  rewrite utf8_decode_from_cons.
  destruct (utf8_handler_initial_cases b)
    as [Hb | [(a & -> & Ha) | [(a & -> & Ha) | [(a & -> & Ha) | [Hb Herr]]]]].
  - rewrite utf8_handler_ascii by lia. exists b, [], rest.
    split; [reflexivity |]. split; [reflexivity |]. left. auto.
  - rewrite utf8_handler_lead2 by lia.
    destruct rest as [| b2 r2]; [replaced_then utf8_decode_restore (@nil Z) (@nil Z) |].
    rewrite utf8_decode_from_cons.
    destruct (utf8_handler_continuation_cases a 0 1 0x80 0xBF b2)
      as [-> | (x & -> & Hx & Hr)]; try lia;
      [replaced_then utf8_decode_restore (@nil Z) (b2 :: r2) |].
    rewrite utf8_handler_continuation by lia.
    change (0 + 1 =? 1) with true. cbv iota.
    exists (a * 64 + x), [128 + x], r2.
    split; [reflexivity |]. split; [reflexivity |]. right.
    split; [lia |]. split; [lia |]. split; [repeat constructor; lia |].
    unfold BOM. intros; lia.
  - rewrite utf8_handler_lead3 by lia.
    destruct rest as [| b2 r2]; [replaced_then utf8_decode_restore (@nil Z) (@nil Z) |].
    rewrite utf8_decode_from_cons.
    destruct (utf8_handler_continuation_cases a 0 2
                (if a =? 0 then 0xA0 else 0x80) (if a =? 13 then 0x9F else 0xBF) b2)
      as [-> | (x & -> & Hx & Hr)];
      try (destruct (a =? 0), (a =? 13); lia);
      [replaced_then utf8_decode_restore (@nil Z) (b2 :: r2) |].
    rewrite utf8_handler_continuation by lia.
    change (0 + 1 =? 2) with false. cbv iota.
    destruct r2 as [| b3 r3]; [replaced_then utf8_decode_restore [128 + x] (@nil Z) |].
    rewrite utf8_decode_from_cons.
    destruct (utf8_handler_continuation_cases (a * 64 + x) (0 + 1) 2 0x80 0xBF b3)
      as [-> | (y & -> & Hy & Hr')]; try lia;
      [replaced_then utf8_decode_restore [128 + x] (b3 :: r3) |].
    rewrite utf8_handler_continuation by lia.
    change (0 + 1 + 1 =? 2) with true. cbv iota.
    exists ((a * 64 + x) * 64 + y), [128 + x; 128 + y], r3.
    split; [reflexivity |]. split; [reflexivity |]. right.
    assert (Hlow : a = 0 -> 32 <= x)
      by (intros ->; change (0 =? 0) with true in Hr; cbv iota in Hr; lia).
    split; [lia |]. split; [lia |]. split; [repeat constructor; lia |].
    unfold BOM. intros Hc.
    assert (a = 15 /\ x = 59 /\ y = 63) as (-> & -> & ->) by lia.
    split; reflexivity.
  - rewrite utf8_handler_lead4 by lia.
    destruct rest as [| b2 r2]; [replaced_then utf8_decode_restore (@nil Z) (@nil Z) |].
    rewrite utf8_decode_from_cons.
    destruct (utf8_handler_continuation_cases a 0 3
                (if a =? 0 then 0x90 else 0x80) (if a =? 4 then 0x8F else 0xBF) b2)
      as [-> | (x & -> & Hx & Hr)];
      try (destruct (a =? 0), (a =? 4); lia);
      [replaced_then utf8_decode_restore (@nil Z) (b2 :: r2) |].
    rewrite utf8_handler_continuation by lia.
    change (0 + 1 =? 3) with false. cbv iota.
    destruct r2 as [| b3 r3]; [replaced_then utf8_decode_restore [128 + x] (@nil Z) |].
    rewrite utf8_decode_from_cons.
    destruct (utf8_handler_continuation_cases (a * 64 + x) (0 + 1) 3 0x80 0xBF b3)
      as [-> | (y & -> & Hy & Hr')]; try lia;
      [replaced_then utf8_decode_restore [128 + x] (b3 :: r3) |].
    rewrite utf8_handler_continuation by lia.
    change (0 + 1 + 1 =? 3) with false. cbv iota.
    destruct r3 as [| b4 r4]; [replaced_then utf8_decode_restore [128 + x; 128 + y] (@nil Z) |].
    rewrite utf8_decode_from_cons.
    destruct (utf8_handler_continuation_cases ((a * 64 + x) * 64 + y) (0 + 1 + 1) 3
                0x80 0xBF b4)
      as [-> | (z & -> & Hz & Hr'')]; try lia;
      [replaced_then utf8_decode_restore [128 + x; 128 + y] (b4 :: r4) |].
    rewrite utf8_handler_continuation by lia.
    change (0 + 1 + 1 + 1 =? 3) with true. cbv iota.
    exists (((a * 64 + x) * 64 + y) * 64 + z), [128 + x; 128 + y; 128 + z], r4.
    split; [reflexivity |]. split; [reflexivity |]. right.
    assert (Hlow : a = 0 -> 16 <= x)
      by (intros ->; change (0 =? 0) with true in Hr; cbv iota in Hr; lia).
    assert (Hhigh : a = 4 -> x < 16)
      by (intros ->; change (4 =? 4) with true in Hr; cbv iota in Hr; lia).
    split; [lia |]. split; [lia |]. split; [repeat constructor; lia |].
    unfold BOM. intros; lia.
  - rewrite Herr. replaced_then utf8_decode_restore (@nil Z) rest.
Qed.

(** The first code point the decoder writes. *)
Lemma utf8_decode_head b rest :
  exists c t,
    utf8_decode_from utf8_initial (b :: rest) = c :: t
    /\ ((0 <= b <= 0x7F /\ c = b /\ t = utf8_decode_from utf8_initial rest)
        \/ ((b < 0 \/ 0x7F < b) /\ 0x80 <= c
            /\ (c = BOM -> exists rest', b = 0xEF /\ rest = 0xBB :: 0xBF :: rest'))).
Proof.
  destruct (utf8_decode_step b rest) as (c & skipped & rest' & -> & -> & H).
  exists c, (utf8_decode_from utf8_initial rest'). split; [reflexivity |].
  destruct H as [(Hb & -> & ->) | (Hb & Hc & _ & Hbom)]; [left; auto | right].
  split; [assumption |]. split; [lia |].
  intros E. destruct (Hbom E) as [-> ->]. now exists rest'.
Qed.

(** ASCII bytes decode to themselves. *)
Lemma utf8_decode_ascii pre rest :
  Forall (fun b => 0 <= b <= 0x7F) pre ->
  utf8_decode_from utf8_initial (pre ++ rest) = pre ++ utf8_decode_from utf8_initial rest.
Proof.
  induction 1 as [| b pre Hb _ IH]; [reflexivity |].
  cbn [app]. rewrite utf8_decode_from_cons, utf8_handler_ascii by lia.
  now rewrite IH.
Qed.

Lemma is_ws_cases c : is_ws c = true -> c = 32 \/ c = 9 \/ c = 10 \/ c = 13.
Proof.
  unfold is_ws. intros H.
  apply orb_true_iff in H as [H | H]; [| apply Z.eqb_eq in H; lia].
  apply orb_true_iff in H as [H | H]; [| apply Z.eqb_eq in H; lia].
  apply orb_true_iff in H as [H | H]; apply Z.eqb_eq in H; lia.
Qed.

Lemma is_ws_false c : c <> 32 -> c <> 9 -> c <> 10 -> c <> 13 -> is_ws c = false.
Proof.
  intros. unfold is_ws.
  repeat (apply orb_false_iff; split); apply Z.eqb_neq; assumption.
Qed.

Lemma ws_ascii w :
  forallb is_ws w = true -> Forall (fun b => 0 <= b <= 0x7F) w.
Proof.
  intros H. apply Forall_forall. intros c Hc.
  rewrite forallb_forall in H. specialize (H c Hc).
  apply is_ws_cases in H. lia.
Qed.

(** *** UTF-16 of the decoded code points *)

Lemma utf16_encode_app a b : utf16_encode (a ++ b) = utf16_encode a ++ utf16_encode b.
Proof. unfold utf16_encode. apply flat_map_app. Qed.

Lemma utf16_encode_bmp cps :
  Forall (fun c => c < 0x10000) cps -> utf16_encode cps = cps.
Proof.
  induction 1 as [| c cps Hc _ IH]; [reflexivity |].
  unfold utf16_encode in *. cbn [flat_map]. rewrite IH.
  unfold utf16_encode_code_point.
  replace (c <? 0x10000) with true by (symmetry; apply Z.ltb_lt; lia).
  reflexivity.
Qed.

Lemma utf16_encode_ws w : forallb is_ws w = true -> utf16_encode w = w.
Proof.
  intros H. apply utf16_encode_bmp.
  eapply Forall_impl; [| apply ws_ascii, H]. cbn. lia.
Qed.

(** The first code unit of a code point from 0x80 on is no white space. *)
Lemma utf16_encode_code_point_head c :
  0x80 <= c ->
  exists u t, utf16_encode_code_point c = u :: t /\ is_ws u = false.
Proof.
  intros Hc. unfold utf16_encode_code_point.
  destruct (Z.ltb_spec c 0x10000) as [H | H].
  - exists c, []. split; [reflexivity |]. apply is_ws_false; lia.
  - eexists _, _. split; [reflexivity |].
    assert (0 <= (c - 0x10000) / 0x400) by (apply Z.div_pos; lia).
    apply is_ws_false; lia.
Qed.

(** *** White space around the bytes *)

(** Bytes that are not all white space decode to text that is not. *)
Lemma utf8_decode_not_ws data :
  forallb is_ws data = false ->
  forallb is_ws (utf16_encode (utf8_decode data)) = false.
Proof.
  unfold utf8_decode.
  induction data as [| b rest IH]; [discriminate |].
  cbn [forallb]. intros H.
  destruct (utf8_decode_head b rest) as (c & t & -> & Hc).
  unfold utf16_encode. cbn [flat_map]. rewrite forallb_app.
  destruct Hc as [(Hb & -> & ->) | (Hb & Hc & _)].
  - unfold utf16_encode_code_point.
    replace (b <? 0x10000) with true by (symmetry; apply Z.ltb_lt; lia).
    cbn [forallb]. destruct (is_ws b); [| reflexivity].
    cbn [andb] in *. now apply IH.
  - destruct (utf16_encode_code_point_head c Hc) as (u & t' & -> & Hu).
    cbn [forallb]. now rewrite Hu.
Qed.

(** White space after the bytes is white space after the text, also when
    the bytes end inside a sequence. *)
Lemma utf8_decode_from_ws_suffix data post st :
  0x80 <= lower_boundary st -> forallb is_ws post = true ->
  utf8_decode_from st (data ++ post) = utf8_decode_from st data ++ post.
Proof.
  intros Hst Hpost. revert st Hst.
  assert (Hinitial : utf8_decode_from utf8_initial post = post).
  { rewrite <- (app_nil_r post) at 1.
    rewrite utf8_decode_ascii by now apply ws_ascii.
    cbn. apply app_nil_r. }
  induction data as [| b rest IH]; intros st Hst.
  - cbn [app utf8_decode_from]. destruct (Z.eqb_spec (bytes_needed st) 0) as [Hn | Hn].
    + now rewrite utf8_decode_from_needed_zero.
    + destruct post as [| c post']; [cbn; now rewrite (proj2 (Z.eqb_neq _ _) Hn) |].
      assert (Hc : 0 <= c <= 0x7F).
      { apply ws_ascii in Hpost. now inversion Hpost. }
      rewrite <- Hinitial at 2.
      rewrite !utf8_decode_from_cons, utf8_handler_ascii by lia.
      unfold utf8_handler.
      replace (bytes_needed st =? 0) with false by (symmetry; now apply Z.eqb_neq).
      replace (c <? lower_boundary st) with true by (symmetry; apply Z.ltb_lt; lia).
      reflexivity.
  - cbn [app]. rewrite !utf8_decode_from_cons.
    assert (Hi : 0x80 <= lower_boundary utf8_initial) by (cbn; lia).
    destruct (utf8_handler st b) as [st' | cp | |] eqn:Hh.
    + apply IH. now apply utf8_handler_continue in Hh.
    + now rewrite IH.
    + now rewrite IH.
    + destruct (utf8_handler utf8_initial b) as [st' | cp | |] eqn:Hh'.
      * rewrite IH; [reflexivity |]. now apply utf8_handler_continue in Hh'.
      * now rewrite IH.
      * now rewrite IH.
      * now rewrite IH.
Qed.

(** Bytes whose text does not end in a replacement character end between
    sequences: what follows them is decoded on its own. *)
Lemma utf8_decode_from_app data more st :
  last (utf8_decode_from st data) 0 <> REPLACEMENT ->
  utf8_decode_from st (data ++ more)
  = utf8_decode_from st data
    ++ utf8_decode_from (match data with [] => st | _ => utf8_initial end) more.
Proof.
  revert st. induction data as [| b rest IH]; intros st Hlast.
  - cbn [app utf8_decode_from] in *.
    destruct (bytes_needed st =? 0); [reflexivity |]. now cbn in Hlast.
  - assert (Htail : forall c l,
               last (c :: l) 0 <> REPLACEMENT -> last l 0 <> REPLACEMENT).
    { intros c [| c' l]; [| exact (fun H => H)].
      intros _. cbn. unfold REPLACEMENT. lia. }
    assert (Hstep : forall st',
               bytes_needed st' = 0 \/ rest <> [] ->
               last (utf8_decode_from st' rest) 0 <> REPLACEMENT ->
               utf8_decode_from st' (rest ++ more)
               = utf8_decode_from st' rest ++ utf8_decode_from utf8_initial more).
    { intros st' Hst' H. rewrite (IH st' H).
      destruct rest; [| reflexivity].
      destruct Hst' as [Hn | Hn]; [| congruence].
      cbn [app]. f_equal. now apply utf8_decode_from_needed_zero. }
    assert (Hcontinue : forall st0 st',
               utf8_handler st0 b = Continue st' ->
               last (utf8_decode_from st' rest) 0 <> REPLACEMENT -> rest <> []).
    { intros st0 st' Hh H ->. apply utf8_handler_continue in Hh as (Hn & _).
      cbn in H. apply Z.eqb_neq in Hn. rewrite Hn in H. now cbn in H. }
    cbn [app]. rewrite utf8_decode_from_cons in Hlast. rewrite !utf8_decode_from_cons.
    destruct (utf8_handler st b) as [st' | cp | |] eqn:Hh.
    + apply Hstep; [right; eapply Hcontinue; eassumption | exact Hlast].
    + cbn [app]. f_equal. apply Hstep; [now left | now apply Htail in Hlast].
    + cbn [app]. f_equal. apply Hstep; [now left | now apply Htail in Hlast].
    + cbn [app]. f_equal. apply Htail in Hlast.
      destruct (utf8_handler utf8_initial b) as [st' | cp | |] eqn:Hh'.
      * apply Hstep; [right; eapply Hcontinue; eassumption | exact Hlast].
      * cbn [app]. f_equal. apply Hstep; [now left | now apply Htail in Hlast].
      * cbn [app]. f_equal. apply Hstep; [now left | now apply Htail in Hlast].
      * cbn [app]. f_equal. apply Hstep; [now left | now apply Htail in Hlast].
Qed.

(** *** The byte order mark *)

Lemma strip_bom_app a b : a <> [] -> strip_bom (a ++ b) = strip_bom a ++ b.
Proof.
  destruct a as [| c a]; [congruence |]. intros _. cbn [app strip_bom].
  now destruct (c =? BOM).
Qed.

Lemma strip_bom_not_bom cps : hd 0 cps <> BOM -> strip_bom cps = cps.
Proof.
  destruct cps as [| c cps]; [reflexivity |]. cbn [hd strip_bom]. intros H.
  now rewrite (proj2 (Z.eqb_neq _ _) H).
Qed.

Lemma strip_bom_ws w s :
  forallb is_ws w = true -> w <> [] -> strip_bom (w ++ s) = w ++ s.
Proof.
  intros Hw Hne. apply strip_bom_not_bom.
  destruct w as [| c w]; [congruence |]. cbn [app hd].
  cbn [forallb] in Hw. apply andb_true_iff in Hw as [Hc _].
  apply is_ws_cases in Hc. unfold BOM. lia.
Qed.

(** Only the bytes EF BB BF decode to a text that starts with the byte
    order mark. *)
Lemma utf8_decode_no_bom data :
  starts_with_bom data = false -> hd 0 (utf8_decode data) <> BOM.
Proof.
  unfold utf8_decode. destruct data as [| b rest]; [cbn; unfold BOM; lia |].
  intros Hdata. destruct (utf8_decode_head b rest) as (c & t & -> & Hc).
  cbn [hd]. destruct Hc as [(Hb & -> & _) | (_ & _ & Hc)]; [unfold BOM; lia |].
  intros Hbom. destruct (Hc Hbom) as (rest' & -> & ->). discriminate Hdata.
Qed.

Lemma utf8_decode_bom data :
  utf8_decode (0xEF :: 0xBB :: 0xBF :: data) = BOM :: utf8_decode data.
Proof.
  unfold utf8_decode.
  change (0xEF :: 0xBB :: 0xBF :: data)
    with ((15 + 224) :: (128 + 59) :: (128 + 63) :: data).
  rewrite utf8_decode_three by lia. reflexivity.
Qed.

(** *** [TextDecoder.decode] on bytes put together *)

Lemma TextDecoder_decode_bom data :
  starts_with_bom data = false ->
  TextDecoder_decode (0xEF :: 0xBB :: 0xBF :: data) = TextDecoder_decode data.
Proof.
  intros Hdata. unfold TextDecoder_decode. rewrite utf8_decode_bom.
  cbn [strip_bom]. change (BOM =? BOM) with true. cbv iota.
  now rewrite strip_bom_not_bom by now apply utf8_decode_no_bom.
Qed.

Lemma TextDecoder_decode_ws_prefix pre data :
  forallb is_ws pre = true -> starts_with_bom data = false ->
  TextDecoder_decode (pre ++ data) = pre ++ TextDecoder_decode data.
Proof.
  intros Hpre Hdata. unfold TextDecoder_decode, utf8_decode.
  rewrite utf8_decode_ascii by now apply ws_ascii.
  rewrite (strip_bom_not_bom (utf8_decode_from utf8_initial data))
    by now apply utf8_decode_no_bom.
  destruct pre as [| c pre'].
  - cbn [app]. now rewrite strip_bom_not_bom by now apply utf8_decode_no_bom.
  - rewrite strip_bom_ws by (assumption || discriminate).
    now rewrite utf16_encode_app, utf16_encode_ws.
Qed.

Lemma TextDecoder_decode_ws_suffix data post :
  forallb is_ws post = true ->
  TextDecoder_decode (data ++ post) = TextDecoder_decode data ++ post.
Proof.
  intros Hpost. unfold TextDecoder_decode, utf8_decode.
  rewrite utf8_decode_from_ws_suffix by (assumption || (cbn; lia)).
  destruct (utf8_decode_from utf8_initial data) as [| c cps] eqn:E.
  - cbn [app]. destruct post as [| p post']; [reflexivity |].
    rewrite <- (app_nil_r (p :: post')) at 1.
    rewrite strip_bom_ws by (assumption || discriminate).
    rewrite app_nil_r. cbn [strip_bom app].
    now apply utf16_encode_ws.
  - rewrite strip_bom_app by discriminate.
    now rewrite utf16_encode_app, (utf16_encode_ws post).
Qed.

Lemma last_utf16_encode_replacement cps :
  last cps 0 = REPLACEMENT -> last (utf16_encode cps) 0 = REPLACEMENT.
Proof.
  intros H. destruct (exists_last (l := cps)) as (pre & c & ->).
  { intros ->. cbn in H. unfold REPLACEMENT in H. lia. }
  rewrite last_last in H. subst c.
  rewrite utf16_encode_app. cbn. apply last_last.
Qed.

Lemma last_strip_bom_replacement cps :
  last cps 0 = REPLACEMENT -> last (strip_bom cps) 0 = REPLACEMENT.
Proof.
  destruct cps as [| c cps]; [auto |]. cbn [strip_bom].
  destruct (Z.eqb_spec c BOM) as [-> | _]; [| auto].
  destruct cps; [cbn; unfold BOM, REPLACEMENT; lia | auto].
Qed.

(** Bytes whose text is not empty and does not end in a replacement
    character: the bytes after them are decoded on their own. *)
Lemma TextDecoder_decode_app data more :
  TextDecoder_decode data <> [] ->
  last (TextDecoder_decode data) 0 <> REPLACEMENT ->
  TextDecoder_decode (data ++ more)
  = TextDecoder_decode data ++ utf16_encode (utf8_decode more).
Proof.
  unfold TextDecoder_decode, utf8_decode. intros Hne Hlast.
  rewrite utf8_decode_from_app.
  - replace (match data with [] => utf8_initial | _ => utf8_initial end)
      with utf8_initial by now destruct data.
    rewrite strip_bom_app, utf16_encode_app; [reflexivity |].
    intros E. rewrite E in Hne. now apply Hne.
  - intros H. apply Hlast.
    now apply last_utf16_encode_replacement, last_strip_bom_replacement.
Qed.

(** *** The ASCII characters of a decoded text *)

Lemma is_ascii_false c : c < 0 \/ 0x7F < c -> is_ascii c = false.
Proof.
  intros Hc. unfold is_ascii. apply andb_false_iff.
  destruct Hc; [left; apply Z.leb_gt | right; apply Z.ltb_ge]; lia.
Qed.

Lemma filter_is_ascii_continuation skipped :
  Forall (fun x => 0x80 <= x <= 0xBF) skipped -> filter is_ascii skipped = [].
Proof.
  induction 1 as [| x skipped Hx _ IH]; [reflexivity |].
  cbn [filter]. now rewrite is_ascii_false by lia.
Qed.

(** The decoder writes an ASCII code point for an ASCII byte, and for
    nothing else. *)
Lemma utf8_decode_ascii_filter data :
  filter is_ascii (utf8_decode data) = filter is_ascii data.
Proof.
  unfold utf8_decode.
  assert (H : forall n data, (List.length data <= n)%nat ->
             filter is_ascii (utf8_decode_from utf8_initial data)
             = filter is_ascii data).
  { clear data. induction n as [| n IH]; intros data Hn.
    - destruct data; [reflexivity | cbn in Hn; lia].
    - destruct data as [| b rest]; [reflexivity |].
      destruct (utf8_decode_step b rest) as (c & skipped & rest' & -> & -> & Hc).
      cbn [filter]. rewrite filter_app.
      rewrite IH by (cbn in Hn; rewrite length_app in Hn; lia).
      destruct Hc as [(Hb & -> & ->) | (Hb & Hc & Hskipped & _)]; [reflexivity |].
      rewrite (is_ascii_false c), (is_ascii_false b) by lia.
      now rewrite (filter_is_ascii_continuation skipped Hskipped). }
  now apply (H (List.length data)).
Qed.

Lemma strip_bom_ascii_filter cps :
  filter is_ascii (strip_bom cps) = filter is_ascii cps.
Proof.
  destruct cps as [| c cps]; [reflexivity |]. cbn [strip_bom].
  destruct (Z.eqb_spec c BOM) as [-> | _]; reflexivity.
Qed.

Lemma utf16_encode_ascii_filter cps :
  filter is_ascii (utf16_encode cps) = filter is_ascii cps.
Proof.
  unfold utf16_encode. induction cps as [| c cps IH]; [reflexivity |].
  cbn [flat_map filter]. rewrite filter_app, IH.
  unfold utf16_encode_code_point.
  destruct (Z.ltb_spec c 0x10000) as [H | H].
  - cbn [filter]. now destruct (is_ascii c).
  - assert (0 <= (c - 0x10000) / 0x400) by (apply Z.div_pos; lia).
    assert (0 <= (c - 0x10000) mod 0x400) by (apply Z.mod_pos_bound; lia).
    cbn [filter]. now rewrite !is_ascii_false by lia.
Qed.

(** * What JSON.stringify keeps of a value *)

Lemma SerializeJSONProperty_defined v :
  v <> VUndefined -> SerializeJSONProperty v = Some (text_of v).
Proof.
  intros Hv. unfold text_of.
  destruct (SerializeJSONProperty v) eqn:E; [reflexivity |].
  destruct v; congruence || discriminate.
Qed.

Lemma written_defined v : written v <> VUndefined.
Proof. destruct v as [| | | [] | | |]; discriminate. Qed.

(** The kept value is written with the same text. *)
Lemma text_of_written v : text_of (written v) = text_of v.
Proof.
  induction v as [| | b | x | s | l IH | ps IH] using value_ind; try reflexivity.
  - destruct x; reflexivity.
  - cbn [written]. rewrite !text_of_array. do 3 f_equal.
    rewrite map_map. induction IH as [| v l Hv _ IHl]; [reflexivity |].
    cbn [map]. now rewrite Hv, IHl.
  - set (member := fun p : jsstring * value =>
                     match SerializeJSONProperty (snd p) with
                     | Some text => [QuoteJSONString (fst p) ++ lit ":" ++ text]
                     | None => []
                     end).
    set (kept := fun p : jsstring * value =>
                   match snd p with
                   | VUndefined => []
                   | _ => [(fst p, written (snd p))]
                   end).
    assert (E : flat_map member (flat_map kept ps) = flat_map member ps).
    { induction IH as [| [k v] ps Hv _ IHps]; [reflexivity |].
      cbn [flat_map]. rewrite flat_map_app, IHps. f_equal.
      unfold kept, member. cbn [fst snd] in *.
      destruct v; try reflexivity; cbn [flat_map fst snd app];
        rewrite !SerializeJSONProperty_defined by (apply written_defined || discriminate);
        now rewrite Hv. }
    unfold text_of. cbn [written SerializeJSONProperty]. fold member kept.
    now rewrite E.
Qed.

Lemma SerializeJSONProperty_written v :
  v <> VUndefined -> SerializeJSONProperty (written v) = SerializeJSONProperty v.
Proof.
  intros Hv.
  rewrite !SerializeJSONProperty_defined by (apply written_defined || assumption).
  now rewrite text_of_written.
Qed.

Lemma written_keys ps :
  incl (map fst (flat_map (fun p : jsstring * value =>
                             match snd p with
                             | VUndefined => []
                             | _ => [(fst p, written (snd p))]
                             end) ps))
       (map fst ps).
Proof.
  induction ps as [| [k v] ps IH]; [apply incl_refl |].
  cbn [flat_map map fst snd].
  destruct v; cbn [app map fst];
    (apply incl_tl, IH) || (apply incl_cons; [now left | apply incl_tl, IH]).
Qed.

(** The kept value is one JSON writes without loss. *)
Lemma json_value_written v : proper_value v = true -> json_value (written v) = true.
Proof.
  induction v as [| | b | x | s | l IH | ps IH] using value_ind; cbn [proper_value written];
    try reflexivity.
  - destruct x; cbn; auto.
  - auto.
  - intros H. cbn [json_value]. rewrite forallb_forall in *.
    intros v' Hv'. apply in_map_iff in Hv' as (v & <- & Hv).
    rewrite Forall_forall in IH. auto.
  - intros H. apply andb_true_iff in H as [Hps Hkeys].
    apply distinct_keys_NoDup in Hkeys.
    cbn [json_value]. apply andb_true_iff. split.
    + clear Hkeys. induction IH as [| [k v] ps Hv _ IHps]; [reflexivity |].
      cbn [forallb fst snd] in Hps.
      apply andb_true_iff in Hps as [Hp Hps]. apply andb_true_iff in Hp as [Hk Hv'].
      cbn [flat_map fst snd] in *. rewrite forallb_app.
      apply andb_true_iff. split; [| exact (IHps Hps)].
      destruct v; try reflexivity; cbn [forallb fst snd];
        now rewrite Hk, Hv by assumption.
    + apply distinct_keys_NoDup. clear Hps IH.
      induction ps as [| [k v] ps IHps]; [constructor |].
      cbn [map fst] in Hkeys. inversion Hkeys as [| ? ? Hk Hnd]; subst.
      cbn [flat_map fst snd].
      destruct v; cbn [app map fst]; auto;
        (constructor; [intros Hin; apply Hk; now apply (written_keys ps) | auto]).
Qed.

(** Nothing is lost of a value JSON writes without loss. *)
Lemma written_json_value v : json_value v = true -> written v = v.
Proof.
  induction v as [| | b | x | s | l IH | ps IH] using value_ind; cbn [json_value written];
    try reflexivity; try discriminate.
  - destruct x as [| | [] |]; cbn; reflexivity || discriminate.
  - intros H. f_equal. induction IH as [| v l Hv _ IHl]; [reflexivity |].
    cbn [forallb] in H. apply andb_true_iff in H as [H1 H2].
    cbn [map]. now rewrite Hv, IHl.
  - intros H. apply andb_true_iff in H as [H _]. f_equal.
    induction IH as [| [k v] ps Hv _ IHps]; [reflexivity |].
    cbn [forallb fst snd] in H. apply andb_true_iff in H as [Hp Hps].
    apply andb_true_iff in Hp as [_ Hv'].
    cbn [flat_map fst snd] in *. rewrite IHps by assumption.
    destruct v; try discriminate Hv'; cbn [app]; now rewrite Hv.
Qed.

(** [JSON.parse] reads the kept value from the bytes of any value. *)
Lemma JSON_parse_decode_encode_written v :
  proper_value v = true -> v <> VUndefined ->
  JSON_parse (TextDecoder_decode (TextEncoder_encode (SerializeJSONProperty v)))
  = Returned (written v).
Proof.
  intros Hv Hdefined. rewrite <- SerializeJSONProperty_written by assumption.
  now apply JSON_parse_decode_encode, json_value_written.
Qed.

(** ** The properties of the kept value *)

Lemma lookup_absent k ps :
  existsb (jsstring_eqb k) (map fst ps) = false -> lookup k ps = None.
Proof.
  induction ps as [| [k' v] ps IH]; [reflexivity |].
  cbn [map fst existsb lookup]. intros H. apply orb_false_iff in H as [-> H]. auto.
Qed.

Lemma lookup_kept_absent k ps :
  lookup k ps = None ->
  lookup k (flat_map (fun p : jsstring * value =>
                        match snd p with
                        | VUndefined => []
                        | _ => [(fst p, written (snd p))]
                        end) ps) = None.
Proof.
  induction ps as [| [k' v] ps IH]; [reflexivity |].
  cbn [lookup flat_map fst snd]. destruct (jsstring_eqb k k') eqn:E; [discriminate |].
  intros H. destruct v; cbn [app lookup]; rewrite ?E; auto.
Qed.

(** A property of the kept object is the kept value of the property; one
    that was [undefined] is not there. *)
Lemma lookup_kept k ps :
  distinct_keys (map fst ps) = true ->
  lookup k (flat_map (fun p : jsstring * value =>
                        match snd p with
                        | VUndefined => []
                        | _ => [(fst p, written (snd p))]
                        end) ps)
  = match lookup k ps with
    | Some VUndefined | None => None
    | Some v => Some (written v)
    end.
Proof.
  induction ps as [| [k' v] ps IH]; [reflexivity |].
  cbn [map fst distinct_keys]. intros H. apply andb_true_iff in H as [Hk Hps].
  apply negb_true_iff in Hk. specialize (IH Hps).
  cbn [lookup flat_map fst snd]. destruct (jsstring_eqb k k') eqn:E.
  - apply jsstring_eqb_eq in E as <-.
    assert (Eq : jsstring_eqb k k = true) by now apply jsstring_eqb_eq.
    destruct v; cbn [app lookup]; rewrite ?Eq; try reflexivity.
    now apply lookup_kept_absent, lookup_absent.
  - destruct v; cbn [app lookup]; rewrite ?E; exact IH.
Qed.

Lemma get_written v k :
  proper_value v = true ->
  get (written v) k
  = match get v k with
    | VUndefined => VUndefined
    | x => written x
    end.
Proof.
  destruct v as [| | b | x | s | l | ps]; try reflexivity.
  - destruct x; reflexivity.
  - cbn [proper_value written get]. intros H. apply andb_true_iff in H as [_ H].
    rewrite (lookup_kept (lit k) ps H).
    destruct (lookup (lit k) ps) as [[] |]; reflexivity.
Qed.

Lemma written_strings names :
  forallb isString names = true -> map written names = names.
Proof.
  induction names as [| v names IH]; [reflexivity |].
  cbn [forallb map]. intros H. apply andb_true_iff in H as [Hv H].
  rewrite (IH H). destruct v; try discriminate Hv. reflexivity.
Qed.

(** ** The engine on the kept value *)

(** The kept value is nested as deep as the value. *)
Lemma nesting_written v : nesting (written v) = nesting v.
Proof.
  induction v as [| | b | x | s | l IH | ps IH] using value_ind; try reflexivity.
  - destruct x; reflexivity.
  - cbn [written nesting]. f_equal.
    induction IH as [| v l Hv _ IHl]; [reflexivity |].
    cbn [map fold_right]. now rewrite Hv, IHl.
  - cbn [written nesting]. f_equal.
    induction IH as [| [k v] ps Hv _ IHps]; [reflexivity |].
    cbn [flat_map map fold_right fst snd] in *.
    rewrite map_app, fold_right_app, <- IHps.
    destruct v; cbn [map fold_right app snd]; try reflexivity.
    + now rewrite <- Hv.
    + now rewrite <- Hv.
    + now rewrite <- Hv.
Qed.

(** The engine completes on the kept value when it does on the value. *)
Lemma serialises_written engine v :
  v <> VUndefined -> serialises engine (written v) = serialises engine v.
Proof.
  intros Hv. unfold serialises.
  now rewrite nesting_written, SerializeJSONProperty_written.
Qed.

(** * White space around a JSON text *)

(** [JSON_parse] with any fuel that is enough. *)
Lemma JSON_parse_any_fuel text fuel :
  (parse_fuel text <= fuel)%nat ->
  JSON_parse text
  = match parse_value fuel text with
    | Parsed v rest =>
        match skip_ws rest with
        | [] => Returned v
        | _ :: _ => Thrown SyntaxErrorExn
        end
    | _ => Thrown SyntaxErrorExn
    end.
Proof.
  intros Hfuel. unfold JSON_parse.
  now rewrite (parse_value_more_fuel _ _ _ Hfuel (JSON_parse_fuel text)).
Qed.

Lemma skip_ws_all_ws w : forallb is_ws w = true -> skip_ws w = [].
Proof.
  induction w as [| c w IH]; [reflexivity |]. cbn [forallb skip_ws].
  intros H. apply andb_true_iff in H as [-> H]. auto.
Qed.

Lemma skip_ws_ws_prefix w s : forallb is_ws w = true -> skip_ws (w ++ s) = skip_ws s.
Proof.
  induction w as [| c w IH]; [reflexivity |]. cbn [forallb app skip_ws].
  intros H. apply andb_true_iff in H as [-> H]. auto.
Qed.

Lemma parse_value_ws_prefix fuel w s :
  forallb is_ws w = true -> parse_value fuel (w ++ s) = parse_value fuel s.
Proof.
  intros Hw. destruct fuel as [| fuel]; [reflexivity |].
  now rewrite !parse_value_S, skip_ws_ws_prefix.
Qed.

(** White space before the text is skipped. *)
Lemma JSON_parse_ws_prefix w s :
  forallb is_ws w = true -> JSON_parse (w ++ s) = JSON_parse s.
Proof.
  intros Hw.
  rewrite (JSON_parse_any_fuel s (parse_fuel (w ++ s)))
    by (unfold parse_fuel; rewrite length_app; lia).
  unfold JSON_parse. now rewrite parse_value_ws_prefix.
Qed.

(** A text of white space only, the empty one too, is no JSON text. *)
Lemma JSON_parse_blank w :
  forallb is_ws w = true -> JSON_parse w = Thrown SyntaxErrorExn.
Proof.
  intros Hw. unfold JSON_parse, parse_fuel.
  replace (2 * List.length w + 2)%nat with (S (2 * List.length w + 1)) by lia.
  now rewrite parse_value_S, skip_ws_all_ws.
Qed.

Lemma followed_by_mapP {A B} (f : A -> B) w p :
  followed_by w (mapP f p) = mapP f (followed_by w p).
Proof. now destruct p. Qed.

Lemma bindP_followed_by {A B} w (p : parsed A) (k k' : A -> jsstring -> parsed B) :
  (forall a r, k a (r ++ w) = followed_by w (k' a r)) ->
  bindP (followed_by w p) k = followed_by w (bindP p k').
Proof. intros H. destruct p; cbn; auto. Qed.

Lemma hex_value_ws c : is_ws c = true -> hex_value c = None.
Proof.
  intros Hc. apply is_ws_cases in Hc.
  destruct Hc as [-> | [-> | [-> | ->]]]; reflexivity.
Qed.

Lemma unescape_ws c : is_ws c = true -> unescape c = None.
Proof.
  intros Hc. apply is_ws_cases in Hc.
  destruct Hc as [-> | [-> | [-> | ->]]]; reflexivity.
Qed.

(** White space does not close a string. *)
Lemma parse_string_body_all_ws w :
  forallb is_ws w = true -> parse_string_body w = SyntaxError.
Proof.
  induction w as [| c w IH]; [reflexivity |]. cbn [forallb].
  intros H. apply andb_true_iff in H as [Hc Hw]. cbn [parse_string_body].
  rewrite (IH Hw). apply is_ws_cases in Hc.
  destruct Hc as [-> | [-> | [-> | ->]]]; reflexivity.
Qed.

(** A unicode escape cut short by white space is an error. *)
Lemma unicode_escape_cut {A} (X : Z -> jsstring -> parsed A) pre w :
  forallb is_ws w = true -> (List.length pre < 4)%nat ->
  match pre ++ w with
  | h1 :: h2 :: h3 :: h4 :: rest2 =>
      match hex4 h1 h2 h3 h4 with
      | Some u => X u rest2
      | None => SyntaxError
      end
  | _ => SyntaxError
  end = SyntaxError.
Proof.
  intros Hw Hpre.
  destruct pre as [| p1 [| p2 [| p3 [| p4 pre]]]]; [| | | | cbn in Hpre; lia];
    destruct w as [| w1 [| w2 [| w3 [| w4 w]]]]; cbn [app]; try reflexivity;
    cbn [forallb] in Hw;
    repeat match goal with
           | H : _ && _ = true |- _ => apply andb_true_iff in H as [? H]
           end;
    unfold hex4;
    repeat match goal with
           | H : is_ws ?c = true |- _ => rewrite (hex_value_ws c H); clear H
           end;
    repeat match goal with
           | |- context [hex_value ?c] => destruct (hex_value c)
           end;
    reflexivity.
Qed.

Section TrailingWhiteSpace.

Variable w : jsstring.
Hypothesis Hw : forallb is_ws w = true.

Lemma skip_ws_ws_suffix s :
  skip_ws (s ++ w) = match skip_ws s with [] => [] | c :: r => c :: r ++ w end.
Proof.
  induction s as [| c s IH]; cbn [app skip_ws].
  - now apply skip_ws_all_ws.
  - destruct (is_ws c); [exact IH | reflexivity].
Qed.

Lemma ws_head_cases :
  w = [] \/ exists c w', w = c :: w' /\ is_ws c = true /\ forallb is_ws w' = true.
Proof.
  destruct w as [| c w']; [now left | right].
  cbn [forallb] in Hw. apply andb_true_iff in Hw as [Hc Hw'].
  now exists c, w'.
Qed.

Lemma span_digits_ws_suffix s :
  span_digits (s ++ w) = (fst (span_digits s), snd (span_digits s) ++ w).
Proof.
  induction s as [| c s IH]; cbn [app].
  - cbn [span_digits fst snd app].
    destruct ws_head_cases as [-> | (c & w' & -> & Hc & _)]; [reflexivity |].
    cbn [span_digits]. apply is_ws_cases in Hc.
    replace (is_digit c) with false; [reflexivity |].
    unfold is_digit. symmetry. apply andb_false_iff.
    destruct Hc as [-> | [-> | [-> | ->]]]; now left.
  - cbn [span_digits]. destruct (is_digit c); [| reflexivity].
    rewrite IH. now destruct (span_digits s).
Qed.

Lemma ws_not c (x : Z) :
  is_ws c = true -> x <> 32 -> x <> 9 -> x <> 10 -> x <> 13 -> (c =? x) = false.
Proof. intros Hc. apply is_ws_cases in Hc. intros. apply Z.eqb_neq. lia. Qed.

Lemma ws_not_digit c : is_ws c = true -> is_digit c = false.
Proof.
  intros Hc. apply is_ws_cases in Hc. unfold is_digit. apply andb_false_iff.
  left. apply Z.leb_gt. lia.
Qed.

Lemma parse_int_ws_suffix s : parse_int (s ++ w) = followed_by w (parse_int s).
Proof.
  destruct s as [| c r]; cbn [app].
  - destruct ws_head_cases as [-> | (c & w' & -> & Hc & _)]; [reflexivity |].
    cbn [parse_int followed_by].
    now rewrite (ws_not c 48 Hc), (ws_not_digit c Hc) by lia.
  - cbn [parse_int]. destruct (c =? 48); [reflexivity |].
    destruct (is_digit c); [| reflexivity].
    change (c :: r ++ w) with ((c :: r) ++ w). rewrite span_digits_ws_suffix.
    now destruct (span_digits (c :: r)).
Qed.

Lemma parse_frac_ws_suffix s : parse_frac (s ++ w) = followed_by w (parse_frac s).
Proof.
  destruct s as [| c r]; cbn [app].
  - destruct ws_head_cases as [-> | (c & w' & -> & Hc & _)]; [reflexivity |].
    cbn [parse_frac followed_by app]. now rewrite (ws_not c 46 Hc) by lia.
  - cbn [parse_frac]. destruct (c =? 46); [| reflexivity].
    rewrite span_digits_ws_suffix.
    now destruct (span_digits r) as [[| d ds] r'].
Qed.

Lemma parse_exp_ws_suffix s : parse_exp (s ++ w) = followed_by w (parse_exp s).
Proof.
  destruct s as [| c r]; cbn [app].
  - destruct ws_head_cases as [-> | (c & w' & -> & Hc & _)]; [reflexivity |].
    cbn [parse_exp followed_by app].
    now rewrite (ws_not c 101 Hc), (ws_not c 69 Hc) by lia.
  - cbn [parse_exp]. destruct ((c =? 101) || (c =? 69)); [| reflexivity].
    destruct r as [| c' r']; cbn [app].
    + destruct ws_head_cases as [E | (c0 & w' & E & Hc & Hw')].
      * rewrite E. reflexivity.
      * rewrite E. rewrite (ws_not c0 45 Hc), (ws_not c0 43 Hc) by lia.
        cbn [span_digits]. now rewrite (ws_not_digit c0 Hc).
    + destruct (c' =? 45); [| destruct (c' =? 43)].
      * rewrite span_digits_ws_suffix.
        now destruct (span_digits r') as [[| d ds] r2].
      * rewrite span_digits_ws_suffix.
        now destruct (span_digits r') as [[| d ds] r2].
      * change (c' :: r' ++ w) with ((c' :: r') ++ w).
        rewrite span_digits_ws_suffix.
        now destruct (span_digits (c' :: r')) as [[| d ds] r2].
Qed.

Lemma parse_number_ws_suffix s :
  parse_number (s ++ w) = followed_by w (parse_number s).
Proof.
  assert (Hu : forall neg s,
             parse_unsigned neg (s ++ w) = followed_by w (parse_unsigned neg s)).
  { intros neg s0. unfold parse_unsigned. rewrite parse_int_ws_suffix.
    apply bindP_followed_by. intros int s2. rewrite parse_frac_ws_suffix.
    apply bindP_followed_by. intros frac s3. rewrite parse_exp_ws_suffix.
    apply bindP_followed_by. reflexivity. }
  assert (Hs : parse_sign w = (false, w)).
  { destruct ws_head_cases as [E | (c & w' & E & Hc & _)]; rewrite E;
      [reflexivity |].
    cbn [parse_sign]. now rewrite (ws_not c 45 Hc) by lia. }
  unfold parse_number. destruct s as [| c r]; cbn [app].
  - rewrite Hs. exact (Hu false []).
  - cbn [parse_sign]. destruct (c =? 45); [apply Hu | apply (Hu false (c :: r))].
Qed.

Lemma parse_string_body_ws_suffix s :
  parse_string_body (s ++ w) = followed_by w (parse_string_body s).
Proof.
  assert (H : forall n s, (List.length s <= n)%nat ->
             parse_string_body (s ++ w) = followed_by w (parse_string_body s)).
  { clear s. induction n as [| n IH]; intros s Hn.
    - destruct s; [| cbn in Hn; lia]. cbn [app].
      now rewrite parse_string_body_all_ws.
    - destruct s as [| c rest]; [cbn [app]; now rewrite parse_string_body_all_ws |].
      cbn [app parse_string_body]. cbn [List.length] in Hn.
      destruct (c =? 34); [reflexivity |].
      destruct (c =? 92).
      + destruct rest as [| e rest1]; cbn [app].
        * destruct ws_head_cases as [E | (c0 & w' & E & Hc & _)]; rewrite E;
            [reflexivity |].
          now rewrite (ws_not c0 117 Hc), (unescape_ws c0 Hc) by lia.
        * cbn [List.length] in Hn. destruct (e =? 117).
          -- destruct rest1 as [| h1 [| h2 [| h3 [| h4 rest2]]]].
             ++ exact (unicode_escape_cut _ [] w Hw ltac:(cbn; lia)).
             ++ exact (unicode_escape_cut _ [h1] w Hw ltac:(cbn; lia)).
             ++ exact (unicode_escape_cut _ [h1; h2] w Hw ltac:(cbn; lia)).
             ++ exact (unicode_escape_cut _ [h1; h2; h3] w Hw ltac:(cbn; lia)).
             ++ cbn [app]. destruct (hex4 h1 h2 h3 h4); [| reflexivity].
                rewrite IH by (cbn in *; lia). symmetry. apply followed_by_mapP.
          -- destruct (unescape e); [| reflexivity].
             rewrite IH by (cbn in *; lia). symmetry. apply followed_by_mapP.
      + destruct (c <? 32); [reflexivity |].
        rewrite IH by (cbn in *; lia). symmetry. apply followed_by_mapP. }
  now apply (H (List.length s)).
Qed.

Lemma expect_ws_suffix word s :
  forallb (fun c => negb (is_ws c)) word = true ->
  expect word (s ++ w) = option_map (fun r => r ++ w) (expect word s).
Proof.
  revert s. induction word as [| w0 word IH]; intros s Hword;
    [reflexivity |].
  cbn [forallb] in Hword. apply andb_true_iff in Hword as [Hw0 Hword].
  apply negb_true_iff in Hw0.
  destruct s as [| c r]; cbn [app expect option_map].
  - destruct ws_head_cases as [E | (c0 & w' & E & Hc & _)]; rewrite E;
      [reflexivity |].
    replace (c0 =? w0) with false; [reflexivity |].
    symmetry. apply Z.eqb_neq. intros ->. congruence.
  - destruct (c =? w0); [now apply IH | reflexivity].
Qed.

Lemma parse_literal_ws_suffix {A} word (a : A) s :
  forallb (fun c => negb (is_ws c)) (lit word) = true ->
  parse_literal word a (s ++ w) = followed_by w (parse_literal word a s).
Proof.
  intros Hword. unfold parse_literal. rewrite expect_ws_suffix by exact Hword.
  now destruct (expect (lit word) s).
Qed.

(** The parser on a text followed by white space: the same result, with
    the white space after the text left. *)
Lemma parse_ws_suffix :
  forall fuel,
    (forall s, parse_value fuel (s ++ w) = followed_by w (parse_value fuel s))
    /\ (forall s, parse_elements fuel (s ++ w)
                  = followed_by w (parse_elements fuel s))
    /\ (forall s, parse_members fuel (s ++ w)
                  = followed_by w (parse_members fuel s)).
Proof.
  induction fuel as [| fuel (IHv & IHe & IHm)];
    [repeat split; intros; reflexivity |].
  repeat split; intros s.
  - rewrite !parse_value_S, skip_ws_ws_suffix.
    destruct (skip_ws s) as [| c rest]; [reflexivity |].
    destruct (c =? 123); [| destruct (c =? 91); [| destruct (c =? 34)]].
    + rewrite skip_ws_ws_suffix.
      destruct (skip_ws rest) as [| c' rest']; [reflexivity |].
      destruct (c' =? 125); [reflexivity |].
      change (c' :: rest' ++ w) with ((c' :: rest') ++ w).
      rewrite IHm. symmetry. apply followed_by_mapP.
    + rewrite skip_ws_ws_suffix.
      destruct (skip_ws rest) as [| c' rest']; [reflexivity |].
      destruct (c' =? 93); [reflexivity |].
      change (c' :: rest' ++ w) with ((c' :: rest') ++ w).
      rewrite IHe. symmetry. apply followed_by_mapP.
    + rewrite parse_string_body_ws_suffix. symmetry. apply followed_by_mapP.
    + change (c :: rest ++ w) with ((c :: rest) ++ w).
      destruct (c =? 116); [now apply parse_literal_ws_suffix |].
      destruct (c =? 102); [now apply parse_literal_ws_suffix |].
      destruct (c =? 110); [now apply parse_literal_ws_suffix |].
      rewrite parse_number_ws_suffix. symmetry. apply followed_by_mapP.
  - rewrite !parse_elements_S, IHv. apply bindP_followed_by.
    intros v rest. rewrite skip_ws_ws_suffix.
    destruct (skip_ws rest) as [| c rest']; [reflexivity |].
    destruct (c =? 44); [rewrite IHe; symmetry; apply followed_by_mapP |].
    destruct (c =? 93); reflexivity.
  - rewrite !parse_members_S, skip_ws_ws_suffix.
    destruct (skip_ws s) as [| q rest0]; [reflexivity |].
    destruct (q =? 34); [| reflexivity].
    rewrite parse_string_body_ws_suffix. apply bindP_followed_by.
    intros k rest1. rewrite skip_ws_ws_suffix.
    destruct (skip_ws rest1) as [| colon rest2]; [reflexivity |].
    destruct (colon =? 58); [| reflexivity].
    rewrite IHv. apply bindP_followed_by.
    intros v rest3. rewrite skip_ws_ws_suffix.
    destruct (skip_ws rest3) as [| c rest4]; [reflexivity |].
    destruct (c =? 44); [rewrite IHm; symmetry; apply followed_by_mapP |].
    destruct (c =? 125); reflexivity.
Qed.

(** White space after the text is skipped. *)
Lemma JSON_parse_ws_suffix s : JSON_parse (s ++ w) = JSON_parse s.
Proof.
  rewrite (JSON_parse_any_fuel s (parse_fuel (s ++ w)))
    by (unfold parse_fuel; rewrite length_app; lia).
  unfold JSON_parse.
  rewrite (proj1 (parse_ws_suffix (parse_fuel (s ++ w)))).
  destruct (parse_value (parse_fuel (s ++ w)) s) as [v r | |];
    [| reflexivity | reflexivity].
  cbn [followed_by]. rewrite skip_ws_ws_suffix.
  now destruct (skip_ws r).
Qed.

End TrailingWhiteSpace.

(** * The text a parse has read

    A successful parse has read a prefix of its text, and reads the same
    value from that prefix whatever comes after it; only a number literal
    looks at the character after it. *)

Lemma mapP_Parsed {A B} (f : A -> B) p b r :
  mapP f p = Parsed b r -> exists a, p = Parsed a r /\ b = f a.
Proof. destruct p; cbn; intros H; inversion H; eauto. Qed.

Lemma skip_ws_split s c rest :
  skip_ws s = c :: rest ->
  exists ws, s = ws ++ c :: rest /\ forallb is_ws ws = true /\ is_ws c = false.
Proof.
  induction s as [| d s IH]; cbn [skip_ws]; [discriminate |].
  destruct (is_ws d) eqn:Hd.
  - intros H. destruct (IH H) as (ws & -> & Hws & Hc).
    exists (d :: ws). cbn [forallb app]. now rewrite Hd, Hws.
  - intros H. inversion H; subst. now exists [].
Qed.

Lemma skip_ws_found ws c rest :
  forallb is_ws ws = true -> is_ws c = false -> skip_ws (ws ++ c :: rest) = c :: rest.
Proof.
  intros Hws Hc. rewrite skip_ws_ws_prefix by assumption. cbn [skip_ws].
  now rewrite Hc.
Qed.

Lemma skip_ws_nil s : skip_ws s = [] -> forallb is_ws s = true.
Proof.
  induction s as [| c s IH]; [reflexivity |]. cbn [skip_ws forallb].
  destruct (is_ws c); [auto | discriminate].
Qed.

(** *** Strings and literals *)

Lemma parse_string_body_consumed s k r :
  parse_string_body s = Parsed k r ->
  exists body,
    s = body ++ 34 :: r
    /\ forall x, parse_string_body (body ++ 34 :: x) = Parsed k x.
Proof.
  assert (H : forall n s k r, (List.length s <= n)%nat ->
             parse_string_body s = Parsed k r ->
             exists body,
               s = body ++ 34 :: r
               /\ forall x, parse_string_body (body ++ 34 :: x) = Parsed k x).
  { clear s k r. induction n as [| n IH]; intros s k r Hn.
    - destruct s; [discriminate | cbn in Hn; lia].
    - destruct s as [| c rest]; [discriminate |]. cbn [parse_string_body].
      cbn [List.length] in Hn.
      destruct (c =? 34) eqn:Hq.
      { intros H. inversion H; subst. apply Z.eqb_eq in Hq. subst c.
        exists []. split; reflexivity. }
      destruct (c =? 92) eqn:Hb.
      + destruct rest as [| e rest1]; [discriminate |]. cbn [List.length] in Hn.
        destruct (e =? 117) eqn:Hu.
        * destruct rest1 as [| h1 [| h2 [| h3 [| h4 rest2]]]]; try discriminate.
          destruct (hex4 h1 h2 h3 h4) as [u |] eqn:Hhex; [| discriminate].
          intros H. apply mapP_Parsed in H as (k' & H & ->).
          apply IH in H as (body & -> & Hx); [| cbn in *; lia].
          exists (c :: e :: h1 :: h2 :: h3 :: h4 :: body). split; [reflexivity |].
          intros x. cbn [app parse_string_body].
          now rewrite Hq, Hb, Hu, Hhex, Hx.
        * destruct (unescape e) as [u |] eqn:He; [| discriminate].
          intros H. apply mapP_Parsed in H as (k' & H & ->).
          apply IH in H as (body & -> & Hx); [| cbn in *; lia].
          exists (c :: e :: body). split; [reflexivity |].
          intros x. cbn [app parse_string_body].
          now rewrite Hq, Hb, Hu, He, Hx.
      + destruct (c <? 32) eqn:Hc; [discriminate |].
        intros H. apply mapP_Parsed in H as (k' & H & ->).
        apply IH in H as (body & -> & Hx); [| cbn in *; lia].
        exists (c :: body). split; [reflexivity |].
        intros x. cbn [app parse_string_body].
        now rewrite Hq, Hb, Hc, Hx. }
  now apply (H (List.length s)).
Qed.

Lemma expect_consumed word s r :
  expect word s = Some r ->
  s = word ++ r /\ forall x, expect word (word ++ x) = Some x.
Proof.
  revert s. induction word as [| w0 word IH]; intros s; cbn [expect app].
  - intros H. inversion H. auto.
  - destruct s as [| c s]; [discriminate |].
    destruct (c =? w0) eqn:E; [| discriminate].
    apply Z.eqb_eq in E. subst c. intros H. apply IH in H as (-> & Hx).
    split; [reflexivity |]. intros x. now rewrite Z.eqb_refl.
Qed.

Lemma parse_literal_consumed {A} word (a v : A) s r :
  parse_literal word a s = Parsed v r ->
  s = lit word ++ r /\ v = a
  /\ forall x, parse_literal word a (lit word ++ x) = Parsed a x.
Proof.
  unfold parse_literal. destruct (expect (lit word) s) as [r' |] eqn:E; [| discriminate].
  intros H. inversion H; subst. apply expect_consumed in E as (-> & Hx).
  repeat split. intros x. now rewrite Hx.
Qed.

(** *** Number literals *)

Lemma span_digits_consumed s :
  s = map digit_char (fst (span_digits s)) ++ snd (span_digits s)
  /\ forallb is_decimal_digit (fst (span_digits s)) = true.
Proof.
  induction s as [| c s (IH1 & IH2)]; cbn [span_digits]; [now split |].
  destruct (is_digit c) eqn:Hc; [| now split].
  destruct (span_digits s) as [ds r]. cbn [fst snd map app forallb] in *.
  unfold is_digit in Hc. bool_to_prop. split.
  - rewrite <- IH1. f_equal. unfold digit_char. lia.
  - rewrite IH2, andb_true_r. unfold is_decimal_digit.
    apply andb_true_iff. split; apply Z.leb_le; lia.
Qed.

Lemma span_digits_eq s ds r :
  span_digits s = (ds, r) ->
  s = map digit_char ds ++ r /\ forallb is_decimal_digit ds = true.
Proof.
  intros E. pose proof (span_digits_consumed s) as H. now rewrite E in H.
Qed.

Lemma number_end_no_digit x : number_end x -> no_digit_ahead x.
Proof. destruct x; cbn; tauto. Qed.

Lemma parse_int_consumed s ds r :
  parse_int s = Parsed ds r ->
  exists c cs,
    s = (c :: cs) ++ r /\ is_digit c = true
    /\ forall x, no_digit_ahead x -> parse_int ((c :: cs) ++ x) = Parsed ds x.
Proof.
  unfold parse_int. destruct s as [| c s]; [discriminate |].
  destruct (c =? 48) eqn:E0.
  - intros H. inversion H; subst. apply Z.eqb_eq in E0. subst c.
    exists 48, []. repeat split.
  - destruct (is_digit c) eqn:Hc; [| discriminate].
    cbn [span_digits]. rewrite Hc.
    destruct (span_digits s) as [ds0 r0] eqn:E. intros H. inversion H; subst.
    apply span_digits_eq in E as (-> & Hds).
    exists c, (map digit_char ds0). split; [reflexivity |].
    split; [assumption |]. intros x Hx. cbn [app]. rewrite E0, Hc.
    cbn [span_digits]. rewrite Hc.
    now rewrite span_digits_chars by assumption.
Qed.

Lemma bindP_Parsed {A B} (p : parsed A) (k : A -> jsstring -> parsed B) b r :
  bindP p k = Parsed b r -> exists a r', p = Parsed a r' /\ k a r' = Parsed b r.
Proof. destruct p; cbn; intros H; [eauto | discriminate | discriminate]. Qed.

Lemma fraction_end_no_digit x : fraction_end x -> no_digit_ahead x.
Proof. destruct x; cbn; tauto. Qed.

Lemma number_end_fraction_end x : number_end x -> fraction_end x.
Proof. destruct x; cbn; tauto. Qed.

Lemma parse_frac_consumed s ds r :
  parse_frac s = Parsed ds r ->
  exists cs,
    s = cs ++ r /\ (cs = [] \/ exists t, cs = 46 :: t)
    /\ forall x, fraction_end x -> parse_frac (cs ++ x) = Parsed ds x.
Proof.
  assert (Hnone : forall x, fraction_end x -> parse_frac x = Parsed [] x).
  { intros [| c x]; [reflexivity |]. cbn. intros [_ Hc].
    now rewrite (proj2 (Z.eqb_neq c 46) Hc). }
  unfold parse_frac at 1. destruct s as [| c s].
  { intros H. inversion H; subst. exists []. auto. }
  destruct (c =? 46) eqn:Hc.
  - apply Z.eqb_eq in Hc. subst c.
    destruct (span_digits s) as [[| d ds'] r'] eqn:E; [discriminate |].
    intros H. inversion H; subst. apply span_digits_eq in E as (-> & Hds).
    exists (46 :: map digit_char (d :: ds')). split; [reflexivity |].
    split; [right; eauto |]. intros x Hx. cbn [app]. unfold parse_frac.
    change (46 =? 46) with true. cbv iota.
    now rewrite span_digits_chars by auto using fraction_end_no_digit.
  - intros H. inversion H; subst. exists []. auto.
Qed.

Lemma is_digit_digit_char_head d ds :
  forallb is_decimal_digit (d :: ds) = true ->
  (digit_char d =? 45) = false /\ (digit_char d =? 43) = false.
Proof.
  cbn [forallb]. intros H. apply andb_true_iff in H as [H _].
  unfold is_decimal_digit in H. unfold digit_char. bool_to_prop.
  split; apply Z.eqb_neq; lia.
Qed.

Lemma parse_exp_consumed s e r :
  parse_exp s = Parsed e r ->
  exists cs,
    s = cs ++ r
    /\ (cs = [] \/ exists c t, cs = c :: t /\ (c = 101 \/ c = 69))
    /\ forall x, number_end x -> parse_exp (cs ++ x) = Parsed e x.
Proof.
  assert (Hnone : forall x, number_end x -> parse_exp x = Parsed 0 x).
  { intros [| c x]; [reflexivity |]. cbn. intros (_ & _ & H1 & H2).
    now rewrite (proj2 (Z.eqb_neq c 101) H1), (proj2 (Z.eqb_neq c 69) H2). }
  unfold parse_exp at 1. destruct s as [| c s].
  { intros H. inversion H; subst. exists []. auto. }
  destruct ((c =? 101) || (c =? 69)) eqn:Hc.
  2:{ intros H. inversion H; subst. exists []. auto. }
  assert (Hc' : c = 101 \/ c = 69).
  { apply orb_true_iff in Hc as [Hc | Hc]; apply Z.eqb_eq in Hc; auto. }
  assert (Hdigits : forall sign neg ds,
             forallb is_decimal_digit ds = true -> ds <> [] ->
             (sign = [] /\ neg = false) \/ (sign = [45] /\ neg = true)
             \/ (sign = [43] /\ neg = false) ->
             forall x, number_end x ->
               parse_exp ((c :: sign ++ map digit_char ds) ++ x)
               = Parsed (if neg then - decimal_value ds else decimal_value ds) x).
  { intros sign neg ds Hds Hne Hsign x Hx. cbn [app]. unfold parse_exp. rewrite Hc.
    rewrite <- app_assoc.
    destruct ds as [| d ds]; [congruence |].
    destruct (is_digit_digit_char_head d ds Hds) as [Hm Hp].
    destruct Hsign as [[-> ->] | [[-> ->] | [-> ->]]]; cbn [app map].
    - rewrite Hm, Hp.
      change (digit_char d :: map digit_char ds ++ x)
        with (map digit_char (d :: ds) ++ x).
      now rewrite span_digits_chars by auto using number_end_no_digit.
    - change (45 =? 45) with true. cbv iota.
      change (digit_char d :: map digit_char ds ++ x)
        with (map digit_char (d :: ds) ++ x).
      now rewrite span_digits_chars by auto using number_end_no_digit.
    - change (43 =? 45) with false. change (43 =? 43) with true. cbv iota.
      change (digit_char d :: map digit_char ds ++ x)
        with (map digit_char (d :: ds) ++ x).
      now rewrite span_digits_chars by auto using number_end_no_digit. }
  destruct s as [| c' s'].
  { cbn. discriminate. }
  destruct (c' =? 45) eqn:Hm; [| destruct (c' =? 43) eqn:Hp].
  - apply Z.eqb_eq in Hm. subst c'.
    destruct (span_digits s') as [[| d ds] r2] eqn:E; [discriminate |].
    intros H. inversion H; subst. apply span_digits_eq in E as (-> & Hds).
    exists (c :: [45] ++ map digit_char (d :: ds)). split; [reflexivity |].
    split; [right; eauto |].
    apply (Hdigits [45] true (d :: ds)); [assumption | discriminate | auto].
  - apply Z.eqb_eq in Hp. subst c'.
    destruct (span_digits s') as [[| d ds] r2] eqn:E; [discriminate |].
    intros H. inversion H; subst. apply span_digits_eq in E as (-> & Hds).
    exists (c :: [43] ++ map digit_char (d :: ds)). split; [reflexivity |].
    split; [right; eauto |].
    apply (Hdigits [43] false (d :: ds)); [assumption | discriminate | auto].
  - destruct (span_digits (c' :: s')) as [[| d ds] r2] eqn:E; [discriminate |].
    intros H. inversion H; subst. apply span_digits_eq in E as (E & Hds).
    rewrite E.
    exists (c :: [] ++ map digit_char (d :: ds)). split; [reflexivity |].
    split; [right; eauto |].
    apply (Hdigits [] false (d :: ds)); [assumption | discriminate | auto].
Qed.

Lemma parse_unsigned_consumed neg s n r :
  parse_unsigned neg s = Parsed n r ->
  exists c cs,
    s = (c :: cs) ++ r /\ is_digit c = true
    /\ forall x, number_end x -> parse_unsigned neg ((c :: cs) ++ x) = Parsed n x.
Proof.
  unfold parse_unsigned at 1. intros H.
  apply bindP_Parsed in H as (int & s2 & Hint & H).
  apply bindP_Parsed in H as (frac & s3 & Hfrac & H).
  apply bindP_Parsed in H as (e & s4 & Hexp & H).
  inversion H; subst. clear H.
  apply parse_int_consumed in Hint as (c & ci & -> & Hc & Xint).
  apply parse_frac_consumed in Hfrac as (cf & -> & Hcf & Xfrac).
  apply parse_exp_consumed in Hexp as (ce & -> & Hce & Xexp).
  exists c, (ci ++ cf ++ ce). split; [| split; [assumption |]].
  { cbn [app]. now rewrite <- !app_assoc. }
  intros x Hx.
  assert (Hfe : fraction_end (ce ++ x)).
  { destruct Hce as [-> | (c0 & t & -> & Hc0)];
      [now apply number_end_fraction_end |].
    cbn. destruct Hc0 as [-> | ->]; split; (reflexivity || lia). }
  assert (Hnd : no_digit_ahead (cf ++ ce ++ x)).
  { destruct Hcf as [-> | (t & ->)]; [now apply fraction_end_no_digit |].
    reflexivity. }
  unfold parse_unsigned.
  replace ((c :: ci ++ cf ++ ce) ++ x) with ((c :: ci) ++ cf ++ ce ++ x)
    by (cbn [app]; now rewrite <- !app_assoc).
  rewrite Xint by assumption. cbn [bindP].
  rewrite Xfrac by assumption. cbn [bindP].
  rewrite Xexp by assumption. reflexivity.
Qed.

Lemma parse_number_consumed s n r :
  parse_number s = Parsed n r ->
  exists c cs,
    s = (c :: cs) ++ r
    /\ forall x, number_end x -> parse_number ((c :: cs) ++ x) = Parsed n x.
Proof.
  unfold parse_number at 1. destruct s as [| c s]; [discriminate |].
  cbn [parse_sign]. destruct (c =? 45) eqn:Hm.
  - apply Z.eqb_eq in Hm. subst c. intros H.
    apply parse_unsigned_consumed in H as (c & cs & -> & Hc & X).
    exists 45, (c :: cs). split; [reflexivity |]. intros x Hx.
    unfold parse_number. cbn [app parse_sign]. change (45 =? 45) with true.
    cbv iota. now apply X.
  - intros H.
    apply parse_unsigned_consumed in H as (c0 & cs & E & Hc & X).
    cbn [app] in E. inversion E; subst.
    exists c0, cs. split; [reflexivity |]. intros x Hx.
    unfold parse_number. cbn [app parse_sign]. rewrite Hm. now apply X.
Qed.

(** *** Values *)

Lemma number_end_delimiter ws c y :
  forallb is_ws ws = true -> c = 44 \/ c = 93 \/ c = 125 ->
  number_end (ws ++ c :: y).
Proof.
  intros Hws Hc. destruct ws as [| w0 ws]; cbn [app number_end].
  - destruct Hc as [-> | [-> | ->]]; repeat split; (reflexivity || lia).
  - cbn [forallb] in Hws. apply andb_true_iff in Hws as [Hw0 _].
    apply is_ws_cases in Hw0.
    destruct Hw0 as [-> | [-> | [-> | ->]]]; repeat split; (reflexivity || lia).
Qed.

Lemma parse_consumed :
  forall fuel,
    (forall s v r, parse_value fuel s = Parsed v r ->
       exists consumed,
         s = consumed ++ r
         /\ (forall x, (isNumber v = true -> number_end x) ->
               parse_value fuel (consumed ++ x) = Parsed v x)
         /\ (isNumber v = false -> exists pre c, consumed = pre ++ [c] /\ c < 128))
    /\ (forall s l r, parse_elements fuel s = Parsed l r ->
       exists pre,
         s = pre ++ 93 :: r
         /\ forall x, parse_elements fuel (pre ++ 93 :: x) = Parsed l x)
    /\ (forall s ms r, parse_members fuel s = Parsed ms r ->
       exists pre,
         s = pre ++ 125 :: r
         /\ forall x, parse_members fuel (pre ++ 125 :: x) = Parsed ms x).
Proof.
  induction fuel as [| fuel (IHv & IHe & IHm)];
    [repeat split; intros; discriminate |].
  repeat split.
  - intros s v r. rewrite parse_value_S.
    destruct (skip_ws s) as [| c rest] eqn:Hs; [discriminate |].
    apply skip_ws_split in Hs as (ws & -> & Hws & Hc).
    destruct (c =? 123) eqn:E1.
    { apply Z.eqb_eq in E1. subst c.
      destruct (skip_ws rest) as [| c' rest'] eqn:Hr; [discriminate |].
      apply skip_ws_split in Hr as (ws2 & -> & Hws2 & Hc').
      destruct (c' =? 125) eqn:E2.
      - apply Z.eqb_eq in E2. subst c'. intros H. inversion H; subst.
        exists (ws ++ 123 :: ws2 ++ [125]). split; [now flatten_app |]. split.
        + intros x _. flatten_app.
          rewrite parse_value_S, skip_ws_found by assumption.
          change (123 =? 123) with true. cbv iota.
          now rewrite skip_ws_found by assumption.
        + intros _. exists (ws ++ 123 :: ws2), 125. split; [now flatten_app | lia].
      - intros H. apply mapP_Parsed in H as (ms & H & ->).
        apply IHm in H as (pre & E & X).
        destruct pre as [| p pre]; cbn [app] in E; inversion E; subst.
        { discriminate E2. }
        exists (ws ++ 123 :: ws2 ++ p :: pre ++ [125]). split; [now flatten_app |].
        split.
        + intros x _. flatten_app.
          rewrite parse_value_S, skip_ws_found by assumption.
          change (123 =? 123) with true. cbv iota.
          rewrite skip_ws_found by assumption. rewrite E2.
          specialize (X x). cbn [app] in X. now rewrite X.
        + intros _. exists (ws ++ 123 :: ws2 ++ p :: pre), 125.
          split; [now flatten_app | lia]. }
    destruct (c =? 91) eqn:E3.
    { apply Z.eqb_eq in E3. subst c.
      destruct (skip_ws rest) as [| c' rest'] eqn:Hr; [discriminate |].
      apply skip_ws_split in Hr as (ws2 & -> & Hws2 & Hc').
      destruct (c' =? 93) eqn:E2.
      - apply Z.eqb_eq in E2. subst c'. intros H. inversion H; subst.
        exists (ws ++ 91 :: ws2 ++ [93]). split; [now flatten_app |]. split.
        + intros x _. flatten_app.
          rewrite parse_value_S, skip_ws_found by assumption.
          change (91 =? 123) with false. change (91 =? 91) with true. cbv iota.
          now rewrite skip_ws_found by assumption.
        + intros _. exists (ws ++ 91 :: ws2), 93. split; [now flatten_app | lia].
      - intros H. apply mapP_Parsed in H as (l & H & ->).
        apply IHe in H as (pre & E & X).
        destruct pre as [| p pre]; cbn [app] in E; inversion E; subst.
        { discriminate E2. }
        exists (ws ++ 91 :: ws2 ++ p :: pre ++ [93]). split; [now flatten_app |].
        split.
        + intros x _. flatten_app.
          rewrite parse_value_S, skip_ws_found by assumption.
          change (91 =? 123) with false. change (91 =? 91) with true. cbv iota.
          rewrite skip_ws_found by assumption. rewrite E2.
          specialize (X x). cbn [app] in X. now rewrite X.
        + intros _. exists (ws ++ 91 :: ws2 ++ p :: pre), 93.
          split; [now flatten_app | lia]. }
    destruct (c =? 34) eqn:E4.
    { apply Z.eqb_eq in E4. subst c. intros H.
      apply mapP_Parsed in H as (k & H & ->).
      apply parse_string_body_consumed in H as (body & -> & X).
      exists (ws ++ 34 :: body ++ [34]). split; [now flatten_app |]. split.
      - intros x _. flatten_app.
        rewrite parse_value_S, skip_ws_found by assumption.
        change (34 =? 123) with false. change (34 =? 91) with false.
        change (34 =? 34) with true. cbv iota. now rewrite X.
      - intros _. exists (ws ++ 34 :: body), 34. split; [now flatten_app | lia]. }
    assert (Hliteral : forall word a,
               hd 0 (lit word) = c -> last (lit word) 0 < 128 -> lit word <> [] ->
               (forall y, parse_value (S fuel) (ws ++ lit word ++ y)
                          = parse_literal word a (lit word ++ y)) ->
               parse_literal word a (c :: rest) = Parsed v r ->
               exists consumed,
                 ws ++ c :: rest = consumed ++ r
                 /\ (forall x, (isNumber v = true -> number_end x) ->
                       parse_value (S fuel) (consumed ++ x) = Parsed v x)
                 /\ (isNumber v = false ->
                     exists pre c0, consumed = pre ++ [c0] /\ c0 < 128)).
    { intros word a Hhd Hlast Hne Hparse H.
      apply parse_literal_consumed in H as (E & -> & X).
      exists (ws ++ lit word). split; [rewrite E; now flatten_app |]. split.
      - intros x _. rewrite <- app_assoc, Hparse. apply X.
      - intros _. destruct (exists_last Hne) as (pre & c0 & Ew).
        rewrite Ew in *. rewrite last_last in Hlast.
        exists (ws ++ pre), c0. split; [now rewrite app_assoc | assumption]. }
    destruct (c =? 116) eqn:E5.
    { apply Z.eqb_eq in E5. subst c.
      apply Hliteral; [reflexivity | cbn; lia | discriminate |].
      intros y. norm_lit. cbn [app].
      now rewrite parse_value_S, skip_ws_found by assumption. }
    destruct (c =? 102) eqn:E6.
    { apply Z.eqb_eq in E6. subst c.
      apply Hliteral; [reflexivity | cbn; lia | discriminate |].
      intros y. norm_lit. cbn [app].
      now rewrite parse_value_S, skip_ws_found by assumption. }
    destruct (c =? 110) eqn:E7.
    { apply Z.eqb_eq in E7. subst c.
      apply Hliteral; [reflexivity | cbn; lia | discriminate |].
      intros y. norm_lit. cbn [app].
      now rewrite parse_value_S, skip_ws_found by assumption. }
    intros H. apply mapP_Parsed in H as (n & H & ->).
    apply parse_number_consumed in H as (c0 & cs & E & X).
    cbn [app] in E. inversion E; subst.
    exists (ws ++ c0 :: cs). split; [now flatten_app |]. split.
    + intros x Hx. flatten_app.
      rewrite parse_value_S, skip_ws_found by assumption.
      rewrite E1, E3, E4, E5, E6, E7.
      specialize (X x (Hx eq_refl)). cbn [app] in X. now rewrite X.
    + discriminate.
  - intros s l r. rewrite parse_elements_S. intros H.
    apply bindP_Parsed in H as (v & rest & Hv & H).
    apply IHv in Hv as (cv & -> & Xv & _).
    destruct (skip_ws rest) as [| c rest'] eqn:Hr; [discriminate |].
    apply skip_ws_split in Hr as (ws & -> & Hws & Hc).
    destruct (c =? 44) eqn:E1.
    + apply Z.eqb_eq in E1. subst c.
      apply mapP_Parsed in H as (l' & H & ->).
      apply IHe in H as (pre & -> & X).
      exists (cv ++ ws ++ 44 :: pre). split; [now flatten_app |].
      intros x. flatten_app. rewrite parse_elements_S.
      rewrite Xv by (intros _; apply number_end_delimiter; auto).
      cbn [bindP]. rewrite skip_ws_found by assumption.
      change (44 =? 44) with true. cbv iota. now rewrite X.
    + destruct (c =? 93) eqn:E2; [| discriminate].
      apply Z.eqb_eq in E2. subst c. inversion H; subst.
      exists (cv ++ ws). split; [now flatten_app |].
      intros x. flatten_app. rewrite parse_elements_S.
      rewrite Xv by (intros _; apply number_end_delimiter; auto).
      cbn [bindP]. now rewrite skip_ws_found by assumption.
  - intros s ms r. rewrite parse_members_S.
    destruct (skip_ws s) as [| q rest0] eqn:Hs; [discriminate |].
    apply skip_ws_split in Hs as (ws0 & -> & Hws0 & Hq).
    destruct (q =? 34) eqn:Eq; [| discriminate].
    apply Z.eqb_eq in Eq. subst q. intros H.
    apply bindP_Parsed in H as (k & rest1 & Hk & H).
    apply parse_string_body_consumed in Hk as (body & -> & Xk).
    destruct (skip_ws rest1) as [| colon rest2] eqn:H1; [discriminate |].
    apply skip_ws_split in H1 as (ws1 & -> & Hws1 & Hcolon).
    destruct (colon =? 58) eqn:Ec; [| discriminate].
    apply Z.eqb_eq in Ec. subst colon.
    apply bindP_Parsed in H as (v & rest3 & Hv & H).
    apply IHv in Hv as (cv & -> & Xv & _).
    destruct (skip_ws rest3) as [| c rest4] eqn:H3; [discriminate |].
    apply skip_ws_split in H3 as (ws3 & -> & Hws3 & Hc).
    destruct (c =? 44) eqn:E1.
    + apply Z.eqb_eq in E1. subst c.
      apply mapP_Parsed in H as (ms' & H & ->).
      apply IHm in H as (pre & -> & X).
      exists (ws0 ++ 34 :: body ++ 34 :: ws1 ++ 58 :: cv ++ ws3 ++ 44 :: pre).
      split; [now flatten_app |].
      intros x. flatten_app.
      rewrite parse_members_S, skip_ws_found by assumption.
      change (34 =? 34) with true. cbv iota. rewrite Xk. cbn [bindP].
      rewrite skip_ws_found by assumption.
      change (58 =? 58) with true. cbv iota.
      rewrite Xv by (intros _; apply number_end_delimiter; auto).
      cbn [bindP]. rewrite skip_ws_found by assumption.
      change (44 =? 44) with true. cbv iota. now rewrite X.
    + destruct (c =? 125) eqn:E2; [| discriminate].
      apply Z.eqb_eq in E2. subst c. inversion H; subst.
      exists (ws0 ++ 34 :: body ++ 34 :: ws1 ++ 58 :: cv ++ ws3).
      split; [now flatten_app |].
      intros x. flatten_app.
      rewrite parse_members_S, skip_ws_found by assumption.
      change (34 =? 34) with true. cbv iota. rewrite Xk. cbn [bindP].
      rewrite skip_ws_found by assumption.
      change (58 =? 58) with true. cbv iota.
      rewrite Xv by (intros _; apply number_end_delimiter; auto).
      cbn [bindP]. now rewrite skip_ws_found by assumption.
Qed.

(** *** [JSON.parse] on a text with more after it *)

Lemma JSON_parse_Returned text v :
  JSON_parse text = Returned v ->
  exists r, parse_value (parse_fuel text) text = Parsed v r /\ skip_ws r = [].
Proof.
  unfold JSON_parse.
  destruct (parse_value (parse_fuel text) text) as [v' r | |]; try discriminate.
  destruct (skip_ws r) eqn:E; [| discriminate].
  intros H. inversion H; subst. eauto.
Qed.

(** A text that parses to a value other than a number is not empty and
    does not end in a replacement character. *)
Lemma JSON_parse_last text v :
  JSON_parse text = Returned v -> isNumber v = false ->
  text <> [] /\ last text 0 <> REPLACEMENT.
Proof.
  intros H Hv. apply JSON_parse_Returned in H as (r & H & Hr).
  apply parse_consumed in H as (consumed & -> & _ & Hlast).
  destruct (Hlast Hv) as (pre & c & -> & Hc). split.
  - destruct pre; discriminate.
  - apply skip_ws_nil in Hr.
    destruct r as [| r0 r'].
    + rewrite app_nil_r, last_last. unfold REPLACEMENT. lia.
    + destruct (exists_last (l := r0 :: r')) as (r1 & w & E); [discriminate |].
      rewrite E in *. rewrite app_assoc, last_last.
      rewrite forallb_app in Hr. apply andb_true_iff in Hr as [_ Hw].
      cbn in Hw. rewrite andb_true_r in Hw. apply is_ws_cases in Hw.
      unfold REPLACEMENT. lia.
Qed.

(** After a text that parses to a value other than a number, anything
    but white space is a syntax error. *)
Lemma JSON_parse_more text v more :
  JSON_parse text = Returned v -> isNumber v = false ->
  forallb is_ws more = false ->
  JSON_parse (text ++ more) = Thrown SyntaxErrorExn.
Proof.
  intros H Hv Hmore. apply JSON_parse_Returned in H as (r & H & Hr).
  unfold JSON_parse. set (F := parse_fuel (text ++ more)).
  assert (Hfuel : (parse_fuel text <= F)%nat)
    by (unfold F, parse_fuel; rewrite length_app; lia).
  rewrite <- (parse_value_more_fuel _ _ _ Hfuel) in H
    by apply JSON_parse_fuel.
  apply parse_consumed in H as (consumed & E & X & _).
  replace (text ++ more) with (consumed ++ r ++ more)
    by (rewrite E; now rewrite app_assoc).
  rewrite X by (intros Hn; congruence).
  rewrite skip_ws_ws_prefix by now apply skip_ws_nil.
  destruct (skip_ws more) eqn:Es; [| reflexivity].
  apply skip_ws_nil in Es. congruence.
Qed.

(** A text that starts with a brace does not parse to a number. *)
Lemma JSON_parse_brace s v :
  JSON_parse (123 :: s) = Returned v -> isNumber v = false.
Proof.
  intros H. apply JSON_parse_Returned in H as (r & H & _).
  destruct (parse_fuel (123 :: s)) as [| fuel]; [discriminate |].
  rewrite parse_value_S in H. cbn [skip_ws] in H.
  change (is_ws 123) with false in H. cbv iota in H.
  change (123 =? 123) with true in H. cbv iota in H.
  destruct (skip_ws s) as [| c' rest']; [discriminate |].
  destruct (c' =? 125); [now inversion H |].
  apply mapP_Parsed in H as (ms & _ & ->). reflexivity.
Qed.

(** * The bytes [encodeMessage] writes *)

(** *** JSON.stringify writes no control character *)

Lemma printable_text_app a b :
  printable_text a -> printable_text b -> printable_text (a ++ b).
Proof. unfold printable_text. intros. apply Forall_app. auto. Qed.

Lemma printable_text_digits ds :
  forallb is_decimal_digit ds = true -> printable_text (map digit_char ds).
Proof.
  unfold printable_text. intros Hds. apply Forall_map, Forall_forall.
  intros d Hd. rewrite forallb_forall in Hds. specialize (Hds d Hd).
  unfold is_decimal_digit, digit_char in *. bool_to_prop. lia.
Qed.

Lemma printable_text_char (c : Z) : 0x20 <= c -> printable_text [c].
Proof. intros Hc. repeat constructor; lia. Qed.

Lemma printable_text_digits_toString ds n :
  forallb is_decimal_digit ds = true -> printable_text (digits_toString ds n).
Proof.
  intros Hds. unfold digits_toString. norm_lit.
  assert (Hz : forall m, printable_text (zeros m)).
  { intros m. rewrite zeros_digits. apply printable_text_digits, forallb_repeat_zero. }
  assert (He : printable_text
            ([101] ++ (if n - 1 <? 0 then [45] else [43])
             ++ map digit_char (decimal_digits (Z.abs (n - 1))))).
  { repeat apply printable_text_app.
    - apply printable_text_char; lia.
    - destruct (n - 1 <? 0); apply printable_text_char; lia.
    - apply printable_text_digits, digits_of_uint_decimal. }
  destruct ((-5 <=? n) && (n <=? 21)).
  - destruct (_ <=? n); [| destruct (0 <? n)].
    + apply printable_text_app; auto using printable_text_digits.
    + rewrite firstn_map, skipn_map.
      repeat apply printable_text_app;
        auto using printable_text_digits, forallb_firstn, forallb_skipn.
      apply printable_text_char; lia.
    + repeat apply printable_text_app; auto using printable_text_digits.
      repeat constructor; lia.
  - pose proof (printable_text_digits ds Hds) as Hs.
    destruct (map digit_char ds) as [| c [| c2 more]]; [exact He | |].
    + inversion Hs; subst. constructor; assumption.
    + inversion Hs as [| ? ? Hc Hs']; subst. constructor; [assumption |].
      apply printable_text_app; [apply printable_text_char; lia |].
      apply printable_text_app; [exact Hs' | exact He].
Qed.

Lemma printable_text_Number_toString x :
  json_number x = true -> printable_text (Number_toString x).
Proof.
  intros Hx. destruct x as [| neg | neg | neg ds n]; try discriminate Hx.
  - repeat constructor; cbn; lia.
  - cbn [json_number] in Hx. apply binary64_inv in Hx as [Hx _].
    apply canonical_digits_inv in Hx as (Hds & _).
    cbn [Number_toString]. apply printable_text_app.
    + destruct neg; repeat constructor; cbn; lia.
    + now apply printable_text_digits_toString.
Qed.

Lemma printable_text_unicode_escape u :
  is_code_unit u = true -> printable_text (unicode_escape u).
Proof.
  unfold is_code_unit. intros Hu. bool_to_prop. unfold unicode_escape.
  assert (0 <= u / 4096 < 16)
    by (split; [apply Z.div_pos | apply Z.div_lt_upper_bound]; lia).
  pose proof (hex_digit_range (u / 4096) ltac:(lia)).
  pose proof (hex_digit_range ((u / 256) mod 16) ltac:(apply Z.mod_pos_bound; lia)).
  pose proof (hex_digit_range ((u / 16) mod 16) ltac:(apply Z.mod_pos_bound; lia)).
  pose proof (hex_digit_range (u mod 16) ltac:(apply Z.mod_pos_bound; lia)).
  repeat constructor; lia.
Qed.

Lemma printable_text_quote_body s :
  Forall (fun u => is_code_unit u = true) s -> printable_text (quote_body s).
Proof.
  assert (Hcons : forall u t,
    is_code_unit u = true -> printable_text (quote_body t) ->
    (is_high_surrogate u = true ->
     match t with l :: _ => is_low_surrogate l = false | [] => True end) ->
    printable_text (quote_body (u :: t))).
  { intros u t Hu IH Hlone. rewrite quote_body_cons.
    destruct (escape_char u) as [e |] eqn:He.
    { change (92 :: e :: quote_body t) with ([92; e] ++ quote_body t).
      apply printable_text_app; [| assumption].
      unfold escape_char in He.
      repeat match type of He with
      | context [u =? ?k] => destruct (Z.eqb_spec u k) as [? | ?]
      end; inversion He; subst; repeat constructor; lia. }
    destruct (Z.ltb_spec u 0x20);
      [apply printable_text_app;
       [now apply printable_text_unicode_escape | assumption] |].
    destruct (is_high_surrogate u) eqn:Hh.
    { specialize (Hlone eq_refl). destruct t as [| l t'].
      - now apply printable_text_unicode_escape.
      - rewrite Hlone.
        apply printable_text_app;
          [now apply printable_text_unicode_escape | assumption]. }
    destruct (is_low_surrogate u) eqn:Hl;
      [apply printable_text_app;
       [now apply printable_text_unicode_escape | assumption] |].
    constructor; assumption. }
  induction s as [| u | u l s IHs IHls] using jsstring_pair_ind; intros Hs.
  - constructor.
  - inversion Hs; subst. apply Hcons; auto. constructor.
  - inversion Hs as [| ? ? Hu Hs']; subst. inversion Hs' as [| ? ? Hl Hs'']; subst.
    destruct (is_high_surrogate u && is_low_surrogate l) eqn:Hpair.
    + apply andb_true_iff in Hpair as [Hh Hlo].
      assert (Hun : escape_char u = None /\ (u <? 0x20) = false).
      { unfold is_high_surrogate in Hh. bool_to_prop. unfold escape_char.
        repeat match goal with
        | |- context [u =? ?k] => destruct (Z.eqb_spec u k) as [? | ?]; [lia |]
        end. split; [reflexivity | apply Z.ltb_ge; lia]. }
      destruct Hun as [Hue Huc].
      rewrite quote_body_cons, Hue, Huc, Hh, Hlo.
      unfold is_high_surrogate, is_low_surrogate in Hh, Hlo. bool_to_prop.
      constructor; [lia |]. constructor; [lia |]. now apply IHs.
    + apply Hcons; auto. intros Hh. rewrite Hh in Hpair. exact Hpair.
Qed.

Lemma printable_text_QuoteJSONString s :
  Forall (fun u => is_code_unit u = true) s -> printable_text (QuoteJSONString s).
Proof.
  intros Hs. unfold QuoteJSONString.
  change (34 :: quote_body s ++ [34]) with ([34] ++ quote_body s ++ [34]).
  repeat apply printable_text_app; try (apply printable_text_char; lia).
  now apply printable_text_quote_body.
Qed.

Lemma printable_text_join sep parts :
  printable_text sep -> Forall printable_text parts ->
  printable_text (join sep parts).
Proof.
  intros Hsep Hparts. induction Hparts as [| p parts Hp Hparts IH]; [constructor |].
  destruct parts as [| p2 parts']; [exact Hp |].
  change (join sep (p :: p2 :: parts')) with (p ++ sep ++ join sep (p2 :: parts')).
  auto using printable_text_app.
Qed.

Lemma printable_text_of v : json_value v = true -> printable_text (text_of v).
Proof.
  induction v as [| | b | x | s | l IH | ps IH] using value_ind; intros Hv;
    try discriminate Hv.
  - repeat constructor; cbn; lia.
  - destruct b; repeat constructor; cbn; lia.
  - cbn [json_value] in Hv. unfold text_of. cbn [SerializeJSONProperty].
    replace (is_finite x) with true by (destruct x; try discriminate Hv; reflexivity).
    now apply printable_text_Number_toString.
  - cbn [json_value] in Hv. apply printable_text_QuoteJSONString.
    apply Forall_forall. now apply forallb_forall.
  - cbn [json_value] in Hv. rewrite text_of_array.
    change (91 :: join [44] (map text_of l) ++ [93])
      with ([91] ++ join [44] (map text_of l) ++ [93]).
    repeat apply printable_text_app; try (apply printable_text_char; lia).
    apply printable_text_join; [apply printable_text_char; lia |].
    apply Forall_map. rewrite forallb_forall in Hv. rewrite Forall_forall in *.
    auto.
  - cbn [json_value] in Hv. apply andb_true_iff in Hv as [Hprops _].
    rewrite forallb_forall in Hprops.
    rewrite text_of_object.
    2:{ apply forallb_forall. intros p Hp. specialize (Hprops p Hp).
        now apply andb_true_iff in Hprops as [_ Hprops]. }
    change (123 :: join [44] (map member_text ps) ++ [125])
      with ([123] ++ join [44] (map member_text ps) ++ [125]).
    repeat apply printable_text_app; try (apply printable_text_char; lia).
    apply printable_text_join; [apply printable_text_char; lia |].
    apply Forall_map. rewrite Forall_forall in *.
    intros p Hp. specialize (Hprops p Hp).
    apply andb_true_iff in Hprops as [Hk Hjv].
    unfold member_text. norm_lit.
    repeat apply printable_text_app; auto.
    + apply printable_text_QuoteJSONString, Forall_forall. now apply forallb_forall.
    + apply printable_text_char; lia.
Qed.

(** *** The bytes of a text without control characters *)

Lemma to_scalars_printable s :
  printable_text s -> Forall (fun c => 0x20 <= c) (to_scalars s).
Proof.
  induction s as [| u | u l s IHs IHls] using jsstring_pair_ind; intros Hs.
  - constructor.
  - inversion Hs; subst. cbn [to_scalars].
    destruct (is_high_surrogate u); [repeat constructor; unfold REPLACEMENT; lia |].
    destruct (is_low_surrogate u); repeat constructor; unfold REPLACEMENT; lia.
  - inversion Hs as [| ? ? Hu Hs']; subst. specialize (IHls Hs').
    inversion Hs' as [| ? ? Hl Hs'']; subst. specialize (IHs Hs'').
    cbn [to_scalars] in *.
    destruct (is_high_surrogate u) eqn:Hh.
    + destruct (is_low_surrogate l) eqn:Hlo.
      * unfold is_high_surrogate, is_low_surrogate in Hh, Hlo. bool_to_prop.
        constructor; [lia | assumption].
      * constructor; [unfold REPLACEMENT; lia | assumption].
    + destruct (is_low_surrogate u);
        (constructor; [unfold REPLACEMENT; lia | assumption]).
Qed.

Lemma utf8_encode_code_point_text_bytes cp :
  is_scalar cp = true -> 0x20 <= cp ->
  forallb is_text_byte (utf8_encode_code_point cp) = true.
Proof.
  unfold is_scalar. intros H Hcp. apply andb_true_iff in H as [H _]. bool_to_prop.
  assert (Hbyte : forall b, 0x20 <= b <= 0xF4 -> is_text_byte b = true).
  { intros b Hb. unfold is_text_byte. apply andb_true_iff.
    split; apply Z.leb_le; lia. }
  unfold utf8_encode_code_point.
  destruct (Z.leb_spec cp 0x7F) as [H1 | H1].
  { cbn [forallb]. rewrite Hbyte by lia. reflexivity. }
  destruct (Z.leb_spec cp 0x7FF) as [H2 | H2].
  { rewrite shiftr_6, land_0x3F.
    split_base64 cp a b E B.
    rewrite lor_0x80 by lia. cbn [forallb].
    rewrite !Hbyte by lia. reflexivity. }
  destruct (Z.leb_spec cp 0xFFFF) as [H3 | H3].
  { rewrite shiftr_12_nested, shiftr_6, !land_0x3F.
    split_base64 cp q c E B.
    split_base64 q a b E' B'.
    rewrite !lor_0x80 by lia. cbn [forallb].
    rewrite !Hbyte by lia. reflexivity. }
  { rewrite shiftr_18_nested, shiftr_12_nested, shiftr_6, !land_0x3F.
    split_base64 cp q d E B.
    split_base64 q r c E' B'.
    split_base64 r a b E'' B''.
    rewrite !lor_0x80 by lia. cbn [forallb].
    rewrite !Hbyte by lia. reflexivity. }
Qed.

Lemma TextEncoder_encode_text_bytes s :
  well_formed s -> printable_text s ->
  forallb is_text_byte (TextEncoder_encode (Some s)) = true.
Proof.
  intros Hwf Hp. unfold TextEncoder_encode, utf8_encode.
  pose proof (to_scalars_well_formed s Hwf) as Hs.
  pose proof (to_scalars_printable s Hp) as Hp'.
  induction Hs as [| cp cps Hcp _ IH]; [reflexivity |].
  inversion Hp'; subst. cbn [flat_map].
  now rewrite forallb_app, utf8_encode_code_point_text_bytes, IH.
Qed.

(** *** The first and the last byte *)

Lemma TextEncoder_encode_first c s :
  0 <= c < 128 ->
  TextEncoder_encode (Some (c :: s)) = c :: TextEncoder_encode (Some s).
Proof.
  intros Hc. unfold TextEncoder_encode, utf8_encode.
  rewrite to_scalars_unit
    by (unfold is_surrogate; apply andb_false_iff; left; apply Z.leb_gt; lia).
  cbn [flat_map]. unfold utf8_encode_code_point.
  replace (c <=? 0x7F) with true by (symmetry; apply Z.leb_le; lia).
  reflexivity.
Qed.

Lemma TextEncoder_encode_last s :
  well_formed s ->
  forall pre c, s = pre ++ [c] -> 0 <= c < 128 ->
  exists d, TextEncoder_encode (Some s) = d ++ [c].
Proof.
  unfold TextEncoder_encode, utf8_encode.
  induction 1 as [| u s Hu Hs Hwf IH | h l s Hh Hl Hwf IH]; intros pre c E Hc.
  - destruct pre; discriminate.
  - rewrite to_scalars_unit by assumption. cbn [flat_map].
    destruct pre as [| p pre]; cbn [app] in E; inversion E; subst.
    + exists []. cbn. unfold utf8_encode_code_point.
      replace (c <=? 0x7F) with true by (symmetry; apply Z.leb_le; lia).
      reflexivity.
    + destruct (IH pre c eq_refl Hc) as (d & ->).
      exists (utf8_encode_code_point p ++ d). now rewrite app_assoc.
  - rewrite to_scalars_pair by assumption. cbn [flat_map].
    destruct pre as [| p [| p2 pre]]; cbn [app] in E; inversion E; subst.
    + unfold is_low_surrogate in Hl. bool_to_prop. lia.
    + destruct (IH pre c eq_refl Hc) as (d & ->).
      eexists (_ ++ d). now rewrite app_assoc.
Qed.

(** * The values [JSON.parse] returns *)

(** *** The decoded text is made of code units *)

Lemma utf8_decode_range data :
  Forall (fun c => 0 <= c <= 0x10FFFF) (utf8_decode data).
Proof.
  unfold utf8_decode.
  assert (H : forall n data, (List.length data <= n)%nat ->
             Forall (fun c => 0 <= c <= 0x10FFFF) (utf8_decode_from utf8_initial data)).
  { clear data. induction n as [| n IH]; intros data Hn.
    - destruct data; [constructor | cbn in Hn; lia].
    - destruct data as [| b rest]; [constructor |].
      destruct (utf8_decode_step b rest) as (c & skipped & rest' & -> & -> & Hc).
      constructor.
      + destruct Hc as [(Hb & -> & _) | (_ & Hc & _)]; lia.
      + apply IH. cbn in Hn. rewrite length_app in Hn. lia. }
  now apply (H (List.length data)).
Qed.

Lemma utf16_encode_code_units cps :
  Forall (fun c => 0 <= c <= 0x10FFFF) cps ->
  Forall (fun u => is_code_unit u = true) (utf16_encode cps).
Proof.
  assert (Hunit : forall u, 0 <= u < 65536 -> is_code_unit u = true).
  { intros u Hu. unfold is_code_unit. apply andb_true_iff.
    split; [apply Z.leb_le | apply Z.ltb_lt]; lia. }
  unfold utf16_encode. induction 1 as [| c cps Hc _ IH]; [constructor |].
  cbn [flat_map]. apply Forall_app. split; [| exact IH].
  unfold utf16_encode_code_point.
  destruct (Z.ltb_spec c 0x10000) as [H | H].
  - repeat constructor. apply Hunit. lia.
  - assert (0 <= (c - 0x10000) / 0x400 < 0x400)
      by (split; [apply Z.div_pos | apply Z.div_lt_upper_bound]; lia).
    assert (0 <= (c - 0x10000) mod 0x400 < 0x400) by (apply Z.mod_pos_bound; lia).
    repeat constructor; apply Hunit; lia.
Qed.

Lemma strip_bom_Forall (P : Z -> Prop) cps : Forall P cps -> Forall P (strip_bom cps).
Proof.
  destruct cps as [| c cps]; [auto |]. cbn [strip_bom].
  destruct (c =? BOM); [| auto]. intros H. now inversion H.
Qed.

Lemma TextDecoder_decode_code_units data :
  Forall (fun u => is_code_unit u = true) (TextDecoder_decode data).
Proof.
  unfold TextDecoder_decode.
  apply utf16_encode_code_units, strip_bom_Forall, utf8_decode_range.
Qed.

(** *** Strings *)

Lemma hex_value_range c v : hex_value c = Some v -> 0 <= v < 16.
Proof.
  unfold hex_value.
  destruct ((48 <=? c) && (c <=? 57)) eqn:E1.
  { intros H. inversion H; subst. bool_to_prop. lia. }
  destruct ((97 <=? c) && (c <=? 102)) eqn:E2.
  { intros H. inversion H; subst. bool_to_prop. lia. }
  destruct ((65 <=? c) && (c <=? 70)) eqn:E3; [| discriminate].
  intros H. inversion H; subst. bool_to_prop. lia.
Qed.

Lemma hex4_code_unit h1 h2 h3 h4 u :
  hex4 h1 h2 h3 h4 = Some u -> is_code_unit u = true.
Proof.
  unfold hex4.
  destruct (hex_value h1) as [a |] eqn:E1; [| discriminate].
  destruct (hex_value h2) as [b |] eqn:E2; [| discriminate].
  destruct (hex_value h3) as [c |] eqn:E3; [| discriminate].
  destruct (hex_value h4) as [d |] eqn:E4; [| discriminate].
  apply hex_value_range in E1, E2, E3, E4.
  intros H. inversion H; subst. unfold is_code_unit.
  apply andb_true_iff. split; [apply Z.leb_le | apply Z.ltb_lt]; lia.
Qed.

Lemma unescape_code_unit e u : unescape e = Some u -> is_code_unit u = true.
Proof.
  unfold unescape.
  repeat match goal with
         | |- context [e =? ?k] => destruct (e =? k)
         end; intros H; inversion H; reflexivity.
Qed.

Lemma parse_string_body_code_units s k r :
  parse_string_body s = Parsed k r ->
  Forall (fun u => is_code_unit u = true) s ->
  forallb is_code_unit k = true.
Proof.
  assert (H : forall n s k r, (List.length s <= n)%nat ->
             parse_string_body s = Parsed k r ->
             Forall (fun u => is_code_unit u = true) s ->
             forallb is_code_unit k = true).
  { clear s k r. induction n as [| n IH]; intros s k r Hn.
    - destruct s; [discriminate | cbn in Hn; lia].
    - destruct s as [| c rest]; [discriminate |]. cbn [parse_string_body].
      cbn [List.length] in Hn.
      destruct (c =? 34).
      { intros H _. now inversion H. }
      destruct (c =? 92).
      + destruct rest as [| e rest1]; [discriminate |]. cbn [List.length] in Hn.
        destruct (e =? 117).
        * destruct rest1 as [| h1 [| h2 [| h3 [| h4 rest2]]]]; try discriminate.
          destruct (hex4 h1 h2 h3 h4) as [u |] eqn:Hhex; [| discriminate].
          intros H Hs. apply mapP_Parsed in H as (k' & H & ->).
          cbn [forallb]. rewrite (hex4_code_unit _ _ _ _ _ Hhex).
          apply (IH rest2 k' r); [cbn in *; lia | exact H |].
          do 6 (apply Forall_inv_tail in Hs). exact Hs.
        * destruct (unescape e) as [u |] eqn:He; [| discriminate].
          intros H Hs. apply mapP_Parsed in H as (k' & H & ->).
          cbn [forallb]. rewrite (unescape_code_unit _ _ He).
          apply (IH rest1 k' r); [cbn in *; lia | exact H |].
          do 2 (apply Forall_inv_tail in Hs). exact Hs.
      + destruct (c <? 32); [discriminate |].
        intros H Hs. apply mapP_Parsed in H as (k' & H & ->).
        cbn [forallb]. rewrite (Forall_inv Hs).
        apply (IH rest k' r); [cbn in *; lia | exact H |].
        now apply Forall_inv_tail in Hs. }
  now apply (H (List.length s)).
Qed.

(** *** Numbers *)

Lemma strip_zeros_decimal l :
  forallb is_decimal_digit l = true -> forallb is_decimal_digit (strip_zeros l) = true.
Proof.
  induction l as [| a l IH]; cbn [strip_zeros forallb]; [auto |].
  intros H. apply andb_true_iff in H as [Ha Hl].
  destruct (a =? 0); [auto |]. cbn [forallb]. now rewrite Ha, Hl.
Qed.

Lemma strip_zeros_hd l d t : strip_zeros l = d :: t -> d <> 0.
Proof.
  induction l as [| a l IH]; cbn [strip_zeros]; [discriminate |].
  destruct (a =? 0) eqn:E; [auto |].
  intros H. inversion H; subst. now apply Z.eqb_neq.
Qed.

Lemma strip_zeros_snoc l d :
  d <> 0 -> exists l0, strip_zeros (l ++ [d]) = l0 ++ [d] /\ incl l0 l.
Proof.
  intros Hd. induction l as [| a l (l0 & E & Hi)]; cbn [app strip_zeros].
  - exists []. rewrite (proj2 (Z.eqb_neq d 0) Hd). split; [reflexivity | apply incl_refl].
  - destruct (a =? 0).
    + exists l0. split; [exact E | now apply incl_tl].
    + exists (a :: l). split; [reflexivity | apply incl_refl].
Qed.

(** The digits of a literal that start with one that is not zero are
    canonical once the zeros at their end are dropped. *)
Lemma canonical_digits_strip d t :
  d <> 0 -> forallb is_decimal_digit (d :: t) = true ->
  canonical_digits (rev (strip_zeros (rev (d :: t)))) = true.
Proof.
  intros Hd Hdigits. cbn [rev].
  destruct (strip_zeros_snoc (rev t) d Hd) as (l0 & E & Hi).
  pose proof E as E'. rewrite E, rev_unit.
  cbn [forallb] in Hdigits. apply andb_true_iff in Hdigits as [Hd' Ht].
  unfold canonical_digits. cbn [hd forallb]. rewrite Hd'.
  rewrite (proj2 (Z.eqb_neq d 0) Hd). cbn [negb andb].
  apply andb_true_iff. split.
  - rewrite andb_true_r. apply forallb_forall. intros x Hx.
    rewrite forallb_forall in Ht. apply Ht, in_rev, Hi, in_rev. exact Hx.
  - apply negb_true_iff, Z.eqb_neq.
    destruct l0 as [| x l0'].
    + cbn. exact Hd.
    + cbn [rev]. change (d :: rev l0' ++ [x]) with ((d :: rev l0') ++ [x]).
      rewrite last_last. cbn [app] in E'. now apply strip_zeros_hd in E'.
Qed.

(** *** Rounding gives Numbers of the language *)

Lemma number_eqb_refl x : number_eqb x x = true.
Proof.
  destruct x as [| a | a | a ds n]; cbn; auto using Bool.eqb_reflx.
  now rewrite Bool.eqb_reflx, (proj2 (jsstring_eqb_eq ds ds) eq_refl), Z.eqb_refl.
Qed.

Lemma names_inv c m e :
  names c m e = true ->
  canonical_digits (fst c) = true /\ round_decimal (fst c) (snd c) = Rounded m e.
Proof.
  unfold names. intros H. apply andb_true_iff in H as [Hcan H].
  split; [exact Hcan |].
  destruct (round_decimal (fst c) (snd c)) as [| | m' e']; try discriminate H.
  apply andb_true_iff in H as [Hm He].
  apply Z.eqb_eq in Hm, He. now subst.
Qed.

(** The digits found for a value round to it. *)
Lemma shortest_from_names fuel k num den n m e c :
  shortest_from fuel k num den n m e = Some c -> names c m e = true.
Proof.
  revert k. induction fuel as [| fuel IH]; intros k; cbn [shortest_from];
    [discriminate |].
  set (p := n - k).
  set (num' := if 0 <=? p then num else num * 10 ^ (- p)).
  set (den' := if 0 <=? p then den * 10 ^ p else den).
  destruct (names (candidate (num' / den') p) m e) eqn:Hlo,
           (names (candidate (num' / den' + 1) p) m e) eqn:Hhi.
  - destruct ((2 * (num' mod den') <? den')
              || (2 * (num' mod den') =? den') && Z.even (num' / den'));
      intros H; now inversion H; subst.
  - intros H. now inversion H; subst.
  - intros H. now inversion H; subst.
  - apply IH.
Qed.

(** Rounding a decimal gives a Number of the language, and rounding that
    one again changes nothing. *)
Lemma RoundMVResult_binary64 neg ds n :
  canonical_digits ds = true ->
  binary64 (RoundMVResult (Finite neg ds n)) = true
  /\ RoundMVResult (Finite neg ds n) <> NaN.
Proof.
  intros Hcan. cbn [RoundMVResult].
  destruct (round_decimal ds n) as [| | m e] eqn:Hround;
    [split; [reflexivity | discriminate] .. |].
  set (num := if 0 <=? e then m * 2 ^ e else m).
  set (den := if 0 <=? e then 1 else 2 ^ (- e)).
  destruct (shortest_from 17 1 num den (decimal_exponent num den) m e)
    as [[ds' n'] |] eqn:Hshort.
  - split; [| discriminate].
    pose proof (shortest_from_names _ _ _ _ _ _ _ _ Hshort) as Hnames.
    apply names_inv in Hnames as [Hcan' Hround'].
    cbn [fst snd] in Hcan', Hround'. cbn [binary64 RoundMVResult].
    rewrite Hcan', Hround'. fold num den. rewrite Hshort.
    apply number_eqb_refl.
  - split; [| discriminate].
    cbn [binary64 RoundMVResult]. rewrite Hcan, Hround. fold num den.
    rewrite Hshort. apply number_eqb_refl.
Qed.

Lemma RoundMVResult_idempotent x :
  binary64 x = true -> RoundMVResult x = x.
Proof.
  destruct x as [| neg | neg | neg ds n]; try reflexivity.
  intros H. now apply binary64_inv in H.
Qed.

Lemma make_number_proper neg int frac e :
  forallb is_decimal_digit (int ++ frac) = true ->
  from_json_number (make_number neg int frac e) = true.
Proof.
  intros Hdigits. unfold make_number, literal_value.
  destruct (strip_zeros (int ++ frac)) as [| d t] eqn:E; [reflexivity |].
  assert (Hcan : canonical_digits (rev (strip_zeros (rev (d :: t)))) = true).
  { apply canonical_digits_strip; [now apply strip_zeros_hd in E |].
    rewrite <- E. now apply strip_zeros_decimal. }
  match goal with
  | |- from_json_number (RoundMVResult (Finite ?neg ?ds ?n)) = true =>
      destruct (RoundMVResult_binary64 neg ds n Hcan) as [Hb Hnan];
      destruct (RoundMVResult (Finite neg ds n)); [congruence | exact Hb ..]
  end.
Qed.

Lemma parse_int_decimal s ds r :
  parse_int s = Parsed ds r -> forallb is_decimal_digit ds = true.
Proof.
  unfold parse_int. destruct s as [| c s]; [discriminate |].
  destruct (c =? 48); [intros H; now inversion H |].
  destruct (is_digit c); [| discriminate].
  pose proof (span_digits_consumed (c :: s)) as [_ H].
  destruct (span_digits (c :: s)). intros E. now inversion E; subst.
Qed.

Lemma parse_frac_decimal s ds r :
  parse_frac s = Parsed ds r -> forallb is_decimal_digit ds = true.
Proof.
  unfold parse_frac. destruct s as [| c s]; [intros H; now inversion H |].
  destruct (c =? 46); [| intros H; now inversion H].
  pose proof (span_digits_consumed s) as [_ H].
  destruct (span_digits s) as [[| d ds'] r']; [discriminate |].
  intros E. now inversion E; subst.
Qed.

Lemma parse_number_from_json s n r :
  parse_number s = Parsed n r -> from_json_number n = true.
Proof.
  unfold parse_number. destruct (parse_sign s) as [neg s1].
  unfold parse_unsigned. intros H.
  apply bindP_Parsed in H as (int & s2 & Hint & H).
  apply bindP_Parsed in H as (frac & s3 & Hfrac & H).
  apply bindP_Parsed in H as (e & s4 & _ & H).
  inversion H; subst. apply make_number_proper.
  rewrite forallb_app.
  now rewrite (parse_int_decimal _ _ _ Hint), (parse_frac_decimal _ _ _ Hfrac).
Qed.

(** *** Objects *)

Lemma obj_set_keys k v ps :
  map fst (obj_set k v ps)
  = if existsb (jsstring_eqb k) (map fst ps) then map fst ps else map fst ps ++ [k].
Proof.
  induction ps as [| [k' v'] ps IH]; [reflexivity |].
  cbn [obj_set map fst existsb]. destruct (jsstring_eqb k k'); [reflexivity |].
  cbn [map fst orb]. rewrite IH.
  now destruct (existsb (jsstring_eqb k) (map fst ps)).
Qed.

Lemma NoDup_snoc {A} (l : list A) (a : A) : NoDup l -> ~ In a l -> NoDup (l ++ [a]).
Proof.
  induction 1 as [| x l Hx Hl IH]; intros Ha; cbn [app].
  - constructor; [auto | constructor].
  - constructor.
    + rewrite in_app_iff. intros [H | [H | []]]; [auto | subst; apply Ha; now left].
    + apply IH. intros H. apply Ha. now right.
Qed.

Lemma obj_set_NoDup k v ps : NoDup (map fst ps) -> NoDup (map fst (obj_set k v ps)).
Proof.
  intros H. rewrite obj_set_keys.
  destruct (existsb (jsstring_eqb k) (map fst ps)) eqn:E; [assumption |].
  apply NoDup_snoc; [assumption |].
  intros Hin. apply existsb_jsstring_eqb in Hin. congruence.
Qed.

Lemma obj_set_Forall (P : jsstring -> value -> Prop) k v ps :
  P k v -> Forall (fun p => P (fst p) (snd p)) ps ->
  Forall (fun p => P (fst p) (snd p)) (obj_set k v ps).
Proof.
  intros Hkv. induction 1 as [| [k' v'] ps Hp Hps IH]; cbn [obj_set].
  - now repeat constructor.
  - destruct (jsstring_eqb k k') eqn:E.
    + apply jsstring_eqb_eq in E. subst k'.
      constructor; [exact Hkv | exact Hps].
    + constructor; [exact Hp | exact IH].
Qed.

Lemma obj_of_members_invariant (P : jsstring -> value -> Prop) ms :
  Forall (fun p => P (fst p) (snd p)) ms ->
  Forall (fun p => P (fst p) (snd p)) (obj_of_members ms)
  /\ NoDup (map fst (obj_of_members ms)).
Proof.
  unfold obj_of_members.
  assert (H : forall acc,
             Forall (fun p => P (fst p) (snd p)) acc -> NoDup (map fst acc) ->
             Forall (fun p => P (fst p) (snd p)) ms ->
             Forall (fun p => P (fst p) (snd p))
               (fold_left (fun o m => obj_set (fst m) (snd m) o) ms acc)
             /\ NoDup (map fst (fold_left (fun o m => obj_set (fst m) (snd m) o) ms acc))).
  { induction ms as [| m ms IH]; intros acc Hacc Hnd Hms; cbn [fold_left]; [auto |].
    inversion Hms; subst.
    apply IH; auto using obj_set_Forall, obj_set_NoDup. }
  intros Hms. apply H; [constructor | constructor | assumption].
Qed.

(** *** Values *)

Lemma skip_ws_Forall (P : Z -> Prop) s c rest :
  skip_ws s = c :: rest -> Forall P s -> Forall P rest.
Proof.
  intros H Hs. apply skip_ws_split in H as (ws & -> & _ & _).
  apply Forall_app in Hs as [_ Hs]. now inversion Hs.
Qed.

Lemma parse_value_rest_Forall (P : Z -> Prop) fuel s v r :
  parse_value fuel s = Parsed v r -> Forall P s -> Forall P r.
Proof.
  intros H Hs. apply parse_consumed in H as (consumed & -> & _).
  now apply Forall_app in Hs.
Qed.

Lemma parse_string_body_rest_Forall (P : Z -> Prop) s k r :
  parse_string_body s = Parsed k r -> Forall P s -> Forall P r.
Proof.
  intros H Hs. apply parse_string_body_consumed in H as (body & -> & _).
  apply Forall_app in Hs as [_ Hs]. now inversion Hs.
Qed.

Lemma parse_from_json :
  forall fuel,
    (forall s v r, parse_value fuel s = Parsed v r ->
       Forall (fun u => is_code_unit u = true) s -> from_json v = true)
    /\ (forall s l r, parse_elements fuel s = Parsed l r ->
          Forall (fun u => is_code_unit u = true) s -> forallb from_json l = true)
    /\ (forall s ms r, parse_members fuel s = Parsed ms r ->
          Forall (fun u => is_code_unit u = true) s ->
          Forall (fun p => forallb is_code_unit (fst p) = true
                           /\ from_json (snd p) = true) ms).
Proof.
  induction fuel as [| fuel (IHv & IHe & IHm)];
    [repeat split; intros; discriminate |].
  repeat split.
  - intros s v r. rewrite parse_value_S.
    destruct (skip_ws s) as [| c rest] eqn:Hs; [discriminate |].
    intros H Hcu. pose proof (skip_ws_Forall _ _ _ _ Hs Hcu) as Hrest.
    assert (Hc : is_code_unit c = true).
    { apply skip_ws_split in Hs as (ws & -> & _ & _).
      apply Forall_app in Hcu as [_ Hcu]. now inversion Hcu. }
    destruct (c =? 123).
    { destruct (skip_ws rest) as [| c' rest'] eqn:Hr; [discriminate |].
      destruct (c' =? 125); [now inversion H |].
      apply mapP_Parsed in H as (ms & H & ->).
      assert (Hcu' : Forall (fun u => is_code_unit u = true) (c' :: rest')).
      { apply skip_ws_split in Hr as (ws & -> & _ & _).
        now apply Forall_app in Hrest. }
      apply IHm in H; [| exact Hcu'].
      destruct (obj_of_members_invariant
                  (fun k v => forallb is_code_unit k = true /\ from_json v = true)
                  ms H) as [Hall Hnd].
      cbn [from_json]. apply andb_true_iff. split.
      - apply forallb_forall. intros p Hp. rewrite Forall_forall in Hall.
        destruct (Hall p Hp) as [H1 H2]. apply andb_true_iff. now split.
      - now apply distinct_keys_NoDup. }
    destruct (c =? 91).
    { destruct (skip_ws rest) as [| c' rest'] eqn:Hr; [discriminate |].
      destruct (c' =? 93); [now inversion H |].
      apply mapP_Parsed in H as (l & H & ->).
      assert (Hcu' : Forall (fun u => is_code_unit u = true) (c' :: rest')).
      { apply skip_ws_split in Hr as (ws & -> & _ & _).
        now apply Forall_app in Hrest. }
      now apply IHe in H. }
    destruct (c =? 34).
    { apply mapP_Parsed in H as (k & H & ->).
      now apply parse_string_body_code_units in H. }
    destruct (c =? 116).
    { apply parse_literal_consumed in H as (_ & -> & _). reflexivity. }
    destruct (c =? 102).
    { apply parse_literal_consumed in H as (_ & -> & _). reflexivity. }
    destruct (c =? 110).
    { apply parse_literal_consumed in H as (_ & -> & _). reflexivity. }
    apply mapP_Parsed in H as (n & H & ->).
    now apply parse_number_from_json in H.
  - intros s l r. rewrite parse_elements_S. intros H Hcu.
    apply bindP_Parsed in H as (v & rest & Hv & H).
    pose proof (parse_value_rest_Forall _ _ _ _ _ Hv Hcu) as Hrest.
    apply IHv in Hv; [| exact Hcu].
    destruct (skip_ws rest) as [| c rest'] eqn:Hr; [discriminate |].
    pose proof (skip_ws_Forall _ _ _ _ Hr Hrest) as Hrest'.
    destruct (c =? 44).
    + apply mapP_Parsed in H as (l' & H & ->).
      apply IHe in H; [| exact Hrest']. cbn [forallb]. now rewrite Hv, H.
    + destruct (c =? 93); [| discriminate]. inversion H; subst.
      cbn [forallb]. now rewrite Hv.
  - intros s ms r. rewrite parse_members_S.
    destruct (skip_ws s) as [| q rest0] eqn:Hs; [discriminate |].
    destruct (q =? 34); [| discriminate]. intros H Hcu.
    pose proof (skip_ws_Forall _ _ _ _ Hs Hcu) as H0.
    apply bindP_Parsed in H as (k & rest1 & Hk & H).
    pose proof (parse_string_body_rest_Forall _ _ _ _ Hk H0) as H1.
    apply parse_string_body_code_units in Hk; [| exact H0].
    destruct (skip_ws rest1) as [| colon rest2] eqn:Hr1; [discriminate |].
    pose proof (skip_ws_Forall _ _ _ _ Hr1 H1) as H2.
    destruct (colon =? 58); [| discriminate].
    apply bindP_Parsed in H as (v & rest3 & Hv & H).
    pose proof (parse_value_rest_Forall _ _ _ _ _ Hv H2) as H3.
    apply IHv in Hv; [| exact H2].
    destruct (skip_ws rest3) as [| c rest4] eqn:Hr3; [discriminate |].
    pose proof (skip_ws_Forall _ _ _ _ Hr3 H3) as H4.
    destruct (c =? 44).
    + apply mapP_Parsed in H as (ms' & H & ->).
      apply IHm in H; [| exact H4]. constructor; auto.
    + destruct (c =? 125); [| discriminate]. inversion H; subst.
      constructor; auto.
Qed.

Lemma from_json_proper v : from_json v = true -> proper_value v = true.
Proof.
  induction v as [| | b | x | s | l IH | ps IH] using value_ind;
    cbn [from_json proper_value]; try reflexivity; auto.
  - destruct x; cbn; auto.
  - intros H. rewrite forallb_forall in *. rewrite Forall_forall in IH. auto.
  - intros H. apply andb_true_iff in H as [H ->]. rewrite andb_true_r.
    rewrite forallb_forall in *. rewrite Forall_forall in IH.
    intros p Hp. specialize (H p Hp). apply andb_true_iff in H as [-> H].
    cbn [andb]. auto.
Qed.

(** What [JSON.parse] returns for a decoded text. *)
Lemma JSON_parse_from_json data v :
  JSON_parse (TextDecoder_decode data) = Returned v -> from_json v = true.
Proof.
  intros H. apply JSON_parse_Returned in H as (r & H & _).
  apply (proj1 (parse_from_json _)) in H; [exact H |].
  apply TextDecoder_decode_code_units.
Qed.

(** * Repeated keys and misplaced byte order marks *)

(** *** An object text with repeated keys *)

Lemma lookup_obj_set k k' v ps :
  lookup k (obj_set k' v ps) = if jsstring_eqb k k' then Some v else lookup k ps.
Proof.
  induction ps as [| [k0 v0] ps IH]; [reflexivity |].
  cbn [obj_set]. destruct (jsstring_eqb k' k0) eqn:E.
  - apply jsstring_eqb_eq in E. subst k0. cbn [lookup].
    now destruct (jsstring_eqb k k').
  - cbn [lookup]. rewrite IH.
    destruct (jsstring_eqb k k0) eqn:E0; [| reflexivity].
    destruct (jsstring_eqb k k') eqn:E1; [| reflexivity].
    apply jsstring_eqb_eq in E0, E1. subst.
    assert (jsstring_eqb k0 k0 = true) by now apply jsstring_eqb_eq.
    congruence.
Qed.

Lemma lookup_app k a b :
  lookup k (a ++ b) = match lookup k a with Some v => Some v | None => lookup k b end.
Proof.
  induction a as [| [k0 v0] a IH]; [reflexivity |].
  cbn [app lookup]. now destruct (jsstring_eqb k k0).
Qed.

(** In the object read from members, a key has the value of its last
    member. *)
Lemma lookup_obj_of_members k ms : lookup k (obj_of_members ms) = lookup k (rev ms).
Proof.
  unfold obj_of_members.
  assert (H : forall acc,
             lookup k (fold_left (fun o m => obj_set (fst m) (snd m) o) ms acc)
             = match lookup k (rev ms) with
               | Some v => Some v
               | None => lookup k acc
               end).
  { induction ms as [| [k0 v0] ms IH]; intros acc; [reflexivity |].
    cbn [fold_left rev fst snd]. rewrite IH, lookup_app, lookup_obj_set.
    cbn [lookup]. destruct (lookup k (rev ms)); [reflexivity |].
    now destruct (jsstring_eqb k k0). }
  rewrite H. now destruct (lookup k (rev ms)).
Qed.

Lemma well_formed_object_text ms :
  Forall (fun p => forallb is_code_unit (fst p) = true /\ json_value (snd p) = true) ms ->
  well_formed (object_text ms).
Proof.
  intros Hms. unfold object_text. norm_lit.
  repeat apply well_formed_app; try (apply well_formed_char; lia).
  apply well_formed_join; [apply well_formed_char; lia |].
  apply Forall_map. eapply Forall_impl; [| exact Hms].
  intros p [Hk Hv]. unfold member_text. norm_lit.
  repeat apply well_formed_app; auto using well_formed_text_of.
  - apply well_formed_QuoteJSONString, Forall_forall. now apply forallb_forall.
  - apply well_formed_char; lia.
Qed.

(** [JSON.parse] on an object text: a repeated key is no error. *)
Lemma JSON_parse_object_text ms :
  Forall (fun p => forallb is_code_unit (fst p) = true /\ json_value (snd p) = true) ms ->
  JSON_parse (object_text ms) = Returned (VObject (obj_of_members ms)).
Proof.
  intros Hms. destruct ms as [| p ps']; [reflexivity |].
  assert (Hall : Forall (fun p => forallb is_code_unit (fst p) = true
                                  /\ json_value (snd p) = true
                                  /\ exists f0, reads_back (snd p) f0) (p :: ps')).
  { eapply Forall_impl; [| exact Hms]. intros q [Hk Hv]. auto using parse_text_of. }
  destruct (parse_members_texts (p :: ps') ltac:(discriminate) Hall) as (f0 & Hread).
  assert (Hparse : forall fuel, (S f0 <= fuel)%nat ->
             parse_value fuel (object_text (p :: ps'))
             = Parsed (VObject (obj_of_members (p :: ps'))) []).
  { intros fuel Hfuel. destruct fuel as [| fuel]; [lia |].
    unfold object_text. norm_lit. cbn [app].
    rewrite parse_value_S, skip_ws_cons by reflexivity.
    replace (123 =? 123) with true by reflexivity.
    pose proof (Hread fuel [] ltac:(lia)) as Hmembers.
    assert (Hjoin : exists t', join [44] (map member_text (p :: ps')) = 34 :: t').
    { cbn [map]. destruct (map member_text ps'); cbn [join];
        unfold member_text, QuoteJSONString; cbn [app]; eauto. }
    destruct Hjoin as (t' & Hjoin). rewrite Hjoin in *. cbn [app] in *.
    rewrite skip_ws_cons by reflexivity.
    replace (34 =? 125) with false by reflexivity.
    now rewrite Hmembers. }
  remember (object_text (p :: ps')) as text eqn:Etext in *. clear Etext.
  pose proof (JSON_parse_fuel text) as Hfuel.
  pose proof (Hparse (Nat.max (parse_fuel text) (S f0)) ltac:(lia)) as Hmax.
  rewrite (parse_value_more_fuel (parse_fuel text) _ text (Nat.le_max_l _ _) Hfuel)
    in Hmax.
  unfold JSON_parse. now rewrite Hmax.
Qed.

Lemma TextDecoder_TextEncoder_object_text ms :
  Forall (fun p => forallb is_code_unit (fst p) = true /\ json_value (snd p) = true) ms ->
  TextDecoder_decode (TextEncoder_encode (Some (object_text ms))) = object_text ms.
Proof.
  intros Hms. apply TextDecoder_TextEncoder; [now apply well_formed_object_text |].
  unfold object_text. norm_lit. cbn. unfold BOM. lia.
Qed.

(** *** A byte order mark that is not dropped *)

Lemma JSON_parse_bom w t :
  forallb is_ws w = true -> JSON_parse (w ++ BOM :: t) = Thrown SyntaxErrorExn.
Proof.
  intros Hw. rewrite JSON_parse_ws_prefix by assumption.
  unfold JSON_parse. destruct (parse_fuel (BOM :: t)) as [| fuel]; [reflexivity |].
  rewrite parse_value_S. reflexivity.
Qed.

(** * The decoder follows the rule of replacement *)

(** ** The sequences the encoder writes *)

Lemma div_mod_64 a x : 0 <= x < 64 -> (a * 64 + x) / 64 = a /\ (a * 64 + x) mod 64 = x.
Proof.
  intros Hx. split.
  - symmetry. apply (Z.div_unique _ _ _ x); lia.
  - symmetry. apply (Z.mod_unique _ _ a); lia.
Qed.

Lemma utf8_encode_1 c :
  0 <= c <= 0x7F -> utf8_encode_code_point c = [c] /\ is_scalar c = true.
Proof.
  intros Hc. split; [| scalar_by_range].
  unfold utf8_encode_code_point. now decide_tests.
Qed.

Lemma utf8_encode_2 a x :
  2 <= a < 32 -> 0 <= x < 64 ->
  utf8_encode_code_point (a * 64 + x) = [a + 192; 128 + x]
  /\ is_scalar (a * 64 + x) = true.
Proof.
  intros Ha Hx. split; [| scalar_by_range].
  unfold utf8_encode_code_point. decide_tests.
  rewrite shiftr_6, land_0x3F.
  destruct (div_mod_64 a x Hx) as [-> ->].
  now rewrite lor_0x80 by lia.
Qed.

Lemma utf8_encode_3 a x y :
  0 <= a < 16 -> 0 <= x < 64 -> 0 <= y < 64 ->
  (a = 0 -> 32 <= x) -> (a = 13 -> x < 32) ->
  utf8_encode_code_point ((a * 64 + x) * 64 + y) = [a + 224; 128 + x; 128 + y]
  /\ is_scalar ((a * 64 + x) * 64 + y) = true.
Proof.
  intros Ha Hx Hy Hlow Hhigh. split; [| scalar_by_range].
  unfold utf8_encode_code_point. decide_tests.
  rewrite shiftr_12_nested, shiftr_6, !land_0x3F.
  destruct (div_mod_64 (a * 64 + x) y Hy) as [-> ->].
  destruct (div_mod_64 a x Hx) as [-> ->].
  now rewrite !lor_0x80 by lia.
Qed.

Lemma utf8_encode_4 a x y z :
  0 <= a <= 4 -> 0 <= x < 64 -> 0 <= y < 64 -> 0 <= z < 64 ->
  (a = 0 -> 16 <= x) -> (a = 4 -> x < 16) ->
  utf8_encode_code_point (((a * 64 + x) * 64 + y) * 64 + z)
  = [a + 240; 128 + x; 128 + y; 128 + z]
  /\ is_scalar (((a * 64 + x) * 64 + y) * 64 + z) = true.
Proof.
  intros Ha Hx Hy Hz Hlow Hhigh. split; [| scalar_by_range].
  unfold utf8_encode_code_point. decide_tests.
  rewrite shiftr_18_nested, shiftr_12_nested, shiftr_6, !land_0x3F.
  destruct (div_mod_64 ((a * 64 + x) * 64 + y) z Hz) as [-> ->].
  destruct (div_mod_64 (a * 64 + x) y Hy) as [-> ->].
  destruct (div_mod_64 a x Hx) as [-> ->].
  now rewrite !lor_0x80 by lia.
Qed.

Lemma sequence_shapes s :
  well_formed_sequence s -> shape1 s \/ shape2 s \/ shape3 s \/ shape4 s.
Proof.
  intros (c & Hc & ->).
  unfold is_scalar, is_surrogate in Hc.
  apply andb_true_iff in Hc as [Hc Hs]. apply negb_true_iff in Hs.
  assert (Hsur : c < 0xD800 \/ 0xDFFF < c)
    by (apply andb_false_iff in Hs; destruct Hs; bool_to_prop; lia).
  clear Hs. bool_to_prop.
  destruct (Z_le_dec c 0x7F) as [H1 | H1].
  { left. exists c. split; [now apply utf8_encode_1 | lia]. }
  destruct (Z_le_dec c 0x7FF) as [H2 | H2].
  { right; left. split_base64 c a x E B. exists a, x.
    split; [| lia]. replace c with (a * 64 + x) by lia.
    apply utf8_encode_2; lia. }
  destruct (Z_le_dec c 0xFFFF) as [H3 | H3].
  { right; right; left. split_base64 c q y E B. split_base64 q a x E' B'.
    exists a, x, y.
    split; [| lia]. replace c with ((a * 64 + x) * 64 + y) by lia.
    apply utf8_encode_3; lia. }
  right; right; right. split_base64 c q z E B. split_base64 q r y E' B'.
  split_base64 r a x E'' B''. exists a, x, y, z.
  split; [| lia]. replace c with (((a * 64 + x) * 64 + y) * 64 + z) by lia.
  apply utf8_encode_4; lia.
Qed.

Lemma well_formed_sequence_2 a x :
  2 <= a < 32 -> 0 <= x < 64 -> well_formed_sequence [a + 192; 128 + x].
Proof.
  intros Ha Hx. destruct (utf8_encode_2 a x Ha Hx) as [E Hs].
  exists (a * 64 + x). auto.
Qed.

Lemma well_formed_sequence_3 a x y :
  0 <= a < 16 -> 0 <= x < 64 -> 0 <= y < 64 ->
  (a = 0 -> 32 <= x) -> (a = 13 -> x < 32) ->
  well_formed_sequence [a + 224; 128 + x; 128 + y].
Proof.
  intros Ha Hx Hy Hlow Hhigh.
  destruct (utf8_encode_3 a x y Ha Hx Hy Hlow Hhigh) as [E Hs].
  exists ((a * 64 + x) * 64 + y). auto.
Qed.

Lemma well_formed_sequence_4 a x y z :
  0 <= a <= 4 -> 0 <= x < 64 -> 0 <= y < 64 -> 0 <= z < 64 ->
  (a = 0 -> 16 <= x) -> (a = 4 -> x < 16) ->
  well_formed_sequence [a + 240; 128 + x; 128 + y; 128 + z].
Proof.
  intros Ha Hx Hy Hz Hlow Hhigh.
  destruct (utf8_encode_4 a x y z Ha Hx Hy Hz Hlow Hhigh) as [E Hs].
  exists (((a * 64 + x) * 64 + y) * 64 + z). auto.
Qed.

(** ** Starts of sequences *)

(** A byte that begins no sequence. *)
Lemma replaced_lone b rest :
  b < 0 \/ 0x7F < b -> b < 0xC2 \/ 0xF4 < b -> replaced_part [b] rest.
Proof.
  intros Hb Hb'. split; [| split].
  - intros s t Hs E.
    by_shape sequence_shapes Hs; subst s; cbn [app] in E; list_eq E; lia.
  - right. exists b. split; [reflexivity |].
    intros [_ (t & Ht & Hs)].
    by_shape sequence_shapes Hs; cbn [app] in Hs; list_eq Hs; lia.
  - intros b' r _ [_ (t & Ht & Hs)].
    by_shape sequence_shapes Hs; cbn [app] in Hs; list_eq Hs; lia.
Qed.

(** The lead of two bytes, and no continuation byte after it. *)
Lemma replaced_lead2 a rest :
  2 <= a < 32 ->
  (forall b r, rest = b :: r -> b < 0x80 \/ 0xBF < b) ->
  replaced_part [a + 192] rest.
Proof.
  intros Ha Hstop. split; [| split].
  - intros s t Hs E.
    destruct rest as [| b r]; [| specialize (Hstop _ _ eq_refl)];
      by_shape sequence_shapes Hs; subst s; cbn [app] in E; list_eq E; lia.
  - left. split; [discriminate |]. exists [128 + 0]. split; [discriminate |].
    apply (well_formed_sequence_2 a 0); lia.
  - intros b r -> [_ (t & Ht & Hs)]. specialize (Hstop _ _ eq_refl).
    by_shape sequence_shapes Hs; cbn [app] in Hs; list_eq Hs; try lia; congruence.
Qed.

(** The lead of three bytes, and no second byte of its sequences after
    it. *)
Lemma replaced_lead3 a rest :
  0 <= a < 16 ->
  (forall b r, rest = b :: r ->
     b < 0x80 \/ 0xBF < b \/ (a = 0 /\ b < 0xA0) \/ (a = 13 /\ 0x9F < b)) ->
  replaced_part [a + 224] rest.
Proof.
  intros Ha Hstop. split; [| split].
  - intros s t Hs E.
    destruct rest as [| b r]; [| specialize (Hstop _ _ eq_refl)];
      by_shape sequence_shapes Hs; subst s; cbn [app] in E; list_eq E; lia.
  - left. split; [discriminate |].
    exists [128 + (if a =? 0 then 32 else 0); 128 + 0]. split; [discriminate |].
    apply (well_formed_sequence_3 a (if a =? 0 then 32 else 0) 0);
      destruct (Z.eqb_spec a 0); lia.
  - intros b r -> [_ (t & Ht & Hs)]. specialize (Hstop _ _ eq_refl).
    by_shape sequence_shapes Hs; cbn [app] in Hs; list_eq Hs; try lia; congruence.
Qed.

(** Two bytes of a sequence of three, and no continuation byte after
    them. *)
Lemma replaced_lead3_second a x rest :
  0 <= a < 16 -> 0 <= x < 64 -> (a = 0 -> 32 <= x) -> (a = 13 -> x < 32) ->
  (forall b r, rest = b :: r -> b < 0x80 \/ 0xBF < b) ->
  replaced_part [a + 224; 128 + x] rest.
Proof.
  intros Ha Hx Hlow Hhigh Hstop. split; [| split].
  - intros s t Hs E.
    destruct rest as [| b r]; [| specialize (Hstop _ _ eq_refl)];
      by_shape sequence_shapes Hs; subst s; cbn [app] in E; list_eq E; lia.
  - left. split; [discriminate |]. exists [128 + 0]. split; [discriminate |].
    apply (well_formed_sequence_3 a x 0); lia.
  - intros b r -> [_ (t & Ht & Hs)]. specialize (Hstop _ _ eq_refl).
    by_shape sequence_shapes Hs; cbn [app] in Hs; list_eq Hs; try lia; congruence.
Qed.

(** The lead of four bytes, and no second byte of its sequences after
    it. *)
Lemma replaced_lead4 a rest :
  0 <= a <= 4 ->
  (forall b r, rest = b :: r ->
     b < 0x80 \/ 0xBF < b \/ (a = 0 /\ b < 0x90) \/ (a = 4 /\ 0x8F < b)) ->
  replaced_part [a + 240] rest.
Proof.
  intros Ha Hstop. split; [| split].
  - intros s t Hs E.
    destruct rest as [| b r]; [| specialize (Hstop _ _ eq_refl)];
      by_shape sequence_shapes Hs; subst s; cbn [app] in E; list_eq E; lia.
  - left. split; [discriminate |].
    exists [128 + (if a =? 0 then 16 else 0); 128 + 0; 128 + 0].
    split; [discriminate |].
    apply (well_formed_sequence_4 a (if a =? 0 then 16 else 0) 0 0);
      destruct (Z.eqb_spec a 0); lia.
  - intros b r -> [_ (t & Ht & Hs)]. specialize (Hstop _ _ eq_refl).
    by_shape sequence_shapes Hs; cbn [app] in Hs; list_eq Hs; try lia; congruence.
Qed.

Lemma replaced_lead4_second a x rest :
  0 <= a <= 4 -> 0 <= x < 64 -> (a = 0 -> 16 <= x) -> (a = 4 -> x < 16) ->
  (forall b r, rest = b :: r -> b < 0x80 \/ 0xBF < b) ->
  replaced_part [a + 240; 128 + x] rest.
Proof.
  intros Ha Hx Hlow Hhigh Hstop. split; [| split].
  - intros s t Hs E.
    destruct rest as [| b r]; [| specialize (Hstop _ _ eq_refl)];
      by_shape sequence_shapes Hs; subst s; cbn [app] in E; list_eq E; lia.
  - left. split; [discriminate |]. exists [128 + 0; 128 + 0].
    split; [discriminate |].
    apply (well_formed_sequence_4 a x 0 0); lia.
  - intros b r -> [_ (t & Ht & Hs)]. specialize (Hstop _ _ eq_refl).
    by_shape sequence_shapes Hs; cbn [app] in Hs; list_eq Hs; try lia; congruence.
Qed.

Lemma replaced_lead4_third a x y rest :
  0 <= a <= 4 -> 0 <= x < 64 -> 0 <= y < 64 ->
  (a = 0 -> 16 <= x) -> (a = 4 -> x < 16) ->
  (forall b r, rest = b :: r -> b < 0x80 \/ 0xBF < b) ->
  replaced_part [a + 240; 128 + x; 128 + y] rest.
Proof.
  intros Ha Hx Hy Hlow Hhigh Hstop. split; [| split].
  - intros s t Hs E.
    destruct rest as [| b r]; [| specialize (Hstop _ _ eq_refl)];
      by_shape sequence_shapes Hs; subst s; cbn [app] in E; list_eq E; lia.
  - left. split; [discriminate |]. exists [128 + 0]. split; [discriminate |].
    apply (well_formed_sequence_4 a x y 0); lia.
  - intros b r -> [_ (t & Ht & Hs)]. specialize (Hstop _ _ eq_refl).
    by_shape sequence_shapes Hs; cbn [app] in Hs; list_eq Hs; try lia; congruence.
Qed.

(** ** The decoder inside a sequence *)

(** A byte outside the bounds of the state in the middle of a sequence, or
    the end of the input there: U+FFFD is written, and the byte is read
    again as the first of a sequence. *)
Lemma utf8_decode_broken st rest :
  bytes_needed st <> 0 ->
  (forall b r, rest = b :: r -> b < lower_boundary st \/ upper_boundary st < b) ->
  utf8_decode_from st rest = REPLACEMENT :: utf8_decode_from utf8_initial rest.
Proof.
  intros Hn Hstop. destruct rest as [| b r].
  - cbn [utf8_decode_from utf8_initial bytes_needed].
    now replace (bytes_needed st =? 0) with false by (symmetry; now apply Z.eqb_neq).
  - specialize (Hstop b r eq_refl).
    rewrite (utf8_decode_from_cons st).
    replace (utf8_handler st b) with DecodeErrorRestore.
    { now rewrite utf8_decode_restore. }
    unfold utf8_handler.
    replace (bytes_needed st =? 0) with false by (symmetry; now apply Z.eqb_neq).
    destruct (Z.ltb_spec b (lower_boundary st)); [reflexivity |].
    destruct (Z.ltb_spec (upper_boundary st) b); [reflexivity | lia].
Qed.

(** What comes after the bytes taken so far: a byte within the bounds, or
    none. *)
Lemma next_byte_cases lo hi rest :
  0x80 <= lo -> hi <= 0xBF ->
  (forall b r, rest = b :: r -> b < lo \/ hi < b)
  \/ exists x r, rest = (128 + x) :: r /\ 0 <= x < 64 /\ lo <= 128 + x <= hi.
Proof.
  intros Hlo Hhi. destruct rest as [| b r]; [left; discriminate |].
  destruct (Z_lt_dec b lo); [left; intros ? ? E; list_eq E; lia |].
  destruct (Z_lt_dec hi b); [left; intros ? ? E; list_eq E; lia |].
  right. exists (b - 128), r.
  split; [f_equal; lia | lia].
Qed.

(** The first bytes that are an error are those that begin no sequence. *)
Lemma utf8_handler_initial_error b :
  utf8_handler utf8_initial b = DecodeError -> b < 0xC2 \/ 0xF4 < b.
Proof.
  intros Herr.
  destruct (Z_lt_dec b 0xC2); [now left |].
  destruct (Z_lt_dec 0xF4 b); [now right |]. exfalso.
  assert (H : 0xC2 <= b <= 0xDF \/ 0xE0 <= b <= 0xEF \/ 0xF0 <= b <= 0xF4) by lia.
  destruct H as [H | [H | H]].
  - replace b with ((b - 192) + 192) in Herr by lia.
    rewrite utf8_handler_lead2 in Herr by lia. discriminate Herr.
  - replace b with ((b - 224) + 224) in Herr by lia.
    rewrite utf8_handler_lead3 in Herr by lia. discriminate Herr.
  - replace b with ((b - 240) + 240) in Herr by lia.
    rewrite utf8_handler_lead4 in Herr by lia. discriminate Herr.
Qed.

(** One step of the decoder from between two sequences: it takes a
    well-formed sequence and writes its scalar value, or it takes the part
    to replace and writes U+FFFD. *)
Lemma utf8_decode_step_reads b rest :
  exists c taken rest',
    b :: rest = taken ++ rest'
    /\ taken <> []
    /\ utf8_decode_from utf8_initial (b :: rest)
       = c :: utf8_decode_from utf8_initial rest'
    /\ ((is_scalar c = true /\ taken = utf8_encode_code_point c)
        \/ (c = REPLACEMENT /\ replaced_part taken rest')).
Proof.
  destruct (utf8_handler_initial_cases b)
    as [Hb | [(a & -> & Ha) | [(a & -> & Ha) | [(a & -> & Ha) | [Hb Herr]]]]].
  - scalar_step b [b] rest.
    + now rewrite utf8_decode_from_cons, utf8_handler_ascii by lia.
    + destruct (utf8_encode_1 b Hb) as [-> ->]. auto.
  - destruct (next_byte_cases 0x80 0xBF rest)
      as [Hstop | (x & r2 & -> & Hx & Hr)]; try lia.
    + replaced_step [a + 192] rest.
      * rewrite utf8_decode_from_cons, utf8_handler_lead2 by lia.
        now apply utf8_decode_broken.
      * now apply replaced_lead2.
    + scalar_step (a * 64 + x) [a + 192; 128 + x] r2.
      * now apply utf8_decode_two.
      * destruct (utf8_encode_2 a x Ha Hx) as [-> ->]. auto.
  - set (lo := if a =? 0 then 0xA0 else 0x80).
    set (hi := if a =? 13 then 0x9F else 0xBF).
    assert (Hlo : (a = 0 /\ lo = 0xA0) \/ (a <> 0 /\ lo = 0x80))
      by (subst lo; destruct (Z.eqb_spec a 0); lia).
    assert (Hhi : (a = 13 /\ hi = 0x9F) \/ (a <> 13 /\ hi = 0xBF))
      by (subst hi; destruct (Z.eqb_spec a 13); lia).
    destruct (next_byte_cases lo hi rest)
      as [Hstop | (x & r2 & -> & Hx & Hr)]; try lia.
    { replaced_step [a + 224] rest.
      - rewrite utf8_decode_from_cons, utf8_handler_lead3 by lia.
        apply utf8_decode_broken; [cbn; lia | exact Hstop].
      - apply replaced_lead3; [lia |].
        intros b r E. specialize (Hstop b r E). lia. }
    destruct (next_byte_cases 0x80 0xBF r2)
      as [Hstop | (y & r3 & -> & Hy & Hr')]; try lia.
    { replaced_step [a + 224; 128 + x] r2.
      - rewrite utf8_decode_from_cons, utf8_handler_lead3 by lia.
        rewrite utf8_decode_from_cons, utf8_handler_continuation by (fold lo hi; lia).
        change (0 + 1 =? 2) with false. cbv iota.
        now apply utf8_decode_broken.
      - apply replaced_lead3_second; try lia. exact Hstop. }
    scalar_step ((a * 64 + x) * 64 + y) [a + 224; 128 + x; 128 + y] r3.
    + apply utf8_decode_three; lia.
    + destruct (utf8_encode_3 a x y) as [-> ->]; auto; lia.
  - set (lo := if a =? 0 then 0x90 else 0x80).
    set (hi := if a =? 4 then 0x8F else 0xBF).
    assert (Hlo : (a = 0 /\ lo = 0x90) \/ (a <> 0 /\ lo = 0x80))
      by (subst lo; destruct (Z.eqb_spec a 0); lia).
    assert (Hhi : (a = 4 /\ hi = 0x8F) \/ (a <> 4 /\ hi = 0xBF))
      by (subst hi; destruct (Z.eqb_spec a 4); lia).
    destruct (next_byte_cases lo hi rest)
      as [Hstop | (x & r2 & -> & Hx & Hr)]; try lia.
    { replaced_step [a + 240] rest.
      - rewrite utf8_decode_from_cons, utf8_handler_lead4 by lia.
        apply utf8_decode_broken; [cbn; lia | exact Hstop].
      - apply replaced_lead4; [lia |].
        intros b r E. specialize (Hstop b r E). lia. }
    destruct (next_byte_cases 0x80 0xBF r2)
      as [Hstop | (y & r3 & -> & Hy & Hr')]; try lia.
    { replaced_step [a + 240; 128 + x] r2.
      - rewrite utf8_decode_from_cons, utf8_handler_lead4 by lia.
        rewrite utf8_decode_from_cons, utf8_handler_continuation by (fold lo hi; lia).
        change (0 + 1 =? 3) with false. cbv iota.
        now apply utf8_decode_broken.
      - apply replaced_lead4_second; try lia. exact Hstop. }
    destruct (next_byte_cases 0x80 0xBF r3)
      as [Hstop | (z & r4 & -> & Hz & Hr'')]; try lia.
    { replaced_step [a + 240; 128 + x; 128 + y] r3.
      - rewrite utf8_decode_from_cons, utf8_handler_lead4 by lia.
        rewrite utf8_decode_from_cons, utf8_handler_continuation by (fold lo hi; lia).
        change (0 + 1 =? 3) with false. cbv iota.
        rewrite utf8_decode_from_cons, utf8_handler_continuation by lia.
        change (0 + 1 + 1 =? 3) with false. cbv iota.
        now apply utf8_decode_broken.
      - apply replaced_lead4_third; try lia. exact Hstop. }
    scalar_step (((a * 64 + x) * 64 + y) * 64 + z)
      [a + 240; 128 + x; 128 + y; 128 + z] r4.
    + apply utf8_decode_four; lia.
    + destruct (utf8_encode_4 a x y z) as [-> ->]; auto; lia.
  - replaced_step [b] rest.
    + now rewrite utf8_decode_from_cons, Herr.
    + apply replaced_lone; [lia |].
      now apply utf8_handler_initial_error.
Qed.

(** ** The decoder's reading is the rule's *)

Lemma utf8_decode_from_reads n data :
  (List.length data <= n)%nat -> reads data (utf8_decode_from utf8_initial data).
Proof.
  revert data. induction n as [| n IH]; intros [| b rest] Hlen;
    try (cbn in Hlen; lia); try apply reads_nil.
  destruct (utf8_decode_step_reads b rest)
    as (c & taken & rest' & E & Hne & -> & Hcase).
  assert (Hshorter : (List.length rest' <= n)%nat).
  { apply (f_equal (@List.length Z)) in E. rewrite length_app in E.
    cbn [List.length] in E, Hlen. destruct taken; [congruence | cbn in E; lia]. }
  rewrite E. destruct Hcase as [[Hc ->] | [-> Hpart]].
  - apply reads_scalar; auto.
  - apply reads_replaced; auto.
Qed.

(** The decoder reads every byte sequence as the rule says. *)
Lemma utf8_decode_reads data : reads data (utf8_decode data).
Proof. apply (utf8_decode_from_reads (List.length data)). lia. Qed.

(** *** The rule allows one reading only *)

Lemma utf8_encode_code_point_nonempty c :
  is_scalar c = true -> utf8_encode_code_point c <> [].
Proof.
  intros Hc E. assert (Hs : well_formed_sequence []) by (exists c; auto).
  by_shape sequence_shapes Hs; discriminate Hs.
Qed.

Lemma sequence_start_prefix p q :
  p <> [] -> sequence_start (p ++ q) -> sequence_start p.
Proof.
  intros Hp [_ (t & Ht & Hs)]. split; [exact Hp |].
  exists (q ++ t). split.
  - destruct q; [exact Ht | discriminate].
  - now rewrite app_assoc.
Qed.

Lemma replaced_part_nonempty bad rest : replaced_part bad rest -> bad <> [].
Proof.
  intros (_ & [[H _] | (b & -> & _)] & _); [exact H | discriminate].
Qed.

(** No sequence is the start of another. *)
Lemma utf8_encode_prefix_free c c' r r' :
  is_scalar c = true -> is_scalar c' = true ->
  utf8_encode_code_point c ++ r = utf8_encode_code_point c' ++ r' ->
  c = c' /\ r = r'.
Proof.
  intros Hc Hc' E.
  assert (Hd : c :: utf8_decode_from utf8_initial r
               = c' :: utf8_decode_from utf8_initial r').
  { rewrite <- !utf8_decode_encode_code_point by assumption. now rewrite E. }
  assert (c = c') as <- by exact (f_equal (hd c) Hd).
  split; [reflexivity |]. now apply app_inv_head in E.
Qed.

Lemma replaced_part_longer bad r bad' r' x more :
  replaced_part bad r -> replaced_part bad' r' ->
  bad = bad' ++ x :: more -> r' = (x :: more) ++ r -> False.
Proof.
  intros (_ & Hstart & _) Hpart' -> ->.
  pose proof (replaced_part_nonempty _ _ Hpart') as Hne.
  destruct Hpart' as (_ & _ & Hmax).
  apply (Hmax x (more ++ r) eq_refl).
  destruct Hstart as [Hstart | (b & E & _)].
  - apply (sequence_start_prefix (bad' ++ [x]) more).
    + destruct bad'; discriminate.
    + now rewrite <- app_assoc.
  - destruct bad' as [| b' [| ? ?]]; [congruence | discriminate E ..].
Qed.

Lemma replaced_part_unique bad r bad' r' :
  replaced_part bad r -> replaced_part bad' r' ->
  bad ++ r = bad' ++ r' -> bad = bad' /\ r = r'.
Proof.
  intros Hpart Hpart' E.
  apply app_eq_app in E as (l & [[E1 E2] | [E1 E2]]); destruct l as [| x more].
  - rewrite app_nil_r in E1. cbn [app] in E2. now subst.
  - exfalso. exact (replaced_part_longer _ _ _ _ _ _ Hpart Hpart' E1 E2).
  - rewrite app_nil_r in E1. cbn [app] in E2. now subst.
  - exfalso. exact (replaced_part_longer _ _ _ _ _ _ Hpart' Hpart E1 E2).
Qed.

Lemma reads_unique_eq data cps :
  reads data cps -> forall data' cps', reads data' cps' -> data = data' -> cps = cps'.
Proof.
  induction 1 as [| c rest cps Hc Hrest IH | bad rest cps Hpart Hrest IH];
    intros data' cps' [| c' rest' cps0 Hc' Hrest' | bad' rest' cps0 Hpart' Hrest'] E.
  - reflexivity.
  - symmetry in E. apply app_eq_nil in E as [E _].
    now apply utf8_encode_code_point_nonempty in E.
  - symmetry in E. apply app_eq_nil in E as [E _].
    now apply replaced_part_nonempty in Hpart'.
  - apply app_eq_nil in E as [E _].
    now apply utf8_encode_code_point_nonempty in E.
  - apply utf8_encode_prefix_free in E as [<- <-]; auto.
    f_equal. now apply (IH rest cps0).
  - exfalso. destruct Hpart' as (Hill & _).
    apply (Hill (utf8_encode_code_point c) rest); [| now symmetry].
    exists c. auto.
  - apply app_eq_nil in E as [E _].
    now apply replaced_part_nonempty in Hpart.
  - exfalso. destruct Hpart as (Hill & _).
    apply (Hill (utf8_encode_code_point c') rest'); [| exact E].
    exists c'. auto.
  - apply replaced_part_unique in E as [<- <-]; auto.
    f_equal. now apply (IH rest cps0).
Qed.

(** What the rule reads from bytes is fixed by the bytes. *)
Lemma reads_unique data cps cps' : reads data cps -> reads data cps' -> cps = cps'.
Proof. intros H H'. exact (reads_unique_eq data cps H data cps' H' eq_refl). Qed.

(** What is read are scalar values. *)
Lemma reads_scalars data cps :
  reads data cps -> Forall (fun c => is_scalar c = true) cps.
Proof.
  induction 1; constructor; auto.
Qed.

(** The bytes of what was read are valid, and are read as the bytes
    themselves were. *)
Lemma utf8_decode_repaired data :
  is_valid_utf8 (utf8_encode (utf8_decode data)) = true
  /\ TextDecoder_decode (utf8_encode (utf8_decode data)) = TextDecoder_decode data.
Proof.
  pose proof (reads_scalars _ _ (utf8_decode_reads data)) as Hs.
  split.
  - now apply utf8_encode_valid.
  - unfold TextDecoder_decode. now rewrite utf8_decode_encode.
Qed.

(** * The claims *)

(** C1 (amended): for every valid envelope [e] that JSON can write without
    loss -- no [undefined], NaN, infinity or negative zero in it -- and
    that the engine can serialise, [encodeMessage e] succeeds with an array
    of octets, and [decodeMessage] on those bytes succeeds and returns an
    envelope equal to [e].  When the engine cannot serialise [e], as when
    [e] is nested deeper than the call stack allows, JSON.stringify throws
    a RangeError and [encodeMessage], which does not catch it, throws. *)
Theorem encode_decode_round_trip (engine : Engine)
  (isMessage isIDRegistryEvent : value -> bool) (e : value) :
  json_value e = true ->
  isGossipMessage isMessage isIDRegistryEvent e = true ->
  (serialises engine e = true ->
   exists data,
     encodeMessage engine (isGossipMessage isMessage isIDRegistryEvent) e
     = Returned (ok data)
     /\ forallb is_byte data = true
     /\ decodeMessage (isGossipMessage isMessage isIDRegistryEvent) data
        = Returned (ok e))
  /\ (serialises engine e = false ->
      encodeMessage engine (isGossipMessage isMessage isIDRegistryEvent) e
      = Thrown RangeErrorExn).
Proof.
  intros Hjson Hvalid. split; intros Hroom.
  - exists (TextEncoder_encode (SerializeJSONProperty e)). split; [| split].
    + now rewrite encodeMessage_cases, Hvalid, Hroom.
    + destruct (JSON_parse_stringify e Hjson) as [-> _].
      now apply TextEncoder_encode_bytes, well_formed_text_of.
    + apply decode_encode_any_guard; auto.
      exact (valid_envelope_truthy _ _ e Hvalid).
  - now rewrite encodeMessage_cases, Hvalid, Hroom.
Qed.

(** The round trip on a user envelope with root, count 3 and a message, in
    an engine with room for it; and the throw in one without. *)
Lemma encode_decode_round_trip_witness :
  json_value user_envelope = true
  /\ isGossipMessage hashed_payload no_payload user_envelope = true
  /\ serialises roomy_engine user_envelope = true
  /\ (exists data,
        encodeMessage roomy_engine (isGossipMessage hashed_payload no_payload)
          user_envelope = Returned (ok data)
        /\ forallb is_byte data = true
        /\ decodeMessage (isGossipMessage hashed_payload no_payload) data
           = Returned (ok user_envelope))
  /\ serialises cramped_engine user_envelope = false
  /\ encodeMessage cramped_engine (isGossipMessage hashed_payload no_payload)
       user_envelope = Thrown RangeErrorExn.
Proof.
  split; [reflexivity | split; [reflexivity | split; [reflexivity |]]].
  split; [| split; [reflexivity |]].
  - apply (encode_decode_round_trip roomy_engine hashed_payload no_payload
             user_envelope); reflexivity.
  - apply (encode_decode_round_trip cramped_engine hashed_payload no_payload
             user_envelope); reflexivity.
Defined.

(** C1, as stated, fails: a contact envelope whose port is NaN is valid
    and is encoded, with the port written null; the bytes are rejected,
    and no guard could make them decode to the envelope encoded. *)
Lemma round_trip_fails_on_NaN :
  (forall isMessage isIDRegistryEvent,
     isGossipMessage isMessage isIDRegistryEvent nan_port_envelope = true)
  /\ serialises roomy_engine nan_port_envelope = true
  /\ (forall engine isMessage isIDRegistryEvent,
        serialises engine nan_port_envelope = true ->
        encodeMessage engine (isGossipMessage isMessage isIDRegistryEvent)
          nan_port_envelope
        = Returned (ok nan_port_bytes))
  /\ (forall isMessage isIDRegistryEvent,
        decodeMessage (isGossipMessage isMessage isIDRegistryEvent) nan_port_bytes
        = Returned (err "Failed to decode Gossip message..."%string))
  /\ JSON_parse (TextDecoder_decode nan_port_bytes) = Returned null_port_envelope
  /\ (forall guard,
        decodeMessage guard nan_port_bytes <> Returned (ok nan_port_envelope)).
Proof.
  assert (Hparse : JSON_parse (TextDecoder_decode nan_port_bytes)
                   = Returned null_port_envelope) by (vm_compute; reflexivity).
  split; [| split; [| split; [| split; [| split]]]].
  - intros isMessage isIDRegistryEvent. reflexivity.
  - reflexivity.
  - intros engine isMessage isIDRegistryEvent Hroom.
    rewrite encodeMessage_cases, Hroom. reflexivity.
  - intros isMessage isIDRegistryEvent. rewrite decodeMessage_cases, Hparse.
    reflexivity.
  - exact Hparse.
  - intros guard Hok. apply decodeMessage_ok_parsed in Hok.
    rewrite Hparse in Hok. discriminate Hok.
Qed.

(** C2: [decodeMessage] is total and never throws.  For every byte
    sequence it returns a result, an envelope or the decode error; when
    the block under [try] throws, as JSON.parse does on malformed text,
    the result is the decode error.  The parser never stops for want of
    fuel, so the result is the one of a parse run to its end. *)
Theorem decodeMessage_total (guard : value -> bool) (data : bytes) :
  exists r,
    decodeMessage guard data = Returned r
    /\ ((exists m, r = ok m)
        \/ r = err "Failed to decode Gossip message..."%string)
    /\ (forall e, decodeMessage_body guard data = Thrown e ->
                  r = err "Failed to decode Gossip message..."%string)
    /\ parse_value (parse_fuel (TextDecoder_decode data)) (TextDecoder_decode data)
       <> OutOfFuel.
Proof.
  pose proof (JSON_parse_fuel (TextDecoder_decode data)) as Hfuel.
  unfold decodeMessage. destruct (decodeMessage_body guard data) as [r | e] eqn:Hbody.
  - exists r. split; [reflexivity |]. split; [| split; [discriminate | exact Hfuel]].
    unfold decodeMessage_body in Hbody.
    destruct (JSON_parse (TextDecoder_decode data)) as [m | x]; [| discriminate Hbody].
    cbn [bindO] in Hbody.
    destruct (negb (truthy m) || negb (guard m)); inversion Hbody; eauto.
  - eexists. split; [reflexivity |].
    split; [now right | split; [reflexivity | exact Hfuel]].
Qed.

(** Text that is no JSON and truncated JSON: JSON.parse throws, and the
    decode error is returned. *)
Lemma decodeMessage_total_witness :
  (decodeMessage_body any_value not_json_bytes = Thrown SyntaxErrorExn
   /\ decodeMessage_body any_value truncated_bytes = Thrown SyntaxErrorExn)
  /\ decodeMessage any_value not_json_bytes
     = Returned (err "Failed to decode Gossip message..."%string)
  /\ decodeMessage any_value truncated_bytes
     = Returned (err "Failed to decode Gossip message..."%string).
Proof.
  split; [split; vm_compute; reflexivity |].
  split.
  - destruct (decodeMessage_total any_value not_json_bytes) as (r & -> & _ & Hthrown & _).
    f_equal. apply (Hthrown SyntaxErrorExn). vm_compute. reflexivity.
  - destruct (decodeMessage_total any_value truncated_bytes) as (r & -> & _ & Hthrown & _).
    f_equal. apply (Hthrown SyntaxErrorExn). vm_compute. reflexivity.
Defined.

(** C3: an envelope that fails shape validation -- in particular one
    whose topics are empty, or whose content is none of the three
    variants -- makes [encodeMessage] return its error, and no bytes,
    whatever the state of the engine: JSON.stringify is not reached. *)
Theorem encodeMessage_rejects_invalid (engine : Engine)
  (isMessage isIDRegistryEvent : value -> bool) (e : value) :
  isGossipMessage isMessage isIDRegistryEvent e = false
  \/ get e "topics" = VArray []
  \/ isValidContent isMessage isIDRegistryEvent (get e "content") = false ->
  encodeMessage engine (isGossipMessage isMessage isIDRegistryEvent) e
  = Returned (err "Invalid Message"%string)
  /\ forall data,
       encodeMessage engine (isGossipMessage isMessage isIDRegistryEvent) e
       <> Returned (ok data).
Proof.
  intros H.
  assert (Hinvalid : isGossipMessage isMessage isIDRegistryEvent e = false).
  { destruct H as [H | [H | H]]; [exact H | |]; unfold isGossipMessage.
    - rewrite H. apply andb_false_r.
    - now rewrite H. }
  rewrite encodeMessage_cases, Hinvalid. split; [reflexivity | discriminate].
Qed.

(** An envelope without topics, and scenario 2. *)
Lemma encodeMessage_rejects_invalid_witness :
  (get no_topics_envelope "topics" = VArray []
   /\ encodeMessage roomy_engine (isGossipMessage hashed_payload no_payload)
        no_topics_envelope
      = Returned (err "Invalid Message"%string))
  /\ (isValidContent hashed_payload no_payload (get empty_content_envelope "content")
      = false
      /\ encodeMessage cramped_engine (isGossipMessage hashed_payload no_payload)
           empty_content_envelope
         = Returned (err "Invalid Message"%string)).
Proof.
  split; (split; [reflexivity |]).
  - apply (encodeMessage_rejects_invalid roomy_engine hashed_payload no_payload
             no_topics_envelope).
    right. left. reflexivity.
  - apply (encodeMessage_rejects_invalid cramped_engine hashed_payload no_payload
             empty_content_envelope).
    right. right. reflexivity.
Defined.

(** C4: bytes whose text parses as JSON to a value that fails shape
    validation -- in particular an object without content, or one whose
    topics are empty -- make [decodeMessage] return its error, never an
    envelope. *)
Theorem decodeMessage_rejects_invalid_shape
  (isMessage isIDRegistryEvent : value -> bool) (data : bytes) (v : value) :
  JSON_parse (TextDecoder_decode data) = Returned v ->
  isGossipMessage isMessage isIDRegistryEvent v = false
  \/ get v "content" = VUndefined
  \/ get v "topics" = VArray [] ->
  decodeMessage (isGossipMessage isMessage isIDRegistryEvent) data
  = Returned (err "Failed to decode Gossip message..."%string)
  /\ forall m,
       decodeMessage (isGossipMessage isMessage isIDRegistryEvent) data
       <> Returned (ok m).
Proof.
  intros Hparse H.
  assert (Hinvalid : isGossipMessage isMessage isIDRegistryEvent v = false).
  { destruct H as [H | [H | H]]; [exact H | |]; unfold isGossipMessage; rewrite H.
    - reflexivity.
    - apply andb_false_r. }
  rewrite decodeMessage_cases, Hparse, Hinvalid, andb_false_r.
  split; [reflexivity | discriminate].
Qed.

(** Scenario 4, and an object without content. *)
Lemma decodeMessage_rejects_invalid_shape_witness :
  (JSON_parse (TextDecoder_decode empty_topics_bytes) = Returned no_topics_envelope
   /\ decodeMessage (isGossipMessage hashed_payload no_payload) empty_topics_bytes
      = Returned (err "Failed to decode Gossip message..."%string))
  /\ (JSON_parse (TextDecoder_decode no_content_bytes)
      = Returned (VObject [(lit "topics", VArray [topic "t"])])
      /\ decodeMessage (isGossipMessage hashed_payload no_payload) no_content_bytes
         = Returned (err "Failed to decode Gossip message..."%string)).
Proof.
  split; (split; [vm_compute; reflexivity |]).
  - apply (decodeMessage_rejects_invalid_shape hashed_payload no_payload
             empty_topics_bytes no_topics_envelope);
      [vm_compute; reflexivity | right; right; reflexivity].
  - apply (decodeMessage_rejects_invalid_shape hashed_payload no_payload
             no_content_bytes (VObject [(lit "topics", VArray [topic "t"])]));
      [vm_compute; reflexivity | right; left; reflexivity].
Defined.

(** C5 (amended): bytes that are not valid UTF-8 are not rejected for
    that.  [decodeMessage] reads them by the rule of replacement: each
    well-formed sequence as its scalar value and each ill-formed part --
    the longest start of a sequence, or a single byte -- as U+FFFD, a
    reading that the bytes fix; and it returns on them what it returns on
    the valid bytes of that reading, where the three bytes of U+FFFD stand
    for each part replaced: the envelope when the text parses to a truthy
    value that passes the guard, the decode error otherwise. *)
Theorem decodeMessage_replaces_invalid_utf8 (guard : value -> bool)
  (data : bytes) :
  is_valid_utf8 data = false ->
  exists cps,
    reads data cps
    /\ (forall cps', reads data cps' -> cps' = cps)
    /\ In REPLACEMENT cps
    /\ TextDecoder_decode data = utf16_encode (strip_bom cps)
    /\ In REPLACEMENT (TextDecoder_decode data)
    /\ is_valid_utf8 (utf8_encode cps) = true
    /\ utf8_encode cps <> data
    /\ decodeMessage guard data = decodeMessage guard (utf8_encode cps)
    /\ decodeMessage guard data
       = match JSON_parse (TextDecoder_decode data) with
         | Returned message =>
             if truthy message && guard message
             then Returned (ok message)
             else Returned (err "Failed to decode Gossip message..."%string)
         | Thrown _ => Returned (err "Failed to decode Gossip message..."%string)
         end.
Proof.
  intros Hinvalid. exists (utf8_decode data).
  destruct (utf8_decode_repaired data) as [Hvalid Htext].
  split; [apply utf8_decode_reads |].
  split; [intros cps' H; exact (reads_unique data cps' _ H (utf8_decode_reads data)) |].
  split; [now apply utf8_invalid_replaced |].
  split; [reflexivity |].
  split; [now apply TextDecoder_replaces |].
  split; [exact Hvalid |].
  split; [intros E; rewrite E in Hvalid; congruence |].
  split; [now rewrite !decodeMessage_cases, Htext |].
  apply decodeMessage_cases.
Qed.

(** The byte FF inside a peerId: the reading has U+FFFD, and the bytes are
    taken as the valid bytes of the reading are. *)
Lemma decodeMessage_replaces_invalid_utf8_witness :
  is_valid_utf8 invalid_utf8_bytes = false
  /\ exists cps,
       reads invalid_utf8_bytes cps
       /\ In REPLACEMENT cps
       /\ is_valid_utf8 (utf8_encode cps) = true
       /\ decodeMessage (isGossipMessage hashed_payload no_payload) invalid_utf8_bytes
          = decodeMessage (isGossipMessage hashed_payload no_payload)
              (utf8_encode cps).
Proof.
  split; [reflexivity |].
  destruct (decodeMessage_replaces_invalid_utf8
              (isGossipMessage hashed_payload no_payload) invalid_utf8_bytes eq_refl)
    as (cps & Hreads & _ & Hin & _ & _ & Hvalid & _ & Hsame & _).
  exists cps. auto.
Defined.

(** C5, as stated, fails: the byte FF inside a peerId is no UTF-8, the
    decoder reads the bytes as it reads the valid bytes with U+FFFD in its
    place, and the envelope with that peerId is returned. *)
Lemma invalid_utf8_accepted :
  is_valid_utf8 invalid_utf8_bytes = false
  /\ is_valid_utf8 replaced_utf8_bytes = true
  /\ TextDecoder_decode invalid_utf8_bytes = TextDecoder_decode replaced_utf8_bytes
  /\ (forall guard,
        decodeMessage guard invalid_utf8_bytes
        = decodeMessage guard replaced_utf8_bytes)
  /\ (forall isMessage isIDRegistryEvent,
        decodeMessage (isGossipMessage isMessage isIDRegistryEvent) invalid_utf8_bytes
        = Returned (ok replaced_envelope)).
Proof.
  assert (Htext : TextDecoder_decode invalid_utf8_bytes
                  = TextDecoder_decode replaced_utf8_bytes)
    by (vm_compute; reflexivity).
  split; [vm_compute; reflexivity |].
  split; [vm_compute; reflexivity |].
  split; [exact Htext |]. split.
  - intros guard. now rewrite !decodeMessage_cases, Htext.
  - intros isMessage isIDRegistryEvent. vm_compute. reflexivity.
Qed.

(** C6: bytes whose text parses to a falsy value -- null, false, 0, a
    number that rounds to zero, the empty string -- make [decodeMessage]
    return its error whatever the guard would say of the value: the guard
    is not consulted. *)
Theorem decodeMessage_rejects_falsy (guard : value -> bool) (data : bytes)
  (v : value) :
  JSON_parse (TextDecoder_decode data) = Returned v ->
  truthy v = false ->
  decodeMessage guard data = Returned (err "Failed to decode Gossip message..."%string)
  /\ forall guard', decodeMessage guard' data = decodeMessage guard data.
Proof.
  intros Hparse Hfalsy. split.
  - now rewrite decodeMessage_cases, Hparse, Hfalsy.
  - intros guard'. now rewrite !decodeMessage_cases, Hparse, Hfalsy.
Qed.

(** The texts null, false, 0, 1e-400 and the empty string under a guard
    that takes every value. *)
Lemma decodeMessage_rejects_falsy_witness :
  (JSON_parse (TextDecoder_decode null_bytes) = Returned VNull
   /\ decodeMessage any_value null_bytes
      = Returned (err "Failed to decode Gossip message..."%string))
  /\ (JSON_parse (TextDecoder_decode false_bytes) = Returned (VBoolean false)
      /\ decodeMessage any_value false_bytes
         = Returned (err "Failed to decode Gossip message..."%string))
  /\ (JSON_parse (TextDecoder_decode zero_bytes) = Returned (VNumber (Zero false))
      /\ decodeMessage any_value zero_bytes
         = Returned (err "Failed to decode Gossip message..."%string))
  /\ (JSON_parse (TextDecoder_decode tiny_bytes) = Returned (VNumber (Zero false))
      /\ decodeMessage any_value tiny_bytes
         = Returned (err "Failed to decode Gossip message..."%string))
  /\ (JSON_parse (TextDecoder_decode empty_string_bytes) = Returned (VString [])
      /\ decodeMessage any_value empty_string_bytes
         = Returned (err "Failed to decode Gossip message..."%string)).
Proof.
  split; [| split; [| split; [| split]]]; (split; [vm_compute; reflexivity |]).
  - apply (decodeMessage_rejects_falsy any_value null_bytes VNull);
      vm_compute; reflexivity.
  - apply (decodeMessage_rejects_falsy any_value false_bytes (VBoolean false));
      vm_compute; reflexivity.
  - apply (decodeMessage_rejects_falsy any_value zero_bytes (VNumber (Zero false)));
      vm_compute; reflexivity.
  - apply (decodeMessage_rejects_falsy any_value tiny_bytes (VNumber (Zero false)));
      vm_compute; reflexivity.
  - apply (decodeMessage_rejects_falsy any_value empty_string_bytes (VString []));
      vm_compute; reflexivity.
Defined.

(** C7: the topic constants are f_network_topic_primary and
    f_network_topic_contact, GOSSIP_TOPICS lists the contact topic and then
    the primary topic and nothing else, and the republish interval is
    10000. *)
Theorem topic_constants :
  NETWORK_TOPIC_PRIMARY = "f_network_topic_primary"%string
  /\ NETWORK_TOPIC_CONTACT = "f_network_topic_contact"%string
  /\ GOSSIP_TOPICS = [NETWORK_TOPIC_CONTACT; NETWORK_TOPIC_PRIMARY]
  /\ GOSSIP_TOPICS = ["f_network_topic_contact"%string; "f_network_topic_primary"%string]
  /\ List.length GOSSIP_TOPICS = 2%nat
  /\ GOSSIP_CONTACT_INTERVAL = 10000.
Proof. repeat split. Qed.



(** C9: the topics of an envelope are never compared with GOSSIP_TOPICS.
    Whatever strings a non-empty [topics] holds, an envelope with valid
    content passes the guard, and [encodeMessage] does not refuse it: it
    returns the bytes whenever the engine can serialise the envelope.
    [decodeMessage] likewise accepts every byte sequence that parses to
    the envelope; and on the bytes [encodeMessage] made, its verdict is
    the guard's on the content as JSON wrote it, in which the topics have
    no part: it accepts them whenever the envelope is one JSON writes
    without loss, and also when only a negative zero lost its sign or an
    [undefined] property was left out. *)
Theorem topics_not_checked_against_registry (engine : Engine)
  (isMessage isIDRegistryEvent : value -> bool) (e : value) (names : list value) :
  proper_value e = true ->
  isValidContent isMessage isIDRegistryEvent (get e "content") = true ->
  get e "topics" = VArray names ->
  names <> [] -> forallb isString names = true ->
  isGossipMessage isMessage isIDRegistryEvent e = true
  /\ encodeMessage engine (isGossipMessage isMessage isIDRegistryEvent) e
     = (if serialises engine e
        then Returned (ok (TextEncoder_encode (SerializeJSONProperty e)))
        else Thrown RangeErrorExn)
  /\ (forall data,
        JSON_parse (TextDecoder_decode data) = Returned e ->
        decodeMessage (isGossipMessage isMessage isIDRegistryEvent) data
        = Returned (ok e))
  /\ decodeMessage (isGossipMessage isMessage isIDRegistryEvent)
       (TextEncoder_encode (SerializeJSONProperty e))
     = (if isValidContent isMessage isIDRegistryEvent (written (get e "content"))
        then Returned (ok (written e))
        else Returned (err "Failed to decode Gossip message..."%string))
  /\ (json_value e = true ->
      decodeMessage (isGossipMessage isMessage isIDRegistryEvent)
        (TextEncoder_encode (SerializeJSONProperty e))
      = Returned (ok e)).
Proof.
  intros Hproper Hcontent Htopics Hne Hstrings.
  assert (Htop : isTopics (VArray names) = true).
  { destruct names; [congruence | exact Hstrings]. }
  assert (Hvalid : isGossipMessage isMessage isIDRegistryEvent e = true).
  { unfold isGossipMessage. now rewrite Hcontent, Htopics, Htop. }
  pose proof (valid_envelope_truthy _ _ e Hvalid) as Htruthy.
  split; [exact Hvalid |]. split; [| split; [| split]].
  - now rewrite encodeMessage_cases, Hvalid.
  - intros data Hparse. now rewrite decodeMessage_cases, Hparse, Htruthy, Hvalid.
  - assert (Hdefined : e <> VUndefined) by (intros ->; discriminate Htopics).
    assert (Hc : get (written e) "content" = written (get e "content")).
    { rewrite get_written by assumption.
      destruct (get e "content"); try reflexivity. discriminate Hcontent. }
    assert (Ht : get (written e) "topics" = VArray names).
    { rewrite get_written, Htopics by assumption. cbn [written].
      now rewrite written_strings. }
    assert (Hkept : truthy (written e) = true).
    { destruct e; try discriminate Htopics. reflexivity. }
    rewrite decodeMessage_cases, JSON_parse_decode_encode_written by assumption.
    rewrite Hkept. unfold isGossipMessage. rewrite Hc, Ht, Htop, andb_true_r.
    reflexivity.
  - intros Hjson. now apply decode_encode_any_guard.
Qed.

(** Envelopes on a topic outside GOSSIP_TOPICS.  A contact envelope is
    encoded and comes back.  A user envelope whose count is a negative
    zero and a contact envelope whose rpcAddress is [undefined] are
    accepted from their bytes, as the values JSON kept of them.  A contact
    envelope whose port is NaN is refused from its bytes, where the port
    is null, as it is on a registered topic. *)
Lemma topics_not_checked_against_registry_witness :
  existsb (String.eqb unregistered_topic) GOSSIP_TOPICS = false
  /\ isGossipMessage hashed_payload no_payload custom_topic_envelope = true
  /\ encodeMessage roomy_engine (isGossipMessage hashed_payload no_payload)
       custom_topic_envelope
     = Returned (ok (TextEncoder_encode (SerializeJSONProperty custom_topic_envelope)))
  /\ decodeMessage (isGossipMessage hashed_payload no_payload)
       (TextEncoder_encode (SerializeJSONProperty custom_topic_envelope))
     = Returned (ok custom_topic_envelope)
  /\ decodeMessage (isGossipMessage hashed_payload no_payload)
       (TextEncoder_encode (SerializeJSONProperty custom_topic_zero_envelope))
     = Returned (ok (written custom_topic_zero_envelope))
  /\ decodeMessage (isGossipMessage hashed_payload no_payload)
       (TextEncoder_encode (SerializeJSONProperty custom_topic_undefined_envelope))
     = Returned (ok custom_topic_envelope)
  /\ decodeMessage (isGossipMessage hashed_payload no_payload)
       (TextEncoder_encode (SerializeJSONProperty custom_topic_nan_envelope))
     = Returned (err "Failed to decode Gossip message..."%string).
Proof.
  split; [reflexivity |].
  pose proof (topics_not_checked_against_registry roomy_engine hashed_payload
                no_payload custom_topic_envelope [topic unregistered_topic]
                eq_refl eq_refl eq_refl ltac:(discriminate) eq_refl)
    as (Hvalid & Hencode & _ & _ & Hdecode).
  pose proof (topics_not_checked_against_registry roomy_engine hashed_payload
                no_payload custom_topic_zero_envelope [topic unregistered_topic]
                eq_refl eq_refl eq_refl ltac:(discriminate) eq_refl)
    as (_ & _ & _ & Hzero & _).
  pose proof (topics_not_checked_against_registry roomy_engine hashed_payload
                no_payload custom_topic_undefined_envelope
                [topic unregistered_topic]
                eq_refl eq_refl eq_refl ltac:(discriminate) eq_refl)
    as (_ & _ & _ & Hundefined & _).
  pose proof (topics_not_checked_against_registry roomy_engine hashed_payload
                no_payload custom_topic_nan_envelope [topic unregistered_topic]
                eq_refl eq_refl eq_refl ltac:(discriminate) eq_refl)
    as (_ & _ & _ & Hnan & _).
  split; [exact Hvalid |]. split; [exact Hencode |].
  split; [apply Hdecode; reflexivity |].
  split; [exact Hzero |]. split; [exact Hundefined | exact Hnan].
Defined.



(** * Further properties of the codec

    All of them hold for every guard, so for [isGossipMessage] whatever
    its definition. *)

Lemma decodeMessage_empty guard :
  decodeMessage guard [] = Returned (err "Failed to decode Gossip message..."%string).
Proof. reflexivity. Qed.

Lemma TextDecoder_decode_brace data :
  exists t, TextDecoder_decode (123 :: data) = 123 :: t.
Proof.
  unfold TextDecoder_decode, utf8_decode.
  rewrite utf8_decode_from_cons, utf8_handler_ascii by lia.
  cbn [strip_bom]. change (123 =? BOM) with false. cbv iota.
  unfold utf16_encode. cbn [flat_map]. eexists. reflexivity.
Qed.

Lemma text_of_object_braces ps :
  exists body, text_of (VObject ps) = 123 :: body /\ exists pre, 123 :: body = pre ++ [125].
Proof.
  unfold text_of. cbn [SerializeJSONProperty]. norm_lit. cbn [app].
  eexists. split; [reflexivity |]. eexists (123 :: _). reflexivity.
Qed.

(** ** Encoding *)

(** X1: [encodeMessage] is injective on the envelopes JSON writes without
    loss: two of them that are encoded to the same bytes are equal. *)
Theorem encodeMessage_injective (engine : Engine) (guard : value -> bool)
  (e1 e2 : value) (data : bytes) :
  json_value e1 = true -> json_value e2 = true ->
  encodeMessage engine guard e1 = Returned (ok data) ->
  encodeMessage engine guard e2 = Returned (ok data) ->
  e1 = e2.
Proof.
  intros H1 H2 E1 E2.
  apply encodeMessage_ok in E1 as (_ & _ & E1).
  apply encodeMessage_ok in E2 as (_ & _ & E2).
  pose proof (JSON_parse_decode_encode e1 H1) as P1.
  pose proof (JSON_parse_decode_encode e2 H2) as P2.
  rewrite <- E1 in P1. rewrite <- E2 in P2. congruence.
Qed.

(** The contact envelope of scenario 1 and the envelope built from its
    properties are encoded to the same bytes. *)
Lemma encodeMessage_injective_witness :
  (json_value contact_envelope = true
   /\ encodeMessage roomy_engine any_value contact_envelope
      = Returned (ok contact_envelope_text)
   /\ encodeMessage roomy_engine any_value (VObject contact_envelope_properties)
      = Returned (ok contact_envelope_text))
  /\ contact_envelope = VObject contact_envelope_properties.
Proof.
  split; [repeat split |].
  apply (encodeMessage_injective roomy_engine any_value contact_envelope
           (VObject contact_envelope_properties) contact_envelope_text);
    reflexivity.
Defined.

(** X2: the bytes [encodeMessage] returns for a value of the language
    other than [undefined] itself always parse.  [decodeMessage] reads
    from them a value [m'] that JSON writes without loss and with the very
    text of [m] -- [m] itself when nothing in it is lost -- and its result
    is the guard's verdict on [m']: it fails on bytes of [encodeMessage]
    only when the guard turns down what is left of the envelope, never
    for a syntax error.  For [undefined], which a guard other than the
    codec's could take, no bytes are returned, and on them
    [decodeMessage] fails. *)
Theorem encoded_bytes_parse_back (engine : Engine) (guard : value -> bool)
  (m : value) (data : bytes) :
  proper_value m = true ->
  encodeMessage engine guard m = Returned (ok data) ->
  (isUndefined m = true /\ data = []
   /\ decodeMessage guard data
      = Returned (err "Failed to decode Gossip message..."%string))
  \/ (isUndefined m = false
      /\ exists m',
           JSON_parse (TextDecoder_decode data) = Returned m'
           /\ json_value m' = true
           /\ SerializeJSONProperty m' = SerializeJSONProperty m
           /\ (json_value m = true -> m' = m)
           /\ decodeMessage guard data
              = if truthy m' && guard m'
                then Returned (ok m')
                else Returned (err "Failed to decode Gossip message..."%string)).
Proof.
  intros Hm Hencode. apply encodeMessage_ok in Hencode as (_ & _ & ->).
  destruct (isUndefined m) eqn:Hdefined.
  { left. destruct m; try discriminate Hdefined. repeat split. }
  right. split; [reflexivity |].
  assert (Hne : m <> VUndefined) by (intros ->; discriminate Hdefined).
  pose proof (JSON_parse_decode_encode_written m Hm Hne) as Hparse.
  exists (written m).
  split; [exact Hparse |].
  split; [now apply json_value_written |].
  split; [now apply SerializeJSONProperty_written |].
  split; [apply written_json_value |].
  now rewrite decodeMessage_cases, Hparse.
Qed.

(** The contact envelope whose port is NaN: its bytes parse, to the
    envelope with the port null.  And [undefined] under a guard that
    takes every value. *)
Lemma encoded_bytes_parse_back_witness :
  (proper_value nan_port_envelope = true
   /\ encodeMessage roomy_engine (isGossipMessage hashed_payload no_payload)
        nan_port_envelope
      = Returned (ok nan_port_bytes)
   /\ exists m',
        JSON_parse (TextDecoder_decode nan_port_bytes) = Returned m'
        /\ json_value m' = true
        /\ SerializeJSONProperty m' = SerializeJSONProperty nan_port_envelope
        /\ decodeMessage (isGossipMessage hashed_payload no_payload) nan_port_bytes
           = if truthy m' && isGossipMessage hashed_payload no_payload m'
             then Returned (ok m')
             else Returned (err "Failed to decode Gossip message..."%string))
  /\ (encodeMessage roomy_engine any_value VUndefined = Returned (ok [])
      /\ decodeMessage any_value []
         = Returned (err "Failed to decode Gossip message..."%string)).
Proof.
  split.
  - split; [reflexivity | split; [reflexivity |]].
    destruct (encoded_bytes_parse_back roomy_engine
                (isGossipMessage hashed_payload no_payload) nan_port_envelope
                nan_port_bytes eq_refl eq_refl)
      as [(Hundefined & _) | (_ & m' & Hparse & Hjson & Htext & _ & Hdecode)];
      [discriminate Hundefined |].
    exists m'. auto.
  - split; [reflexivity |].
    destruct (encoded_bytes_parse_back roomy_engine any_value VUndefined []
                eq_refl eq_refl)
      as [(_ & _ & Hdecode) | (Hdefined & _)];
      [exact Hdecode | discriminate Hdefined].
Defined.

(** X3: encoding what was decoded from encoded bytes gives the same
    bytes: when the bytes of [m] decode to [m'], [encodeMessage] accepts
    [m'] and writes those bytes again. *)
Theorem decoded_envelope_encodes_alike (engine : Engine) (guard : value -> bool)
  (m m' : value) (data : bytes) :
  proper_value m = true ->
  encodeMessage engine guard m = Returned (ok data) ->
  decodeMessage guard data = Returned (ok m') ->
  encodeMessage engine guard m' = Returned (ok data).
Proof.
  intros Hm Hencode Hdecode.
  apply encodeMessage_ok in Hencode as (_ & Hroom & ->).
  destruct (isUndefined m) eqn:Hdefined.
  { destruct m; try discriminate Hdefined.
    cbn [SerializeJSONProperty TextEncoder_encode] in Hdecode.
    rewrite decodeMessage_empty in Hdecode. discriminate Hdecode. }
  assert (Hne : m <> VUndefined) by (intros ->; discriminate Hdefined).
  rewrite decodeMessage_cases, JSON_parse_decode_encode_written in Hdecode
    by assumption.
  destruct (truthy (written m) && guard (written m)) eqn:E; [| discriminate].
  injection Hdecode as <-. apply andb_true_iff in E as [_ E].
  rewrite encodeMessage_cases, E, serialises_written, Hroom by assumption.
  now rewrite SerializeJSONProperty_written.
Qed.

(** A user envelope whose count is negative zero: the bytes say 0, decode
    to the envelope with count zero, and that is encoded to them again. *)
Lemma decoded_envelope_encodes_alike_witness :
  (proper_value negative_zero_envelope = true
   /\ encodeMessage roomy_engine (isGossipMessage hashed_payload no_payload)
        negative_zero_envelope
      = Returned (ok zero_count_bytes)
   /\ decodeMessage (isGossipMessage hashed_payload no_payload) zero_count_bytes
      = Returned (ok positive_zero_envelope))
  /\ encodeMessage roomy_engine (isGossipMessage hashed_payload no_payload)
       positive_zero_envelope
     = Returned (ok zero_count_bytes).
Proof.
  split; [repeat split; vm_compute; reflexivity |].
  apply (decoded_envelope_encodes_alike roomy_engine
           (isGossipMessage hashed_payload no_payload)
           negative_zero_envelope positive_zero_envelope zero_count_bytes);
    vm_compute; reflexivity.
Defined.

(** X4: the bytes [encodeMessage] writes are valid UTF-8, and none of
    them is below 0x20 or above 0xF4: no line break, tabulation or other
    C0 control character is among them. *)
Theorem encoded_bytes_are_printable_utf8 (engine : Engine) (guard : value -> bool)
  (m : value) (data : bytes) :
  proper_value m = true -> encodeMessage engine guard m = Returned (ok data) ->
  is_valid_utf8 data = true /\ forallb is_text_byte data = true.
Proof.
  intros Hm Hencode. apply encodeMessage_ok in Hencode as (_ & _ & ->).
  destruct (isUndefined m) eqn:Hdefined.
  { destruct m; try discriminate Hdefined. split; reflexivity. }
  assert (Hne : m <> VUndefined) by (intros ->; discriminate Hdefined).
  rewrite <- SerializeJSONProperty_written by assumption.
  pose proof (json_value_written m Hm) as Hjson.
  destruct (JSON_parse_stringify (written m) Hjson) as [-> _].
  split.
  - now apply TextEncoder_encode_valid, well_formed_text_of.
  - apply TextEncoder_encode_text_bytes;
      auto using well_formed_text_of, printable_text_of.
Qed.

(** The user envelope of the round trip. *)
Lemma encoded_bytes_are_printable_utf8_witness :
  (proper_value user_envelope = true
   /\ encodeMessage roomy_engine any_value user_envelope
      = Returned (ok user_envelope_bytes))
  /\ is_valid_utf8 user_envelope_bytes = true
  /\ forallb is_text_byte user_envelope_bytes = true.
Proof.
  split; [split; reflexivity |].
  apply (encoded_bytes_are_printable_utf8 roomy_engine any_value user_envelope
           user_envelope_bytes);
    reflexivity.
Defined.

(** X5: a cut envelope is never accepted: [decodeMessage] rejects every
    proper prefix of the bytes [encodeMessage] writes for an object. *)
Theorem truncated_envelope_rejected (engine : Engine) (guard : value -> bool)
  (properties : list (jsstring * value)) (data head tail : bytes) :
  proper_value (VObject properties) = true ->
  encodeMessage engine guard (VObject properties) = Returned (ok data) ->
  data = head ++ tail -> tail <> [] ->
  decodeMessage guard head
  = Returned (err "Failed to decode Gossip message..."%string).
Proof.
  intros Hm Hencode -> Htail.
  apply encodeMessage_ok in Hencode as (_ & _ & Hencode). symmetry in Hencode.
  assert (Hne : VObject properties <> VUndefined) by discriminate.
  pose proof (JSON_parse_decode_encode_written _ Hm Hne) as Hparse.
  assert (Hbytes : exists rest d,
             head ++ tail = 123 :: rest /\ head ++ tail = d ++ [125]).
  { rewrite <- Hencode.
    rewrite SerializeJSONProperty_defined by assumption.
    pose proof (well_formed_text_of _ (json_value_written _ Hm)) as Hwf.
    rewrite text_of_written in Hwf.
    destruct (text_of_object_braces properties) as (body & E & pre & E').
    rewrite E in *. rewrite TextEncoder_encode_first by lia.
    eexists. destruct (TextEncoder_encode_last _ Hwf pre 125 E' ltac:(lia)) as (d & Hd).
    exists d. split; [reflexivity |].
    now rewrite <- Hd, TextEncoder_encode_first by lia. }
  destruct Hbytes as (rest & d & Hfirst & Hlast).
  rewrite Hencode in Hparse.
  rewrite decodeMessage_cases.
  destruct (JSON_parse (TextDecoder_decode head)) as [v | e] eqn:Hhead;
    [exfalso | reflexivity].
  destruct head as [| b head']; [discriminate Hhead |].
  cbn [app] in Hfirst. injection Hfirst as -> _.
  assert (Hv : isNumber v = false).
  { destruct (TextDecoder_decode_brace head') as (t & Ht).
    rewrite Ht in Hhead. now apply JSON_parse_brace in Hhead. }
  destruct (JSON_parse_last _ _ Hhead Hv) as [Hnonempty Hreplaced].
  rewrite (TextDecoder_decode_app _ tail Hnonempty Hreplaced) in Hparse.
  rewrite (JSON_parse_more _ v _ Hhead Hv) in Hparse; [discriminate Hparse |].
  apply utf8_decode_not_ws.
  destruct (exists_last Htail) as (tail' & c & ->).
  rewrite app_assoc in Hlast. apply app_inj_tail in Hlast as [_ ->].
  rewrite forallb_app. cbn. apply andb_false_r.
Qed.

(** The contact envelope of scenario 1, cut inside its topics. *)
Lemma truncated_envelope_rejected_witness :
  (proper_value (VObject contact_envelope_properties) = true
   /\ encodeMessage roomy_engine any_value (VObject contact_envelope_properties)
      = Returned (ok contact_envelope_text)
   /\ contact_envelope_text = contact_envelope_head ++ contact_envelope_tail
   /\ contact_envelope_tail <> [])
  /\ decodeMessage any_value contact_envelope_head
     = Returned (err "Failed to decode Gossip message..."%string).
Proof.
  split; [repeat split; discriminate |].
  apply (truncated_envelope_rejected roomy_engine any_value
           contact_envelope_properties
           contact_envelope_text contact_envelope_head contact_envelope_tail);
    (reflexivity || discriminate).
Defined.

(** ** Decoding *)

(** X6: bytes that are white space only, and no bytes at all, are
    rejected. *)
Theorem decodeMessage_rejects_blank (guard : value -> bool) (data : bytes) :
  forallb is_ws data = true ->
  decodeMessage guard data
  = Returned (err "Failed to decode Gossip message..."%string).
Proof.
  intros Hdata. rewrite decodeMessage_cases.
  change data with ([] ++ data).
  rewrite TextDecoder_decode_ws_suffix by assumption.
  change (TextDecoder_decode []) with (@nil Z). cbn [app].
  now rewrite JSON_parse_blank.
Qed.

Lemma decodeMessage_rejects_blank_witness :
  (forallb is_ws [] = true /\ forallb is_ws blank_bytes = true)
  /\ decodeMessage any_value []
     = Returned (err "Failed to decode Gossip message..."%string)
  /\ decodeMessage any_value blank_bytes
     = Returned (err "Failed to decode Gossip message..."%string).
Proof.
  split; [split; reflexivity |]. split.
  - apply (decodeMessage_rejects_blank any_value []). reflexivity.
  - apply (decodeMessage_rejects_blank any_value blank_bytes). reflexivity.
Defined.

(** X7: a UTF-8 byte order mark before the bytes is dropped:
    [decodeMessage] returns what it returns without it.  Only one is
    dropped, so the bytes themselves must not start with another. *)
Theorem decodeMessage_ignores_bom (guard : value -> bool) (data : bytes) :
  starts_with_bom data = false ->
  decodeMessage guard (0xEF :: 0xBB :: 0xBF :: data) = decodeMessage guard data.
Proof.
  intros Hdata. now rewrite !decodeMessage_cases, TextDecoder_decode_bom.
Qed.

Lemma decodeMessage_ignores_bom_witness :
  starts_with_bom contact_envelope_text = false
  /\ decodeMessage any_value (bom_bytes ++ contact_envelope_text)
     = decodeMessage any_value contact_envelope_text
  /\ decodeMessage any_value (bom_bytes ++ contact_envelope_text)
     = Returned (ok contact_envelope).
Proof.
  split; [reflexivity |]. split; [| reflexivity].
  apply (decodeMessage_ignores_bom any_value contact_envelope_text). reflexivity.
Defined.

(** X8: white space before the bytes is skipped, when the bytes do not
    start with a byte order mark. *)
Theorem decodeMessage_ignores_leading_whitespace (guard : value -> bool)
  (blank data : bytes) :
  forallb is_ws blank = true -> starts_with_bom data = false ->
  decodeMessage guard (blank ++ data) = decodeMessage guard data.
Proof.
  intros Hblank Hdata.
  now rewrite !decodeMessage_cases, TextDecoder_decode_ws_prefix,
    JSON_parse_ws_prefix.
Qed.

Lemma decodeMessage_ignores_leading_whitespace_witness :
  (forallb is_ws blank_bytes = true /\ starts_with_bom contact_envelope_text = false)
  /\ decodeMessage any_value (blank_bytes ++ contact_envelope_text)
     = decodeMessage any_value contact_envelope_text.
Proof.
  split; [split; reflexivity |].
  apply (decodeMessage_ignores_leading_whitespace any_value blank_bytes
           contact_envelope_text); reflexivity.
Defined.

(** X9: white space after the bytes is skipped, whatever the bytes: also
    when they are not valid UTF-8 or end inside a sequence. *)
Theorem decodeMessage_ignores_trailing_whitespace (guard : value -> bool)
  (data blank : bytes) :
  forallb is_ws blank = true ->
  decodeMessage guard (data ++ blank) = decodeMessage guard data.
Proof.
  intros Hblank.
  now rewrite !decodeMessage_cases, TextDecoder_decode_ws_suffix,
    JSON_parse_ws_suffix.
Qed.

Lemma decodeMessage_ignores_trailing_whitespace_witness :
  forallb is_ws blank_bytes = true
  /\ decodeMessage any_value (contact_envelope_text ++ blank_bytes)
     = decodeMessage any_value contact_envelope_text
  /\ decodeMessage any_value (invalid_utf8_bytes ++ blank_bytes)
     = decodeMessage any_value invalid_utf8_bytes.
Proof.
  split; [reflexivity |]. split.
  - apply (decodeMessage_ignores_trailing_whitespace any_value contact_envelope_text
             blank_bytes). reflexivity.
  - apply (decodeMessage_ignores_trailing_whitespace any_value invalid_utf8_bytes
             blank_bytes). reflexivity.
Defined.

(** X10: one value and no more: when [decodeMessage] accepts bytes, with
    a value that is not a number, it rejects them followed by anything
    that is not white space only -- a second envelope, for one. *)
Theorem decodeMessage_rejects_trailing_data (guard : value -> bool)
  (data more : bytes) (m : value) :
  decodeMessage guard data = Returned (ok m) -> isNumber m = false ->
  forallb is_ws more = false ->
  decodeMessage guard (data ++ more)
  = Returned (err "Failed to decode Gossip message..."%string).
Proof.
  intros Hok Hm Hmore. apply decodeMessage_ok_parsed in Hok.
  destruct (JSON_parse_last _ _ Hok Hm) as [Hnonempty Hreplaced].
  rewrite decodeMessage_cases, TextDecoder_decode_app by assumption.
  now rewrite (JSON_parse_more _ m) by auto using utf8_decode_not_ws.
Qed.

(** The bytes of the contact envelope of scenario 1, twice. *)
Lemma decodeMessage_rejects_trailing_data_witness :
  (decodeMessage any_value contact_envelope_text = Returned (ok contact_envelope)
   /\ isNumber contact_envelope = false
   /\ forallb is_ws contact_envelope_text = false)
  /\ decodeMessage any_value (contact_envelope_text ++ contact_envelope_text)
     = Returned (err "Failed to decode Gossip message..."%string).
Proof.
  split; [repeat split |].
  apply (decodeMessage_rejects_trailing_data any_value contact_envelope_text
           contact_envelope_text contact_envelope); reflexivity.
Defined.

(** X11: the text [decodeMessage] gives to [JSON.parse] has the ASCII
    characters of the bytes, all of them and in their order, and no
    other: no byte sequence, malformed or not, is read as a quotation
    mark, a reverse solidus, a brace or any other ASCII character. *)
Theorem decoded_text_keeps_ascii (data : bytes) :
  filter is_ascii (TextDecoder_decode data) = filter is_ascii data.
Proof.
  unfold TextDecoder_decode.
  rewrite utf16_encode_ascii_filter, strip_bom_ascii_filter.
  apply utf8_decode_ascii_filter.
Qed.

(** X12: what [decodeMessage] returns is a value of JSON that passed the
    guard: no [undefined] and no NaN is anywhere in it, its Numbers are
    binary64 values, its strings are sequences of code units and its
    objects have no repeated key.  So it is a value the properties of the
    encoded bytes speak of, and one [encodeMessage] does not refuse: it
    returns bytes for it whenever the engine can serialise it, and throws
    the RangeError of JSON.stringify when not. *)
Theorem decoded_envelope_is_json (guard : value -> bool) (data : bytes) (m : value) :
  decodeMessage guard data = Returned (ok m) ->
  from_json m = true /\ proper_value m = true /\ truthy m = true
  /\ guard m = true
  /\ forall engine,
       encodeMessage engine guard m
       = if serialises engine m
         then Returned (ok (TextEncoder_encode (SerializeJSONProperty m)))
         else Thrown RangeErrorExn.
Proof.
  intros Hok. pose proof (decodeMessage_ok_parsed _ _ _ Hok) as Hparse.
  pose proof (JSON_parse_from_json _ _ Hparse) as Hjson.
  rewrite decodeMessage_cases, Hparse in Hok.
  destruct (truthy m && guard m) eqn:E; [| discriminate Hok].
  apply andb_true_iff in E as [Htruthy Hguard].
  split; [exact Hjson |]. split; [now apply from_json_proper |].
  split; [exact Htruthy |]. split; [exact Hguard |].
  intros engine. now rewrite encodeMessage_cases, Hguard.
Qed.

Lemma decoded_envelope_is_json_witness :
  decodeMessage any_value contact_envelope_text = Returned (ok contact_envelope)
  /\ from_json contact_envelope = true /\ proper_value contact_envelope = true
  /\ truthy contact_envelope = true
  /\ any_value contact_envelope = true
  /\ forall engine,
       encodeMessage engine any_value contact_envelope
       = if serialises engine contact_envelope
         then Returned (ok (TextEncoder_encode
                              (SerializeJSONProperty contact_envelope)))
         else Thrown RangeErrorExn.
Proof.
  split; [reflexivity |].
  apply (decoded_envelope_is_json any_value contact_envelope_text contact_envelope).
  reflexivity.
Defined.

(** X13: a key that comes twice in an object is no error for
    [decodeMessage]: the object it reads has the key once, with the value
    of its last member, and that object is what the guard sees and what
    is returned. *)
Theorem repeated_key_takes_last_value (guard : value -> bool)
  (members : list (jsstring * value)) :
  forallb (fun p => forallb is_code_unit (fst p) && json_value (snd p)) members = true ->
  exists object,
    JSON_parse (TextDecoder_decode (TextEncoder_encode (Some (object_text members))))
    = Returned (VObject object)
    /\ distinct_keys (map fst object) = true
    /\ (forall k, lookup k object = lookup k (rev members))
    /\ decodeMessage guard (TextEncoder_encode (Some (object_text members)))
       = if guard (VObject object)
         then Returned (ok (VObject object))
         else Returned (err "Failed to decode Gossip message..."%string).
Proof.
  intros Hmembers.
  assert (Hall : Forall (fun p => forallb is_code_unit (fst p) = true
                                  /\ json_value (snd p) = true) members).
  { apply Forall_forall. intros p Hp. rewrite forallb_forall in Hmembers.
    now apply andb_true_iff, Hmembers. }
  assert (Hparse :
            JSON_parse (TextDecoder_decode
                          (TextEncoder_encode (Some (object_text members))))
            = Returned (VObject (obj_of_members members))).
  { rewrite TextDecoder_TextEncoder_object_text by assumption.
    now apply JSON_parse_object_text. }
  exists (obj_of_members members).
  split; [exact Hparse |]. split; [| split].
  - apply distinct_keys_NoDup.
    now apply (obj_of_members_invariant (fun _ _ => True)), Forall_forall.
  - intros k. apply lookup_obj_of_members.
  - now rewrite decodeMessage_cases, Hparse.
Qed.

(** An envelope text with the key topics twice: the second topics are
    the ones of the envelope read. *)
Lemma repeated_key_takes_last_value_witness :
  (forallb (fun p => forallb is_code_unit (fst p) && json_value (snd p))
     repeated_topics_members = true
   /\ TextEncoder_encode (Some (object_text repeated_topics_members))
      = repeated_topics_bytes
   /\ decodeMessage any_value repeated_topics_bytes
      = Returned (ok repeated_topics_object))
  /\ exists object,
       JSON_parse (TextDecoder_decode
                     (TextEncoder_encode (Some (object_text repeated_topics_members))))
       = Returned (VObject object)
       /\ distinct_keys (map fst object) = true
       /\ (forall k, lookup k object = lookup k (rev repeated_topics_members))
       /\ decodeMessage any_value
            (TextEncoder_encode (Some (object_text repeated_topics_members)))
          = if any_value (VObject object)
            then Returned (ok (VObject object))
            else Returned (err "Failed to decode Gossip message..."%string).
Proof.
  split; [repeat split; vm_compute; reflexivity |].
  apply (repeated_key_takes_last_value any_value repeated_topics_members).
  reflexivity.
Defined.

(** X14: only a byte order mark at the very start is dropped.  One that
    comes after white space, or after another byte order mark, reaches
    [JSON.parse], and the bytes are rejected whatever follows it. *)
Theorem decodeMessage_rejects_misplaced_bom (guard : value -> bool)
  (lead data : bytes) :
  (forallb is_ws lead = true /\ lead <> []) \/ lead = [0xEF; 0xBB; 0xBF] ->
  decodeMessage guard (lead ++ 0xEF :: 0xBB :: 0xBF :: data)
  = Returned (err "Failed to decode Gossip message..."%string).
Proof.
  intros Hlead. rewrite decodeMessage_cases.
  assert (Hunit : forall cps, utf16_encode (BOM :: cps) = BOM :: utf16_encode cps)
    by reflexivity.
  assert (Htext : exists w t,
             forallb is_ws w = true
             /\ TextDecoder_decode (lead ++ 0xEF :: 0xBB :: 0xBF :: data)
                = w ++ BOM :: t).
  { destruct Hlead as [[Hws Hne] | ->].
    - exists lead, (utf16_encode (utf8_decode data)). split; [exact Hws |].
      unfold TextDecoder_decode, utf8_decode.
      rewrite utf8_decode_ascii by now apply ws_ascii.
      change (utf8_decode_from utf8_initial (0xEF :: 0xBB :: 0xBF :: data))
        with (utf8_decode (0xEF :: 0xBB :: 0xBF :: data)).
      rewrite utf8_decode_bom, strip_bom_ws by assumption.
      now rewrite utf16_encode_app, utf16_encode_ws, Hunit.
    - exists [], (utf16_encode (utf8_decode data)). split; [reflexivity |].
      unfold TextDecoder_decode. cbn [app].
      rewrite utf8_decode_bom, utf8_decode_bom. cbn [strip_bom].
      change (BOM =? BOM) with true. cbv iota. now rewrite Hunit. }
  destruct Htext as (w & t & Hw & ->).
  now rewrite JSON_parse_bom.
Qed.

Lemma decodeMessage_rejects_misplaced_bom_witness :
  ((forallb is_ws blank_bytes = true /\ blank_bytes <> [])
   /\ decodeMessage any_value (bom_bytes ++ contact_envelope_text)
      = Returned (ok contact_envelope))
  /\ decodeMessage any_value (blank_bytes ++ bom_bytes ++ contact_envelope_text)
     = Returned (err "Failed to decode Gossip message..."%string)
  /\ decodeMessage any_value (bom_bytes ++ bom_bytes ++ contact_envelope_text)
     = Returned (err "Failed to decode Gossip message..."%string).
Proof.
  split; [repeat split; discriminate |]. split.
  - apply (decodeMessage_rejects_misplaced_bom any_value blank_bytes
             contact_envelope_text).
    left. split; [reflexivity | discriminate].
  - apply (decodeMessage_rejects_misplaced_bom any_value bom_bytes
             contact_envelope_text).
    right. reflexivity.
Defined.
